(** * ngsutils.sequence: encoder, Hamming distances, consensus calling and
      whitelist correction

    A shallow embedding of [src/ngsutils/sequence.py].

    Conventions of the embedding.
    - A Python [str] is a [string] of 7-bit characters; [str.upper] maps
      [a]..[z] to [A]..[Z] and leaves every other character alone.  A
      sequence that the embedded encoder accepts has letters only, so it is
      such a string; where a statement about other input needs the
      restriction, it is a hypothesis ([ascii_only]).
    - A numpy array of shape [(4, L)] is a list of [L] columns, each column
      a list of 4 cells in the order of [NUCLEOTIDES_STRICT]; [arr[:, i]] is
      the [i]-th element of the list.  Arrays of shape [(N, 4, L)] and
      [(N, L)] are lists of [N] such matrices and of [N] rows.
    - Integers are [Z]; a [uint8] cell is a [Z] reduced modulo 256.
    - Floats are rationals ([Q]): products, quotients by 10 and comparisons
      are exact.  [np.log10] and the log-sum of powers of ten are parameters
      of the corrector.  What is proved of the consensus loop holds for
      every value of the threshold, and what is proved of the corrector for
      every choice of these functions.
    - A raised exception is the [Err] case of [result].
    - The functions under [@njit] are embedded with the meaning of their
      Python text.  The one place where compiled code can read an array past
      its end (a boolean mask longer than the array) takes the value read
      from a parameter.
    - [call_consensus_with_qualities] is embedded for
      [return_qualities=False].  Its [while True] loop runs on fuel; the
      theorems show that one unit of fuel per input sequence is enough. *)

From Stdlib Require Import List ZArith QArith Bool Ascii String Lia Arith.
From Stdlib Require Import Qminmax Lqa Sorted.
Import ListNotations.

Local Open Scope Z_scope.

(** ** Exceptions *)

Inductive exn : Type :=
| SequenceError      (* ngsutils.sequence.SequenceError *)
| PlainException     (* raise Exception(...) *)
| IndexError
| KeyError
| ValueError
| OverflowError.

Inductive result (A : Type) : Type :=
| Ok (a : A)
| Err (e : exn).
Arguments Ok {A} a.
Arguments Err {A} e.

Definition bind {A B : Type} (r : result A) (k : A -> result B) : result B :=
  match r with
  | Ok a => k a
  | Err e => Err e
  end.

Notation "'do' x <- r ; k" := (bind r (fun x => k))
  (at level 10, x name, r at level 100, k at level 200).

Fixpoint mapM {A B : Type} (f : A -> result B) (xs : list A) : result (list B) :=
  match xs with
  | [] => Ok []
  | x :: xs' => do y <- f x; do ys <- mapM f xs'; Ok (y :: ys)
  end.

(** ** Alphabet tables *)

Definition NUCLEOTIDES_STRICT : list ascii := ["A"; "C"; "G"; "T"]%char.
Definition NUCLEOTIDES_PERMISSIVE : list ascii :=
  ["R"; "Y"; "S"; "W"; "K"; "M"; "B"; "D"; "H"; "V"; "N"]%char.
Definition NUCLEOTIDES : list ascii :=
  NUCLEOTIDES_STRICT ++ NUCLEOTIDES_PERMISSIVE.

Definition NUCLEOTIDES_AMBIGUOUS : list (ascii * list ascii) :=
  [ ("N", ["A"; "C"; "G"; "T"]);
    ("R", ["A"; "G"]);
    ("Y", ["C"; "T"]);
    ("S", ["G"; "C"]);
    ("W", ["A"; "T"]);
    ("K", ["G"; "T"]);
    ("M", ["A"; "C"]);
    ("B", ["C"; "G"; "T"]);
    ("D", ["A"; "G"; "T"]);
    ("H", ["A"; "C"; "T"]);
    ("V", ["A"; "C"; "G"]) ]%char.

(** [x in xs] on characters. *)
Definition char_in (x : ascii) (xs : list ascii) : bool :=
  existsb (Ascii.eqb x) xs.

(** [d[k]] on a dictionary kept as an association list; [None] is a missing
    key. *)
Fixpoint assoc {K V : Type} (eqb : K -> K -> bool) (k : K) (d : list (K * V)) : option V :=
  match d with
  | [] => None
  | (k', v) :: d' => if eqb k k' then Some v else assoc eqb k d'
  end.

Definition lookup {V : Type} : ascii -> list (ascii * V) -> option V :=
  assoc Ascii.eqb.

(** [d.get(k, default)]. *)
Definition dict_get {V : Type} (d : list (ascii * V)) (k : ascii) (default : V) : V :=
  match lookup k d with
  | Some v => v
  | None => default
  end.

(** The dict comprehension building one boolean mask per symbol. *)
Definition NUCLEOTIDE_MASKS : list (ascii * list bool) :=
  map (fun n =>
         (n, map (fun _n => char_in _n (dict_get NUCLEOTIDES_AMBIGUOUS n [n]))
                 NUCLEOTIDES_STRICT))
      NUCLEOTIDES.

(** ** Strings *)

Definition chars (s : string) : list ascii := list_ascii_of_string s.

(** [str.upper] on one 7-bit character. *)
Definition upper_char (c : ascii) : ascii :=
  let n := nat_of_ascii c in
  if (97 <=? n)%nat && (n <=? 122)%nat then ascii_of_nat (n - 32) else c.

Definition upper (s : list ascii) : list ascii := map upper_char s.

(** [len(s)] as a Python integer. *)
Definition len {A : Type} (xs : list A) : Z := Z.of_nat (List.length xs).

(** ** Encoder *)

Definition matrix (A : Type) : Type := list (list A).

(** [np.zeros((rows, cols))] in the column-list layout; a negative
    dimension is numpy's [ValueError]. *)
Definition np_zeros {A : Type} (zero : A) (rows : nat) (cols : Z) : result (matrix A) :=
  if cols <? 0 then Err ValueError
  else Ok (repeat (repeat zero rows) (Z.to_nat cols)).

Fixpoint update {A : Type} (i : nat) (x : A) (xs : list A) : list A :=
  match xs, i with
  | [], _ => []
  | _ :: xs', O => x :: xs'
  | y :: xs', S i' => y :: update i' x xs'
  end.

(** [col[mask] = True] on one column. *)
Fixpoint assign_true (mask col : list bool) : list bool :=
  match mask, col with
  | m :: mask', b :: col' => (if m then true else b) :: assign_true mask' col'
  | _, _ => col
  end.

(** The loop [for i, c in enumerate(sequence): arr[NUCLEOTIDE_MASKS[c], i] = True],
    started at index [i]. *)
Fixpoint fill_masks (cs : list ascii) (i : nat) (arr : matrix bool) : result (matrix bool) :=
  match cs with
  | [] => Ok arr
  | c :: cs' =>
      match lookup c NUCLEOTIDE_MASKS with
      | None => Err KeyError
      | Some mask =>
          match nth_error arr i with
          | None => Err IndexError
          | Some col => fill_masks cs' (S i) (update i (assign_true mask col) arr)
          end
      end
  end.

(** Python's [l or len(sequence)] for [l : Optional[int]]. *)
Definition l_or (l : option Z) (n : Z) : Z :=
  match l with
  | Some v => if v =? 0 then n else v
  | None => n
  end.

Definition _sequence_to_array (sequence : string) (l : option Z) : result (matrix bool) :=
  let sequence := upper (chars sequence) in
  if forallb (fun c => char_in c NUCLEOTIDES) sequence then
    do arr <- np_zeros false (List.length NUCLEOTIDES_STRICT) (l_or l (len sequence));
    fill_masks sequence 0 arr
  else Err SequenceError.

(** Quality input: a quality string or an [array.array] of numbers. *)
Inductive quality_input : Type :=
| QualStr (s : string)
| QualArr (a : list Z).

Definition qlen (q : quality_input) : Z :=
  match q with
  | QualStr s => len (chars s)
  | QualArr a => len a
  end.

(** Modelled from the spec: [pysam.qualitystring_to_array], the quality codec
    that is not part of this repository's sources.  One character per
    position, the character's code point minus the fixed offset 33; the result
    is an array of unsigned bytes, so a negative score cannot be stored. *)
Definition qualitystring_to_array (s : string) : result (list Z) :=
  mapM (fun c => let v := Z.of_nat (nat_of_ascii c) - 33 in
                 if v <? 0 then Err OverflowError else Ok v)
       (chars s).

Definition uint8 (v : Z) : Z := v mod 256.

(** [np.array(..., dtype=np.uint8)] of the decoded string or of the array. *)
Definition quality_values (q : quality_input) : result (list Z) :=
  match q with
  | QualStr s => do a <- qualitystring_to_array s; Ok (map uint8 a)
  | QualArr a => Ok (map uint8 a)
  end.

(** [arr.resize(n)]: truncate, or pad with zeros on the right. *)
Definition resize (n : Z) (arr : list Z) : result (list Z) :=
  if n <? 0 then Err ValueError
  else Ok (firstn (Z.to_nat n) (arr ++ repeat 0 (Z.to_nat n - List.length arr))).

(** Truth value of an [Optional[int]]. *)
Definition truthy (l : option Z) : bool :=
  match l with
  | Some v => negb (v =? 0)
  | None => false
  end.

Definition _qualities_to_array (qualities : quality_input) (l : option Z) : result (list Z) :=
  if truthy l && (match l with Some v => v <? qlen qualities | None => false end)
  then Err SequenceError
  else
    do arr <- quality_values qualities;
    match l with
    | Some v => if v =? 0 then Ok arr else resize v arr
    | None => Ok arr
    end.


(** ** Distance engine *)

Fixpoint map2 {A B C : Type} (f : A -> B -> C) (xs : list A) (ys : list B) : list C :=
  match xs, ys with
  | x :: xs', y :: ys' => f x y :: map2 f xs' ys'
  | _, _ => []
  end.

(** One position of [_mismatch_mask]: [result &= not_and[i]] for the four
    rows [i], starting from [True]. *)
Definition mismatch_at (col1 col2 : list bool) : bool :=
  fold_left andb (map2 (fun a b => negb (a && b)) col1 col2) true.

Definition _mismatch_mask (sequence1 sequence2 : matrix bool) : list bool :=
  map2 mismatch_at sequence1 sequence2.

(** [mask.sum()] of a boolean array. *)
Definition bool_sum (mask : list bool) : Z :=
  fold_right (fun b acc => Z.b2z b + acc) 0 mask.

Definition _hamming_distance (sequence1 sequence2 : matrix bool) : Z :=
  bool_sum (_mismatch_mask sequence1 sequence2).

Definition hamming_distance (sequence1 sequence2 : string) : result Z :=
  if negb (len (chars sequence1) =? len (chars sequence2)) then Err SequenceError
  else
    do a1 <- _sequence_to_array sequence1 None;
    do a2 <- _sequence_to_array sequence2 None;
    Ok (_hamming_distance a1 a2).

(** The loop of [_mismatch_masks] over [enumerate(whitelist)], from index [i]. *)
Fixpoint mismatch_masks_from (sequence : matrix bool) (whitelist : list (matrix bool))
         (d : Z) (i : nat) : list nat * list (list bool) :=
  match whitelist with
  | [] => ([], [])
  | bc_array :: rest =>
      let mask := _mismatch_mask sequence bc_array in
      let '(indices, masks) := mismatch_masks_from sequence rest d (S i) in
      if bool_sum mask >? d then (indices, masks)
      else (i :: indices, mask :: masks)
  end.

Definition _mismatch_masks (sequence : matrix bool) (whitelist : list (matrix bool)) (d : Z)
  : list nat * list (list bool) :=
  mismatch_masks_from sequence whitelist d 0.

(** [distances[i, j]] and [distances[i, j] = d] on a list of rows. *)
Definition get2 (m : list (list Z)) (i j : nat) : Z := nth j (nth i m []) 0.
Definition set2 (i j : nat) (d : Z) (m : list (list Z)) : list (list Z) :=
  update i (update j d (nth i m [])) m.

Definition pairwise_inner (sequences : list (matrix bool)) (i : nat)
           (distances : list (list Z)) (j : nat) : list (list Z) :=
  let d := _hamming_distance (nth i sequences []) (nth j sequences []) in
  set2 j i d (set2 i j d distances).

Definition _pairwise_hamming_distances (sequences : list (matrix bool)) : list (list Z) :=
  let n := List.length sequences in
  fold_left
    (fun distances i => fold_left (pairwise_inner sequences i) (seq i (n - i)) distances)
    (seq 0 n)
    (repeat (repeat 0 n) n).

(** [sequences[0]] inside a generator that is consumed only when [sequences]
    is not empty. *)
Definition first_len (sequences : list string) : Z :=
  match sequences with
  | s :: _ => len (chars s)
  | [] => 0
  end.

(** For the empty list the checks pass and the result is the empty matrix;
    whether the compiled kernel accepts the empty array that [np.array([])]
    builds is not part of the embedding. *)
Definition pairwise_hamming_distances (sequences : list string) : result (list (list Z)) :=
  if existsb (fun s => negb (first_len sequences =? len (chars s))) sequences
  then Err SequenceError
  else
    do arrays <- mapM (fun s => _sequence_to_array s None) sequences;
    Ok (_pairwise_hamming_distances arrays).


(** ** Consensus caller *)

(** [np.argmax] of a one-dimensional array: the first index of the maximum. *)
Fixpoint argmax_from (xs : list Z) (i best_i : nat) (best : Z) : nat :=
  match xs with
  | [] => best_i
  | x :: xs' =>
      if best <? x then argmax_from xs' (S i) i x
      else argmax_from xs' (S i) best_i best
  end.

Definition argmax (xs : list Z) : nat :=
  match xs with
  | [] => 0%nat
  | x :: xs' => argmax_from xs' 1 0 x
  end.

(** A boolean array seen as numbers, for [argmax]. *)
Definition as_int (seq : matrix bool) : matrix Z := map (map Z.b2z) seq.

(** [arr.argmax(axis=0)]. *)
Definition argmax0 (arr : matrix Z) : list nat := map argmax arr.

Definition _most_likely_sequence (positional_probs : matrix Z) : string :=
  string_of_list_ascii
    (map (fun i => nth i NUCLEOTIDES_STRICT "A"%char) (argmax0 positional_probs)).

(** [np.add(positional_probs, qual, out=positional_probs, where=seq)]. *)
Fixpoint add_where (positional_probs : matrix Z) (qual : list Z) (seq : matrix bool)
  : matrix Z :=
  match positional_probs, qual, seq with
  | pcol :: ps, q :: qs, scol :: ss =>
      map2 (fun p (s : bool) => if s then p + q else p) pcol scol :: add_where ps qs ss
  | _, _, _ => positional_probs
  end.

Definition _calculate_positional_probs (sequences : list (matrix bool))
           (qualities : list (list Z)) : result (matrix Z) :=
  match sequences with
  | [] => Err IndexError
  | s0 :: _ =>
      Ok (fold_left (fun pp '(seq, qual) => add_where pp qual seq)
                    (combine sequences qualities)
                    (map (map (fun _ => 0)) s0))
  end.

(** Boolean-mask indexing [xs[mask]]. *)
Fixpoint select {A : Type} (mask : list bool) (xs : list A) : list A :=
  match mask, xs with
  | m :: mask', x :: xs' => if m then x :: select mask' xs' else select mask' xs'
  | _, _ => []
  end.

Definition zsum (xs : list Z) : Z := fold_right Z.add 0 xs.

(** [np.sum(qual[consensus_indices != seq.argmax(axis=0)])]. *)
Definition mismatch_cost (consensus_indices : list nat) (seq : matrix bool) (qual : list Z) : Z :=
  zsum (select (map2 (fun c s => negb (Nat.eqb c s)) consensus_indices (argmax0 (as_int seq)))
               qual).

(** [min(probs)]; empty is Python's [ValueError]. *)
Definition zmin (xs : list Z) : result Z :=
  match xs with
  | [] => Err ValueError
  | x :: xs' => Ok (fold_left Z.min xs' x)
  end.

(** Python's [max(thresh, m)] for a float and an integer: the first argument
    unless the second is strictly larger. *)
Definition py_max (thresh : Q) (m : Z) : Q :=
  if Qlt_le_dec thresh (inject_Z m) then inject_Z m else thresh.

Definition _call_consensus (seqs : list (matrix bool)) (quals : list (list Z)) (thresh : Q)
  : result (string * list bool) :=
  match seqs with
  | [s0] => Ok (_most_likely_sequence (as_int s0), [true])
  | _ =>
      do positional_probs <- _calculate_positional_probs seqs quals;
      let consensus_indices := argmax0 positional_probs in
      let probs := map (fun '(seq, qual) => mismatch_cost consensus_indices seq qual)
                       (combine seqs quals) in
      do m <- zmin probs;
      let assigned := map (fun p => Qle_bool (inject_Z p) (py_max thresh m)) probs in
      let assigned_seqs := select assigned seqs in
      let assigned_quals := select assigned quals in
      do pp <- _calculate_positional_probs assigned_seqs assigned_quals;
      Ok (_most_likely_sequence pp, assigned)
  end.

(** [consensuses.index(consensus)]. *)
Fixpoint index_of (consensus : string) (consensuses : list string) : nat :=
  match consensuses with
  | [] => 0
  | c :: rest => if String.eqb c consensus then 0 else S (index_of consensus rest)
  end.

Definition str_in (x : string) (xs : list string) : bool := existsb (String.eqb x) xs.

(** The [while True] loop.  [index_transform] is the dictionary from pool
    position to input position, kept as the list of its values.  [fuel]
    bounds the number of rounds ([None]: not finished within [fuel] rounds);
    the last component of the result counts the rounds taken. *)
Fixpoint consensus_loop (fuel : nat) (threshold : Q)
         (consensuses : list string) (assignments : list Z) (index_transform : list nat)
         (_sequences_arrays : list (matrix bool)) (_qualities_arrays : list (list Z))
  : option (result (list string * list Z * nat)) :=
  match fuel with
  | O => None
  | S fuel' =>
      match _call_consensus _sequences_arrays _qualities_arrays threshold with
      | Err e => Some (Err e)
      | Ok (consensus, assigned) =>
          let '(label, consensuses) :=
            if str_in consensus consensuses
            then (index_of consensus consensuses, consensuses)
            else (List.length consensuses, consensuses ++ [consensus]) in
          let assignments :=
            fold_left (fun a i => update i (Z.of_nat label) a)
                      (select assigned index_transform) assignments in
          if forallb (fun b => b) assigned then Some (Ok (consensuses, assignments, 1%nat))
          else
            let unassigned := map negb assigned in
            match consensus_loop fuel' threshold consensuses assignments
                                 (select unassigned index_transform)
                                 (select unassigned _sequences_arrays)
                                 (select unassigned _qualities_arrays) with
            | Some (Ok (cs, a, rounds)) => Some (Ok (cs, a, S rounds))
            | other => other
            end
      end
  end.

(** [max(len(s) for s in sequences)]. *)
Definition max_len (sequences : list string) : result Z :=
  match sequences with
  | [] => Err ValueError
  | s :: rest => Ok (fold_left (fun m s' => Z.max m (len (chars s'))) rest (len (chars s)))
  end.

(** The run of [call_consensus_with_qualities] with [return_qualities=False],
    with the round count of the loop. *)
Definition call_consensus_rounds (fuel : nat) (sequences : list string)
           (qualities : list quality_input) (q_threshold : Z) (proportion : Q)
  : option (result (list string * list Z * nat)) :=
  if negb (len sequences =? len qualities) then Some (Err PlainException)
  else if existsb (fun '(seq, qual) => negb (len (chars seq) =? qlen qual))
                  (combine sequences qualities) then Some (Err PlainException)
  else
    match max_len sequences with
    | Err e => Some (Err e)
    | Ok l =>
        match mapM (fun sequence => _sequence_to_array sequence (Some l)) sequences with
        | Err e => Some (Err e)
        | Ok sequences_arrays =>
            match mapM (fun quals => _qualities_to_array quals (Some l)) qualities with
            | Err e => Some (Err e)
            | Ok qualities_arrays =>
                let threshold := (inject_Z q_threshold * (inject_Z l * proportion))%Q in
                consensus_loop fuel threshold []
                               (repeat (-1) (List.length sequences))
                               (seq 0 (List.length sequences))
                               sequences_arrays qualities_arrays
            end
        end
    end.

(** [call_consensus_with_qualities(sequences, qualities, q_threshold, proportion)]:
    the loop is given one round per input sequence. *)
Definition call_consensus_with_qualities (sequences : list string)
           (qualities : list quality_input) (q_threshold : Z) (proportion : Q)
  : option (result (list string * list Z)) :=
  match call_consensus_rounds (List.length sequences) sequences qualities q_threshold proportion with
  | Some (Ok (consensuses, assignments, _)) => Some (Ok (consensuses, assignments))
  | Some (Err e) => Some (Err e)
  | None => None
  end.


(** ** Whitelist corrector *)

(** [Counter(sequences)[x]]: the number of occurrences, 0 for a missing key. *)
Definition counts (sequences : list string) (x : string) : Z :=
  Z.of_nat (count_occ string_dec sequences x).

Fixpoint insert_sorted (x : string) (xs : list string) : list string :=
  match xs with
  | [] => [x]
  | y :: ys => if String.leb x y then x :: y :: ys else y :: insert_sorted x ys
  end.

(** [sorted(Counter(sequences).keys())]. *)
Definition sorted_keys (sequences : list string) : list string :=
  fold_right insert_sorted [] (nodup string_dec sequences).

(** Storing a float into an integer array truncates towards zero. *)
Definition trunc (q : Q) : Z := Z.quot (Qnum q) (Z.pos (Qden q)).

(** [whitelist_counts[i] += c / n] on an integer array. *)
Definition add_share (whitelist_counts : list Z) (i : nat) (c : Z) (n : Z) : list Z :=
  let old := nth i whitelist_counts 0 in
  update i (trunc (inject_Z old + inject_Z c / inject_Z n)%Q) whitelist_counts.

(** [indices[masks.sum(axis=1) == 0]]. *)
Definition exact_matches (indices : list nat) (masks : list (list bool)) : list nat :=
  select (map (fun mask => bool_sum mask =? 0) masks) indices.

Record phase1_state : Type := mk_phase1 {
  mismatch_cache : list (string * (list nat * list (list bool)));
  whitelist_counts : list Z;
  matches : list (string * string)
}.

(** One iteration of the first loop, for the distinct read [useq] and its
    [(indices, masks)]. *)
Definition phase1_step (sequences whitelist : list string) (st : phase1_state)
           (item : string * (list nat * list (list bool))) : phase1_state :=
  let '(useq, (indices, masks)) := item in
  let cache := (useq, (indices, masks)) :: mismatch_cache st in
  match indices with
  | [] => mk_phase1 cache (whitelist_counts st) (matches st)
  | _ =>
      let match_indices := exact_matches indices masks in
      let matches' :=
        match match_indices with
        | [m] => (useq, nth m whitelist EmptyString) :: matches st
        | _ => matches st
        end in
      let counts' :=
        fold_left (fun wc i => add_share wc i (counts sequences (nth i whitelist EmptyString))
                                         (len match_indices))
                  match_indices (whitelist_counts st) in
      mk_phase1 cache counts' matches'
  end.

Definition phase1 (sequences whitelist : list string) (d : Z) : result phase1_state :=
  let unique_sequences := sorted_keys sequences in
  do whitelist_arrays <- mapM (fun bc => _sequence_to_array bc None) whitelist;
  do results <- mapM (fun seq => do a <- _sequence_to_array seq None;
                                 Ok (_mismatch_masks a whitelist_arrays d))
                     unique_sequences;
  Ok (fold_left (phase1_step sequences whitelist)
                (combine unique_sequences results)
                (mk_phase1 [] (repeat 0 (List.length whitelist)) [])).

(** The second loop: [corrections[i] = matches[sequence]] for the reads that
    are keys of [matches]. *)
Definition exact_corrections (sequences : list string) (matches : list (string * string))
  : list (option string) :=
  map (fun sequence => assoc String.eqb sequence matches) sequences.

Definition validate (sequences : list string) (qualities : list quality_input)
           (whitelist : list string) : result unit :=
  if negb (len sequences =? len qualities) then Err PlainException
  else if existsb (fun '(seq, qual) => negb (len (chars seq) =? qlen qual))
                  (combine sequences qualities) then Err PlainException
  else if negb (len (nodup string_dec whitelist) =? len whitelist) then Err SequenceError
  else if existsb (fun seq => negb (len (chars seq) =? first_len sequences)) sequences
       then Err SequenceError
  else if existsb (fun bc => negb (len (chars bc) =? first_len whitelist)) whitelist
       then Err SequenceError
  else
    match sequences, whitelist with
    | s0 :: _, w0 :: _ =>
        if negb (len (chars s0) =? len (chars w0)) then Err SequenceError else Ok tt
    | _, _ => Err IndexError
    end.

Section Floats.

(** The float functions of numpy that the corrector uses, on the rationals
    that stand for floats: [np.log10], and
    [np.log10(np.power(10, xs).sum())] for a list [xs]. *)
Variable log10 : Q -> Q.
Variable log10_sum_pow10 : list Q -> Q.

(** What reading [qualities[pos]] yields for a position past the end of
    the array inside compiled code, where the index is not checked. *)
Variable unchecked_read : nat -> Z.

(** [qualities[mask].sum()], from position [pos] on. *)
Fixpoint masked_sum (qualities : list Z) (mask : list bool) (pos : nat) : Z :=
  match mask with
  | [] => 0
  | m :: mask' =>
      (if m then match nth_error qualities pos with
                 | Some q => q
                 | None => unchecked_read pos
                 end
       else 0) + masked_sum qualities mask' (S pos)
  end.

Definition log10_likelihood (qualities : list Z) (log10_proportions : list Q)
           (i : nat) (mask : list bool) : Q :=
  let s := masked_sum qualities mask 0 in
  (nth i log10_proportions 0 + - (inject_Z s / 10))%Q.

(** The state of the loop of [_correct_to_whitelist]: [best_bc],
    [max_log10_likelihood] ([None] is minus infinity) and
    [log10_likelihoods]. *)
Definition correct_step (qualities : list Z) (log10_proportions : list Q)
           (st : Z * option Q * list Q) (item : nat * list bool) : Z * option Q * list Q :=
  let '(best_bc, max_log10_likelihood, log10_likelihoods) := st in
  let '(i, mask) := item in
  let ll := log10_likelihood qualities log10_proportions i mask in
  let log10_likelihoods := log10_likelihoods ++ [ll] in
  match max_log10_likelihood with
  | Some mx =>
      if Qlt_le_dec mx ll then (Z.of_nat i, Some ll, log10_likelihoods)
      else (best_bc, max_log10_likelihood, log10_likelihoods)
  | None => (Z.of_nat i, Some ll, log10_likelihoods)
  end.

Definition _correct_to_whitelist (qualities : list Z) (indices : list nat)
           (masks : list (list bool)) (log10_proportions : list Q) : Z * Q :=
  let '(best_bc, max_log10_likelihood, log10_likelihoods) :=
    fold_left (correct_step qualities log10_proportions)
              (combine indices masks) (-1, None, []) in
  match max_log10_likelihood with
  | Some mx =>
      if 0 <=? best_bc then (best_bc, (mx - log10_sum_pow10 log10_likelihoods)%Q)
      else (best_bc, 0%Q)
  | None => (best_bc, 0%Q)
  end.

(** [np.log10((whitelist_counts + 1) / whitelist_pseudo)]. *)
Definition log10_proportions_of (whitelist_counts : list Z) (n_whitelist : Z) : list Q :=
  let whitelist_pseudo := zsum whitelist_counts + n_whitelist in
  map (fun c => log10 (inject_Z (c + 1) / inject_Z whitelist_pseudo)%Q) whitelist_counts.

(** The body of the last loop for read [i]. *)
Definition phase3_one (whitelist : list string) (st : phase1_state)
           (whitelist_log10_proportions : list Q) (confidence : Q)
           (item : string * quality_input * option string) : result (option string) :=
  let '(seq, quals, correction) := item in
  match correction with
  | Some c => Ok (Some c)
  | None =>
      do q <- _qualities_to_array quals None;
      match assoc String.eqb seq (mismatch_cache st) with
      | None => Err KeyError
      | Some (indices, masks) =>
          (* masks.reshape(1, -1): one row holding all the masks in sequence *)
          let '(best_bc, log10_confidence) :=
            _correct_to_whitelist q indices [List.concat masks] whitelist_log10_proportions in
          if (0 <=? best_bc) && Qle_bool confidence log10_confidence
          then Ok (Some (nth (Z.to_nat best_bc) whitelist EmptyString))
          else Ok None
      end
  end.

Definition correct_sequences_to_whitelist (sequences : list string)
           (qualities : list quality_input) (whitelist : list string)
           (d : Z) (confidence : Q) : result (list (option string)) :=
  do _ <- validate sequences qualities whitelist;
  do st <- phase1 sequences whitelist d;
  let corrections := exact_corrections sequences (matches st) in
  let whitelist_log10_proportions :=
    log10_proportions_of (whitelist_counts st) (len whitelist) in
  let confidence := log10 confidence in
  mapM (phase3_one whitelist st whitelist_log10_proportions confidence)
       (combine (combine sequences qualities) corrections).

End Floats.


(** ** Vocabulary of the statements *)

(** The sequence is accepted by the encoder: every character, upper-cased,
    is a key of [NUCLEOTIDES]. *)
Definition valid_sequence (s : string) : bool :=
  forallb (fun c => char_in c NUCLEOTIDES) (upper (chars s)).

(** The column that the encoder writes for symbol [c]. *)
Definition symbol_column (c : ascii) : list bool :=
  match lookup c NUCLEOTIDE_MASKS with
  | Some mask => assign_true mask (repeat false 4)
  | None => repeat false 4
  end.

(** Every value of the array is an unsigned byte. *)
Definition all_uint8 (a : list Z) : Prop := Forall (fun v => 0 <= v < 256) a.

(** A square array of side [n]. *)
Definition square (n : nat) (m : list (list Z)) : Prop :=
  List.length m = n /\ forall i, (i < n)%nat -> List.length (nth i m []) = n.

(** The invariant of both loops of [_pairwise_hamming_distances]. *)
Definition symmetric_zero_diag (n : nat) (m : list (list Z)) : Prop :=
  square n m /\
  (forall a b, (a < n)%nat -> (b < n)%nat -> get2 m a b = get2 m b a) /\
  (forall a, (a < n)%nat -> get2 m a a = 0).

(** A valid input of the consensus caller: at least one sequence, as many
    quality inputs as sequences, every sequence accepted by the encoder and
    paired with a quality input of its length that decodes. *)
Definition valid_read (s : string) (q : quality_input) : Prop :=
  valid_sequence s = true /\ len (chars s) = qlen q /\
  exists values, quality_values q = Ok values.

Definition valid_consensus_input (sequences : list string)
           (qualities : list quality_input) : Prop :=
  sequences <> [] /\ Forall2 valid_read sequences qualities.

(** The number of reads that [assignments] gives to cluster [i]. *)
Definition cluster_size (assignments : list Z) (i : nat) : nat :=
  count_occ Z.eq_dec assignments (Z.of_nat i).

(** The first strict base, in the order of [NUCLEOTIDES_STRICT], that the
    symbol [c] stands for. *)
Definition first_base (c : ascii) : ascii :=
  hd "A"%char (filter (fun n => char_in n (dict_get NUCLEOTIDES_AMBIGUOUS c [c]))
                      NUCLEOTIDES_STRICT).

(** The sequence upper-cased, with every symbol replaced by its first strict
    base. *)
Definition strict_call (s : string) : string :=
  string_of_list_ascii (map first_base (upper (chars s))).

(** The array of an accepted sequence encoded without a requested width. *)
Definition encode (s : string) : matrix bool := map symbol_column (upper (chars s)).

(** The whitelist neighbours of the read [r] within distance [d], as the
    first loop of the corrector computes them. *)
Definition neighbours (whitelist : list string) (d : Z) (r : string)
  : list nat * list (list bool) :=
  _mismatch_masks (encode r) (map encode whitelist) d.

(** A valid input of the whitelist corrector beyond what [validate] checks:
    every read and whitelist entry is accepted by the encoder and every
    quality input decodes. *)
Definition encodable (sequences : list string) (qualities : list quality_input)
           (whitelist : list string) : Prop :=
  (forall s, In s sequences -> valid_sequence s = true) /\
  (forall w, In w whitelist -> valid_sequence w = true) /\
  (forall q, In q qualities -> exists values, quality_values q = Ok values).

(** The cost of position [pos] of a read against the consensus bases
    [consensus_indices]: the quality of the read there when its own most
    likely base is another one, and 0 when it is the same. *)
Definition position_cost (consensus_indices : list nat) (read : matrix bool)
           (qual : list Z) (pos : nat) : Z :=
  if Nat.eqb (nth pos consensus_indices 0%nat) (argmax (map Z.b2z (nth pos read [])))
  then 0 else nth pos qual 0.

(** The mismatch cost of a read of [L] positions: the sum of its qualities
    at the positions where it does not match the consensus. *)
Definition read_cost (L : nat) (consensus_indices : list nat) (read : matrix bool)
           (qual : list Z) : Z :=
  zsum (map (position_cost consensus_indices read qual) (seq 0 L)).

(** The values that a quality input stands for, as unsigned bytes: the
    entries of an array reduced modulo 256; for a quality string the code
    point of every character minus 33, and nothing when a character lies
    below that offset. *)
Definition stored_qualities (q : quality_input) : option (list Z) :=
  match q with
  | QualArr a => Some (map (fun v => v mod 256) a)
  | QualStr s =>
      if forallb (fun c => (33 <=? nat_of_ascii c)%nat) (chars s)
      then Some (map (fun c => Z.of_nat (nat_of_ascii c) - 33) (chars s))
      else None
  end.

(** The string has 7-bit characters only.  On such strings [upper] is
    Python's [str.upper]: it changes the letters [a]..[z] and nothing else,
    and keeps the length.  (On other characters [str.upper] may differ, and
    may lengthen the string.) *)
Definition ascii_only (s : string) : bool :=
  forallb (fun c => (nat_of_ascii c <? 128)%nat) (chars s).

(** ** Further functions of the module *)

(** [NUCLEOTIDE_COMPLEMENT]. *)
Definition NUCLEOTIDE_COMPLEMENT : list (ascii * ascii) :=
  [ ("A", "T"); ("C", "G"); ("G", "C"); ("T", "A"); ("N", "N");
    ("R", "Y"); ("Y", "R"); ("S", "W"); ("W", "S"); ("K", "M");
    ("M", "K"); ("B", "V"); ("D", "H"); ("H", "D"); ("V", "B") ]%char.

(** [enumerate(xs)]. *)
Definition enumerate {A : Type} (xs : list A) : list (nat * A) :=
  combine (seq 0 (List.length xs)) xs.

(** [pos.nonzero()[0]]: the indices of the true cells, from index [i] on. *)
Fixpoint nonzero_from (pos : list bool) (i : nat) : list nat :=
  match pos with
  | [] => []
  | b :: pos' => if b then i :: nonzero_from pos' (S i) else nonzero_from pos' (S i)
  end.

Definition nonzero (pos : list bool) : list nat := nonzero_from pos 0.

(** The f-string [f'{seq}{NUCLEOTIDES_STRICT[i]}']. *)
Definition append_base (i : nat) (seq : string) : string :=
  (seq ++ String (nth i NUCLEOTIDES_STRICT "A"%char) EmptyString)%string.

(** One iteration of the loop over [sequence.T] in
    [_disambiguate_sequence]. *)
Definition disambiguate_step (sequences : list string) (pos : list bool) : list string :=
  fold_left (fun new_sequences i => new_sequences ++ map (append_base i) sequences)
            (nonzero pos) [].

Definition _disambiguate_sequence (sequence : matrix bool) : list string :=
  fold_left disambiguate_step sequence [EmptyString].

Definition _hamming_distances (sequence : matrix bool) (sequences : list (matrix bool))
  : list Z :=
  fold_left (fun distances '(i, seq) => update i (_hamming_distance sequence seq) distances)
            (enumerate sequences)
            (repeat 0 (List.length sequences)).

Definition hamming_distances (sequence : string) (sequences : list string) : result (list Z) :=
  if existsb (fun seq => negb (len (chars sequence) =? len (chars seq))) sequences
  then Err SequenceError
  else
    do sequence_array <- _sequence_to_array sequence None;
    do arrays <- mapM (fun seq => _sequence_to_array seq None) sequences;
    Ok (_hamming_distances sequence_array arrays).

Definition _hamming_distance_matrix (sequences1 sequences2 : list (matrix bool))
  : list (list Z) :=
  fold_left (fun distances '(i, seq1) => update i (_hamming_distances seq1 sequences2) distances)
            (enumerate sequences1)
            (repeat (repeat 0 (List.length sequences2)) (List.length sequences1)).

(** The generator of the length check evaluates [sequences1[0]] once per
    element of [sequences1 + sequences2]: with [sequences1] empty and
    [sequences2] not, that is an [IndexError]. *)
Definition hamming_distance_matrix (sequences1 sequences2 : list string)
  : result (list (list Z)) :=
  match sequences1, sequences2 with
  | [], _ :: _ => Err IndexError
  | _, _ =>
      if existsb (fun seq => negb (first_len sequences1 =? len (chars seq)))
                 (sequences1 ++ sequences2)
      then Err SequenceError
      else
        do arrays1 <- mapM (fun s => _sequence_to_array s None) sequences1;
        do arrays2 <- mapM (fun s => _sequence_to_array s None) sequences2;
        Ok (_hamming_distance_matrix arrays1 arrays2)
  end.

(** [sequence.upper()] as a string. *)
Definition upper_string (s : string) : string := string_of_list_ascii (upper (chars s)).

(** The strict bases that the symbol [c] stands for:
    [NUCLEOTIDES_AMBIGUOUS.get(c, [c])]. *)
Definition bases_of (c : ascii) : list ascii := dict_get NUCLEOTIDES_AMBIGUOUS c [c].

(** Two symbols are compatible when they share a strict base. *)
Definition compatible (c1 c2 : ascii) : bool :=
  existsb (fun b => char_in b (bases_of c1) && char_in b (bases_of c2)) NUCLEOTIDES_STRICT.

(** The number of positions at which two symbol lists are incompatible. *)
Fixpoint incompatible_positions (s1 s2 : list ascii) : Z :=
  match s1, s2 with
  | c1 :: s1', c2 :: s2' =>
      (if compatible c1 c2 then 0 else 1) + incompatible_positions s1' s2'
  | _, _ => 0
  end.

(** The strict bases named by the true cells of one column. *)
Definition col_bases (pos : list bool) : list ascii :=
  map (fun i => nth i NUCLEOTIDES_STRICT "A"%char) (nonzero pos).

(** The product of a list of natural numbers. *)
Definition product (ns : list nat) : nat := fold_right Nat.mul 1%nat ns.

(** The score matrix in which, at every position, the bases consistent with
    the symbol of [seq] carry the score of the position and the others 0. *)
Definition scores (totals : list Z) (seq : matrix bool) : matrix Z :=
  map2 (fun total col => map (fun s : bool => if s then total else 0) col) totals seq.

(** A matrix of [L] columns with 4 cells each. *)
Definition shaped {A : Type} (L : nat) (m : matrix A) : Prop :=
  List.length m = L /\ Forall (fun col => List.length col = 4%nat) m.

(** ** Encoder: proofs *)

Lemma char_in_In c xs : char_in c xs = true <-> In c xs.
Proof.
  unfold char_in. rewrite existsb_exists. split.
  - intros [x [Hx He]]. apply Ascii.eqb_eq in He. now subst.
  - intros H. exists c. split; [assumption | apply Ascii.eqb_refl].
Qed.

Lemma nucleotide_cases (P : ascii -> Prop) :
  Forall P NUCLEOTIDES -> forall c, char_in c NUCLEOTIDES = true -> P c.
Proof.
  intros HP c Hc. apply char_in_In in Hc.
  rewrite Forall_forall in HP. now apply HP.
Qed.

Lemma symbol_column_lookup c :
  char_in c NUCLEOTIDES = true ->
  exists mask, lookup c NUCLEOTIDE_MASKS = Some mask /\
               assign_true mask (repeat false 4) = symbol_column c.
Proof.
  revert c. apply nucleotide_cases.
  repeat constructor; eexists; (split; [reflexivity | reflexivity]).
Qed.

Lemma symbol_column_some_true c :
  char_in c NUCLEOTIDES = true -> 1 <= bool_sum (symbol_column c).
Proof.
  revert c. apply nucleotide_cases. repeat constructor; vm_compute; discriminate.
Qed.

Lemma symbol_column_strict c :
  char_in c NUCLEOTIDES_STRICT = true -> bool_sum (symbol_column c) = 1.
Proof.
  intros H. apply char_in_In in H. simpl in H.
  repeat (destruct H as [H | H]; [subst; reflexivity | ]). contradiction.
Qed.

Lemma symbol_column_length c : List.length (symbol_column c) = 4%nat.
Proof.
  unfold symbol_column.
  destruct (lookup c NUCLEOTIDE_MASKS) as [m|] eqn:E; [ | reflexivity].
  assert (Hlen : forall m col, List.length (assign_true m col) = List.length col).
  { clear. induction m as [|b m IH]; intros [|x col]; simpl; auto. }
  now rewrite Hlen.
Qed.

Lemma update_app_head {A : Type} (pre : list A) x y rest :
  update (List.length pre) x (pre ++ y :: rest) = pre ++ x :: rest.
Proof. induction pre as [|p pre IH]; simpl; [reflexivity | now rewrite IH]. Qed.

Lemma nth_error_app_head {A : Type} (pre : list A) y rest :
  nth_error (pre ++ y :: rest) (List.length pre) = Some y.
Proof. induction pre as [|p pre IH]; simpl; auto. Qed.

(** Closed form of the filling loop on an array whose columns from [i] on are
    still zero. *)
Lemma fill_masks_closed cs : forall pre k,
  forallb (fun c => char_in c NUCLEOTIDES) cs = true ->
  fill_masks cs (List.length pre) (pre ++ repeat (repeat false 4) k) =
  if (List.length cs <=? k)%nat
  then Ok (pre ++ map symbol_column cs ++ repeat (repeat false 4) (k - List.length cs))
  else Err IndexError.
Proof.
  induction cs as [|c cs IH]; intros pre k Hv.
  - simpl. now rewrite Nat.sub_0_r.
  - simpl in Hv. apply andb_true_iff in Hv as [Hc Hv].
    destruct (symbol_column_lookup c Hc) as [mask [Hl Hm]].
    cbn [fill_masks]. rewrite Hl.
    destruct k as [|k].
    + simpl repeat. rewrite app_nil_r.
      replace (nth_error pre (List.length pre)) with (@None (list bool)).
      * reflexivity.
      * symmetry. apply nth_error_None. lia.
    + change (repeat (repeat false 4) (S k))
        with (repeat false 4 :: repeat (repeat false 4) k).
      rewrite nth_error_app_head, update_app_head, Hm.
      specialize (IH (pre ++ [symbol_column c]) k Hv).
      rewrite length_app in IH. cbn [List.length] in IH.
      rewrite Nat.add_1_r, <- app_assoc in IH. cbn [app] in IH. rewrite IH.
      change (List.length (c :: cs) <=? S k)%nat with (List.length cs <=? k)%nat.
      destruct (List.length cs <=? k)%nat; [ | reflexivity].
      rewrite <- app_assoc. reflexivity.
Qed.

(** The encoder either rejects the input or returns the columns of the
    symbols followed by zero columns up to the requested width. *)
Lemma sequence_to_array_closed sequence l arr :
  _sequence_to_array sequence l = Ok arr ->
  valid_sequence sequence = true /\
  exists pad, arr = map symbol_column (upper (chars sequence)) ++ repeat (repeat false 4) pad
              /\ Z.of_nat (List.length arr) = l_or l (len (upper (chars sequence))).
Proof.
  unfold _sequence_to_array, valid_sequence.
  destruct (forallb _ (upper (chars sequence))) eqn:Hv; [ | discriminate].
  unfold np_zeros. destruct (l_or l _ <? 0) eqn:Hneg; [discriminate | ].
  cbn [bind]. intros H. split; [reflexivity | ].
  pose proof (fill_masks_closed (upper (chars sequence)) [] (Z.to_nat (l_or l (len (upper (chars sequence))))) Hv) as Hc.
  cbn [List.length app] in Hc. change (List.length NUCLEOTIDES_STRICT) with 4%nat in H.
  rewrite Hc in H.
  destruct (List.length (upper (chars sequence)) <=? _)%nat eqn:Hle; [ | discriminate].
  inversion H; subst arr. eexists. split; [reflexivity | ].
  apply Nat.leb_le in Hle. apply Z.ltb_ge in Hneg.
  rewrite length_app, length_map, repeat_length. lia.
Qed.

Lemma sequence_to_array_None sequence :
  valid_sequence sequence = true ->
  _sequence_to_array sequence None = Ok (map symbol_column (upper (chars sequence))).
Proof.
  unfold _sequence_to_array, valid_sequence. intros Hv. rewrite Hv.
  unfold np_zeros, l_or, len.
  destruct (Z.of_nat _ <? 0) eqn:Hneg; [apply Z.ltb_lt in Hneg; lia | ].
  cbn [bind]. change (List.length NUCLEOTIDES_STRICT) with 4%nat.
  pose proof (fill_masks_closed (upper (chars sequence)) [] (Z.to_nat (Z.of_nat (List.length (upper (chars sequence))))) Hv) as Hc.
  cbn [List.length app] in Hc. rewrite Hc. rewrite Nat2Z.id, Nat.leb_refl, Nat.sub_diag.
  cbn [repeat app]. now rewrite app_nil_r.
Qed.

(** C7 (as amended). For every sequence the encoder accepts, the column at
    each position of the sequence has at least one true entry, and exactly one
    when the (upper-cased) symbol there is a strict base; the columns that pad
    the array up to a larger requested width [l] are all false; without [l]
    the array has exactly one column per symbol. *)
Theorem sequence_to_array_columns sequence l arr :
  _sequence_to_array sequence l = Ok arr ->
  (forall i c, nth_error (upper (chars sequence)) i = Some c ->
     exists col, nth_error arr i = Some col /\ 1 <= bool_sum col /\
                 (char_in c NUCLEOTIDES_STRICT = true -> bool_sum col = 1)) /\
  (forall i, (List.length (chars sequence) <= i < List.length arr)%nat ->
             nth_error arr i = Some (repeat false 4)) /\
  (l = None -> List.length arr = List.length (chars sequence)).
Proof.
  intros H. apply sequence_to_array_closed in H as [Hv [pad [Harr Hlen]]].
  assert (Hul : List.length (upper (chars sequence)) = List.length (chars sequence))
    by apply length_map.
  split; [ | split].
  - intros i c Hi. exists (symbol_column c).
    assert (Hc : char_in c NUCLEOTIDES = true).
    { unfold valid_sequence in Hv. rewrite forallb_forall in Hv.
      apply Hv. eapply nth_error_In; eauto. }
    split; [ | split].
    + subst arr. rewrite nth_error_app1.
      * rewrite nth_error_map, Hi. reflexivity.
      * rewrite length_map. apply nth_error_Some. congruence.
    + now apply symbol_column_some_true.
    + apply symbol_column_strict.
  - intros i Hi. subst arr. rewrite length_app, length_map, repeat_length, Hul in Hi.
    rewrite nth_error_app2 by (rewrite length_map; lia).
    rewrite length_map, Hul. apply nth_error_repeat. lia.
  - intros ->. unfold l_or, len in Hlen. lia.
Qed.

Lemma sequence_to_array_columns_witness :
  exists col, nth_error [[true; false; false; false]; [false; true; false; false];
                         [true; true; true; true]; [false; false; false; false]] 2 = Some col
              /\ 1 <= bool_sum col
              /\ (char_in "N" NUCLEOTIDES_STRICT = true -> bool_sum col = 1).
Proof.
  exact (proj1 (sequence_to_array_columns "AcN" (Some 4) _ eq_refl) 2%nat "N"%char eq_refl).
Defined.

(** C7 as stated fails: a sequence encoded to a larger width gets padding
    columns without any true entry. *)
Lemma sequence_to_array_padding_column :
  ~ (forall sequence l arr, _sequence_to_array sequence l = Ok arr ->
       forall col, In col arr -> 1 <= bool_sum col).
Proof.
  intros H.
  specialize (H "A"%string (Some 2) _ eq_refl [false; false; false; false]).
  simpl in H. assert (Hc : 1 <= 0) by (apply H; auto). lia.
Qed.

(** ** Quality arrays: proofs *)

Lemma mapM_length {A B : Type} (f : A -> result B) xs : forall ys,
  mapM f xs = Ok ys -> List.length ys = List.length xs.
Proof.
  induction xs as [|x xs IH]; intros ys H; simpl in H.
  - now inversion H.
  - destruct (f x); [ | discriminate]. simpl in H.
    destruct (mapM f xs) as [zs|]; [ | discriminate]. simpl in H.
    inversion H; subst. simpl. now rewrite (IH zs).
Qed.

Lemma quality_values_length q values :
  quality_values q = Ok values -> len values = qlen q.
Proof.
  unfold len. destruct q as [s|a]; simpl.
  - unfold qualitystring_to_array.
    destruct (mapM _ (chars s)) as [a|] eqn:E; [ | discriminate].
    simpl. intros H; inversion H; subst. rewrite length_map.
    now rewrite (mapM_length _ _ _ E).
  - intros H; inversion H; subst. now rewrite length_map.
Qed.

Lemma map_uint8_id a : all_uint8 a -> map uint8 a = a.
Proof.
  induction 1 as [|v a Hv _ IH]; simpl; [reflexivity | ].
  rewrite IH. unfold uint8. now rewrite Z.mod_small.
Qed.

Lemma resize_pad n arr :
  len arr <= n ->
  resize n arr = Ok (arr ++ repeat 0 (Z.to_nat n - List.length arr)).
Proof.
  unfold len, resize. intros H.
  destruct (n <? 0) eqn:E; [apply Z.ltb_lt in E; lia | ].
  f_equal. apply firstn_all2.
  rewrite length_app, repeat_length. lia.
Qed.

Lemma qualitystring_to_array_closed cs :
  mapM (fun c => let v := Z.of_nat (nat_of_ascii c) - 33 in
                 if v <? 0 then Err OverflowError else Ok v) cs
  = if forallb (fun c => (33 <=? nat_of_ascii c)%nat) cs
    then Ok (map (fun c => Z.of_nat (nat_of_ascii c) - 33) cs)
    else Err OverflowError.
Proof.
  set (f := fun c => let v := Z.of_nat (nat_of_ascii c) - 33 in
                     if v <? 0 then Err OverflowError else Ok v).
  induction cs as [|c cs IH]; [reflexivity | ].
  cbn [mapM forallb map]. rewrite IH.
  destruct (Nat.leb_spec 33 (nat_of_ascii c)) as [H|H]; unfold f at 1; cbv zeta.
  - replace (Z.of_nat (nat_of_ascii c) - 33 <? 0) with false
      by (symmetry; apply Z.ltb_ge; lia).
    cbn [bind andb]. destruct (forallb _ cs); reflexivity.
  - replace (Z.of_nat (nat_of_ascii c) - 33 <? 0) with true
      by (symmetry; apply Z.ltb_lt; lia).
    reflexivity.
Qed.

Lemma nat_of_ascii_bound c : (nat_of_ascii c < 256)%nat.
Proof. destruct c as [[] [] [] [] [] [] [] []]; vm_compute; repeat constructor. Qed.

(** Decoding of a quality input, in closed form. *)
Lemma quality_values_stored q :
  quality_values q = match stored_qualities q with
                     | Some values => Ok values
                     | None => Err OverflowError
                     end.
Proof.
  destruct q as [s|a]; [ | reflexivity].
  unfold quality_values, stored_qualities, qualitystring_to_array.
  rewrite qualitystring_to_array_closed.
  destruct (forallb _ (chars s)) eqn:E; [ | reflexivity].
  cbn [bind]. f_equal. rewrite map_map. apply map_ext_in. intros c Hc.
  rewrite forallb_forall in E. specialize (E c Hc). apply Nat.leb_le in E.
  pose proof (nat_of_ascii_bound c). unfold uint8. apply Z.mod_small. lia.
Qed.

Lemma stored_qualities_length q values :
  stored_qualities q = Some values -> len values = qlen q.
Proof.
  intros H. apply quality_values_length.
  rewrite quality_values_stored, H. reflexivity.
Qed.

(** C6 (as amended). For a non-zero [l]: the encoding raises
    [SequenceError] when [l] is smaller than the length of the quality input;
    when [l] is at least that length, it returns the stored values of the
    input followed by zeros, [l] entries in all, or raises [OverflowError]
    when the input is a quality string with a character below the offset.
    For [l = 0] no length check is made and nothing is padded: the result is
    the stored values, or [OverflowError].  The stored values of an array of
    unsigned bytes are the array itself. *)
Theorem qualities_to_array_expected_len qualities l :
  (l <> 0 -> l < qlen qualities ->
   _qualities_to_array qualities (Some l) = Err SequenceError) /\
  (l <> 0 -> qlen qualities <= l ->
   match stored_qualities qualities with
   | Some values =>
       _qualities_to_array qualities (Some l)
         = Ok (values ++ repeat 0 (Z.to_nat l - List.length values)) /\
       len values = qlen qualities /\
       len (values ++ repeat 0 (Z.to_nat l - List.length values)) = l
   | None => _qualities_to_array qualities (Some l) = Err OverflowError
   end) /\
  _qualities_to_array qualities (Some 0)
    = match stored_qualities qualities with
      | Some values => Ok values
      | None => Err OverflowError
      end /\
  (forall a, qualities = QualArr a -> all_uint8 a -> stored_qualities qualities = Some a).
Proof.
  split; [ | split; [ | split]].
  - intros Hl H. unfold _qualities_to_array, truthy.
    apply Z.eqb_neq in Hl. rewrite Hl. cbn [negb andb].
    apply Z.ltb_lt in H. now rewrite H.
  - intros Hl H. unfold _qualities_to_array, truthy.
    apply Z.eqb_neq in Hl. rewrite Hl. cbn [negb andb].
    pose proof H as Hge. apply Z.ltb_ge in Hge. rewrite Hge.
    rewrite quality_values_stored.
    destruct (stored_qualities qualities) as [values|] eqn:Hv; [ | reflexivity].
    pose proof (stored_qualities_length _ _ Hv) as Hlen.
    cbn [bind]. split; [apply resize_pad; lia | ]. split; [exact Hlen | ].
    unfold len in *. rewrite length_app, repeat_length. lia.
  - unfold _qualities_to_array. cbn [truthy Z.eqb negb andb].
    rewrite quality_values_stored.
    destruct (stored_qualities qualities); reflexivity.
  - intros a -> Ha. cbn [stored_qualities]. f_equal.
    apply map_uint8_id in Ha. exact Ha.
Qed.

Lemma qualities_to_array_expected_len_witness :
  _qualities_to_array (QualArr [30; 40]) (Some 4) = Ok ([30; 40] ++ repeat 0 (4 - 2)).
Proof.
  pose proof (proj1 (proj2 (qualities_to_array_expected_len (QualArr [30; 40]) 4))) as H.
  apply H; [discriminate | discriminate].
Defined.

(** C6 as stated fails at [l = 0]: the length check is skipped and the
    input comes back as it is. *)
Lemma qualities_to_array_zero_len :
  ~ (forall qualities l, l < qlen qualities ->
       exists e, _qualities_to_array qualities (Some l) = Err e).
Proof.
  intros H. destruct (H (QualArr [5]) 0 eq_refl) as [e He]. discriminate He.
Qed.

(** ** Distance engine: proofs *)

Lemma map2_comm {A C : Type} (f : A -> A -> C) :
  (forall a b, f a b = f b a) -> forall xs ys, map2 f xs ys = map2 f ys xs.
Proof.
  intros Hf. induction xs as [|x xs IH]; intros [|y ys]; simpl; auto.
  now rewrite Hf, IH.
Qed.

Lemma mismatch_at_comm col1 col2 : mismatch_at col1 col2 = mismatch_at col2 col1.
Proof.
  unfold mismatch_at. f_equal. apply map2_comm.
  intros a b. now rewrite andb_comm.
Qed.

Lemma mismatch_mask_comm s1 s2 : _mismatch_mask s1 s2 = _mismatch_mask s2 s1.
Proof. unfold _mismatch_mask. apply map2_comm, mismatch_at_comm. Qed.

Lemma hamming_distance_arrays_comm s1 s2 :
  _hamming_distance s1 s2 = _hamming_distance s2 s1.
Proof. unfold _hamming_distance. now rewrite mismatch_mask_comm. Qed.

Lemma symbol_column_self_match c :
  char_in c NUCLEOTIDES = true -> mismatch_at (symbol_column c) (symbol_column c) = false.
Proof. revert c. apply nucleotide_cases. repeat constructor. Qed.

Lemma hamming_distance_arrays_self cs :
  forallb (fun c => char_in c NUCLEOTIDES) cs = true ->
  _hamming_distance (map symbol_column cs) (map symbol_column cs) = 0.
Proof.
  unfold _hamming_distance, _mismatch_mask.
  induction cs as [|c cs IH]; simpl; [reflexivity | ].
  intros H. apply andb_true_iff in H as [Hc Hv].
  rewrite (symbol_column_self_match c Hc), (IH Hv). reflexivity.
Qed.

Lemma mapM_ok {A B : Type} (f : A -> result B) (g : A -> B) xs :
  (forall x, In x xs -> f x = Ok (g x)) -> mapM f xs = Ok (map g xs).
Proof.
  induction xs as [|x xs IH]; intros H; simpl; [reflexivity | ].
  rewrite (H x (or_introl eq_refl)). cbn [bind].
  rewrite IH by (intros y Hy; apply H; now right). reflexivity.
Qed.

Lemma update_length {A : Type} i (x : A) xs :
  List.length (update i x xs) = List.length xs.
Proof.
  revert i. induction xs as [|y xs IH]; intros [|i]; simpl; auto.
Qed.

Lemma nth_update_eq {A : Type} i (x d : A) xs :
  (i < List.length xs)%nat -> nth i (update i x xs) d = x.
Proof.
  revert i. induction xs as [|y xs IH]; intros [|i] H; simpl in *; try lia; auto.
  apply IH. lia.
Qed.

Lemma nth_update_neq {A : Type} i j (x d : A) xs :
  i <> j -> nth j (update i x xs) d = nth j xs d.
Proof.
  revert i j. induction xs as [|y xs IH]; intros [|i] [|j] H; simpl; auto; try congruence.
Qed.

Lemma set2_square n i j d m : square n m -> square n (set2 i j d m).
Proof.
  intros [Hl Hr]. unfold set2. split.
  - now rewrite update_length.
  - intros a Ha. destruct (Nat.eq_dec i a) as [->|Hne].
    + rewrite nth_update_eq by lia. rewrite update_length. now apply Hr.
    + rewrite nth_update_neq by assumption. now apply Hr.
Qed.

Lemma get2_set2 n i j d m a b :
  square n m -> (i < n)%nat -> (j < n)%nat ->
  get2 (set2 i j d m) a b = if (a =? i)%nat && (b =? j)%nat then d else get2 m a b.
Proof.
  intros [Hl Hr] Hi Hj. unfold get2, set2.
  destruct (Nat.eqb_spec a i) as [->|Hai]; cbn [andb].
  - rewrite nth_update_eq by lia.
    destruct (Nat.eqb_spec b j) as [->|Hbj].
    + apply nth_update_eq. rewrite Hr; lia.
    + apply nth_update_neq. congruence.
  - rewrite nth_update_neq by congruence. reflexivity.
Qed.

Lemma fold_left_invariant {A B : Type} (P : A -> Prop) (f : A -> B -> A) xs :
  (forall x acc, In x xs -> P acc -> P (f acc x)) ->
  forall acc, P acc -> P (fold_left f xs acc).
Proof.
  induction xs as [|x xs IH]; intros Hf acc Hacc; simpl; [assumption | ].
  apply IH.
  - intros y acc' Hy. apply Hf. now right.
  - apply Hf; [now left | assumption].
Qed.

Lemma pairwise_inner_invariant sequences i j m :
  let n := List.length sequences in
  (i < n)%nat -> (j < n)%nat ->
  (i = j -> _hamming_distance (nth i sequences []) (nth i sequences []) = 0) ->
  symmetric_zero_diag n m -> symmetric_zero_diag n (pairwise_inner sequences i m j).
Proof.
  intros n Hi Hj Hself [Hsq [Hsym Hdiag]]. unfold pairwise_inner.
  set (d := _hamming_distance _ _).
  assert (Hsq1 : square n (set2 i j d m)) by now apply set2_square.
  split; [now apply set2_square | split].
  - intros a b Ha Hb.
    rewrite !(get2_set2 n j i) by assumption.
    rewrite !(get2_set2 n i j) by assumption.
    destruct (Nat.eqb_spec a j), (Nat.eqb_spec b i), (Nat.eqb_spec b j),
             (Nat.eqb_spec a i); cbn [andb]; subst; auto; try reflexivity.
  - intros a Ha.
    rewrite (get2_set2 n j i), (get2_set2 n i j) by assumption.
    destruct (Nat.eqb_spec a j), (Nat.eqb_spec a i); cbn [andb]; subst; auto.
    all: unfold d; apply Hself; reflexivity.
Qed.

Lemma zeros_symmetric n : symmetric_zero_diag n (repeat (repeat 0 n) n).
Proof.
  assert (Hrow : forall i, (i < n)%nat -> nth i (repeat (repeat 0 n) n) [] = repeat 0 n).
  { intros i Hi. apply nth_repeat_lt. assumption. }
  assert (Hget : forall a b, (a < n)%nat -> get2 (repeat (repeat 0 n) n) a b = 0).
  { intros a b Ha. unfold get2. rewrite Hrow by assumption.
    destruct (Nat.lt_ge_cases b n).
    - now apply nth_repeat_lt.
    - apply nth_overflow. now rewrite repeat_length. }
  split; [split | split].
  - apply repeat_length.
  - intros i Hi. rewrite Hrow by assumption. apply repeat_length.
  - intros a b Ha Hb. now rewrite !Hget.
  - intros a Ha. now apply Hget.
Qed.

Lemma pairwise_arrays_symmetric sequences :
  (forall i, (i < List.length sequences)%nat ->
             _hamming_distance (nth i sequences []) (nth i sequences []) = 0) ->
  symmetric_zero_diag (List.length sequences) (_pairwise_hamming_distances sequences).
Proof.
  intros Hself. unfold _pairwise_hamming_distances.
  apply fold_left_invariant; [ | apply zeros_symmetric].
  intros i m Hi Hm. apply in_seq in Hi.
  apply fold_left_invariant; [ | assumption].
  intros j m' Hj Hm'. apply in_seq in Hj.
  unfold matrix in *.
  apply pairwise_inner_invariant; try assumption; try lia.
  intros _. apply Hself. lia.
Qed.

Lemma valid_upper_forallb s :
  valid_sequence s = true ->
  forallb (fun c => char_in c NUCLEOTIDES) (upper (chars s)) = true.
Proof. exact (fun H => H). Qed.

(** C8. For every valid sequence [s], [hamming_distance s s] is 0; for valid
    sequences of equal length the distance does not depend on the order of the
    arguments; and for a list of valid sequences of equal length
    [pairwise_hamming_distances] returns a square matrix that is symmetric
    and has a zero diagonal. *)
Theorem hamming_distance_properties :
  (forall s, valid_sequence s = true -> hamming_distance s s = Ok 0) /\
  (forall s1 s2, valid_sequence s1 = true -> valid_sequence s2 = true ->
     len (chars s1) = len (chars s2) ->
     exists d, hamming_distance s1 s2 = Ok d /\ hamming_distance s2 s1 = Ok d) /\
  (forall sequences,
     (forall s, In s sequences -> valid_sequence s = true) ->
     (forall s, In s sequences -> len (chars s) = first_len sequences) ->
     exists m, pairwise_hamming_distances sequences = Ok m /\
               square (List.length sequences) m /\
               (forall i j, (i < List.length sequences)%nat -> (j < List.length sequences)%nat ->
                            get2 m i j = get2 m j i) /\
               (forall i, (i < List.length sequences)%nat -> get2 m i i = 0)).
Proof.
  split; [ | split].
  - intros s Hv. unfold hamming_distance.
    rewrite Z.eqb_refl. cbn [negb].
    rewrite (sequence_to_array_None s Hv). cbn [bind].
    now rewrite hamming_distance_arrays_self.
  - intros s1 s2 H1 H2 Hlen. unfold hamming_distance.
    rewrite Hlen, Z.eqb_refl. cbn [negb].
    rewrite (sequence_to_array_None s1 H1), (sequence_to_array_None s2 H2). cbn [bind].
    eexists. split; [reflexivity | ]. now rewrite hamming_distance_arrays_comm.
  - intros sequences Hv Hlen. unfold pairwise_hamming_distances.
    replace (existsb _ sequences) with false.
    + set (g := fun s => map symbol_column (upper (chars s))).
      rewrite (mapM_ok _ g).
      * cbn [bind]. eexists. split; [reflexivity | ].
        pose proof (pairwise_arrays_symmetric (map g sequences)) as H.
        rewrite length_map in H. apply H.
        intros i Hi.
        rewrite (nth_indep _ [] (g EmptyString)) by (rewrite length_map; exact Hi).
        rewrite map_nth. unfold g. apply hamming_distance_arrays_self.
        apply valid_upper_forallb, Hv, nth_In, Hi.
      * intros s Hs. apply sequence_to_array_None, Hv, Hs.
    + symmetry. apply not_true_is_false. intros H.
      apply existsb_exists in H as [s [Hs Hne]].
      rewrite (Hlen s Hs), Z.eqb_refl in Hne. discriminate.
Qed.

Lemma hamming_distance_properties_witness :
  hamming_distance "ANGT" "ANGT" = Ok 0 /\
  (exists d, hamming_distance "ACGT" "ANTT" = Ok d /\ hamming_distance "ANTT" "ACGT" = Ok d) /\
  (exists m, pairwise_hamming_distances ["ACGT"; "ANTT"; "TTTT"]%string = Ok m /\
             get2 m 0 2 = get2 m 2 0 /\ get2 m 1 1 = 0).
Proof.
  destruct hamming_distance_properties as [Hself [Hsym Hpair]].
  split; [ | split].
  - apply Hself. reflexivity.
  - apply Hsym; reflexivity.
  - destruct (Hpair ["ACGT"; "ANTT"; "TTTT"]%string) as [m [Hm [_ [Hs Hd]]]].
    + intros s [<-|[<-|[<-|[]]]]; reflexivity.
    + intros s [<-|[<-|[<-|[]]]]; reflexivity.
    + exists m. split; [exact Hm | split].
      * apply Hs; simpl; lia.
      * apply Hd; simpl; lia.
Defined.

(** ** Consensus caller: proofs *)

Lemma sequence_to_array_padded sequence l :
  valid_sequence sequence = true ->
  len (chars sequence) <= l_or l (len (chars sequence)) ->
  _sequence_to_array sequence l =
  Ok (map symbol_column (upper (chars sequence)) ++
      repeat (repeat false 4)
             (Z.to_nat (l_or l (len (chars sequence))) - List.length (chars sequence))).
Proof.
  unfold _sequence_to_array, valid_sequence. intros Hv Hle. rewrite Hv.
  assert (Hul : len (upper (chars sequence)) = len (chars sequence))
    by (unfold len, upper; now rewrite length_map).
  rewrite Hul. unfold np_zeros.
  destruct (l_or l _ <? 0) eqn:Hneg; [apply Z.ltb_lt in Hneg; unfold len in *; exfalso; lia | ].
  cbn [bind]. change (List.length NUCLEOTIDES_STRICT) with 4%nat.
  pose proof (fill_masks_closed (upper (chars sequence)) []
                (Z.to_nat (l_or l (len (chars sequence)))) Hv) as Hc.
  cbn [List.length app] in Hc. rewrite Hc.
  unfold upper at 1 3. rewrite length_map.
  replace (List.length (chars sequence) <=? _)%nat with true; [reflexivity | ].
  symmetry. apply Nat.leb_le. unfold len in *. lia.
Qed.

Lemma select_length_le {A : Type} mask (xs : list A) :
  (List.length (select mask xs) <= List.length xs)%nat.
Proof.
  revert xs. induction mask as [|m mask IH]; intros [|x xs]; simpl; try lia.
  specialize (IH xs). destruct m; simpl; lia.
Qed.

Lemma select_length_same {A B : Type} mask (xs : list A) (ys : list B) :
  List.length xs = List.length ys ->
  List.length (select mask xs) = List.length (select mask ys).
Proof.
  revert xs ys. induction mask as [|m mask IH]; intros [|x xs] [|y ys] H;
    simpl in *; try discriminate; auto.
  destruct m; simpl; auto.
Qed.

Lemma select_some {A : Type} mask (xs : list A) :
  List.length mask = List.length xs -> existsb (fun b => b) mask = true ->
  select mask xs <> [].
Proof.
  revert xs. induction mask as [|m mask IH]; intros [|x xs] Hl He;
    simpl in *; try discriminate.
  destruct m; [discriminate | ]. apply IH; [lia | assumption].
Qed.

Lemma select_negb_shorter {A : Type} mask (xs : list A) :
  List.length mask = List.length xs -> existsb (fun b => b) mask = true ->
  (List.length (select (map negb mask) xs) < List.length xs)%nat.
Proof.
  revert xs. induction mask as [|m mask IH]; intros [|x xs] Hl He;
    simpl in *; try discriminate.
  destruct m; simpl.
  - pose proof (select_length_le (map negb mask) xs). lia.
  - specialize (IH xs ltac:(lia) He). lia.
Qed.

Lemma select_negb_some {A : Type} mask (xs : list A) :
  List.length mask = List.length xs -> forallb (fun b => b) mask = false ->
  select (map negb mask) xs <> [].
Proof.
  revert xs. induction mask as [|m mask IH]; intros [|x xs] Hl He;
    simpl in *; try discriminate.
  destruct m; simpl; [ | discriminate]. apply IH; [lia | assumption].
Qed.

Lemma select_split {A : Type} mask (xs : list A) x :
  List.length mask = List.length xs ->
  In x xs -> In x (select mask xs) \/ In x (select (map negb mask) xs).
Proof.
  revert xs. induction mask as [|m mask IH]; intros [|y xs] Hl Hin;
    simpl in *; try discriminate; try contradiction.
  destruct Hin as [->|Hin].
  - destruct m; simpl; auto.
  - destruct (IH xs ltac:(lia) Hin); destruct m; simpl; auto.
Qed.

Lemma select_In {A : Type} mask (xs : list A) x :
  In x (select mask xs) -> In x xs.
Proof.
  revert xs. induction mask as [|m mask IH]; intros [|y xs] Hin;
    simpl in *; try contradiction.
  destruct m; simpl in Hin; [destruct Hin; auto | auto].
Qed.

Lemma zmin_spec xs m :
  zmin xs = Ok m -> In m xs /\ forall x, In x xs -> m <= x.
Proof.
  destruct xs as [|x xs]; simpl; [discriminate | ].
  intros H; inversion H; subst; clear H.
  revert x. induction xs as [|y xs IH]; intros x; simpl.
  - split; [auto | intros z [->|[]]; lia].
  - destruct (IH (Z.min x y)) as [Hin Hle].
    remember (fold_left Z.min xs (Z.min x y)) as r eqn:Hr. clear Hr. split.
    + destruct Hin as [Hin|Hin]; [ | right; right; exact Hin].
      destruct (Z.min_spec x y) as [[_ E]|[_ E]]; rewrite E in Hin;
        [left | right; left]; exact Hin.
    + intros z [Hz|[Hz|Hz]].
      * specialize (Hle (Z.min x y) (or_introl eq_refl)). lia.
      * specialize (Hle (Z.min x y) (or_introl eq_refl)). lia.
      * apply Hle. now right.
Qed.

Lemma py_max_ge thresh m : (inject_Z m <= py_max thresh m)%Q.
Proof.
  unfold py_max. destruct (Qlt_le_dec thresh (inject_Z m)) as [H|H].
  - apply Qle_refl.
  - exact H.
Qed.

(** The member with the least mismatch cost passes the effective
    threshold. *)
Lemma best_member_assigned thresh probs m :
  zmin probs = Ok m ->
  existsb (fun b => b) (map (fun p => Qle_bool (inject_Z p) (py_max thresh m)) probs) = true.
Proof.
  intros H. apply zmin_spec in H as [Hin _].
  apply existsb_exists. exists true. split; [ | reflexivity].
  apply in_map_iff. exists m. split; [ | assumption].
  apply Qle_bool_iff, py_max_ge.
Qed.

Lemma positional_probs_ok sequences qualities :
  sequences <> [] -> exists pp, _calculate_positional_probs sequences qualities = Ok pp.
Proof.
  destruct sequences as [|s0 rest]; [congruence | ]. intros _.
  unfold _calculate_positional_probs. eexists. reflexivity.
Qed.

(** On a non-empty pool one round of [_call_consensus] returns, and assigns
    at least one member. *)
Lemma call_consensus_assigns seqs quals thresh :
  seqs <> [] -> List.length quals = List.length seqs ->
  exists consensus assigned,
    _call_consensus seqs quals thresh = Ok (consensus, assigned) /\
    List.length assigned = List.length seqs /\
    existsb (fun b => b) assigned = true.
Proof.
  intros Hne Hlen. destruct seqs as [|s0 [|s1 rest]]; [congruence | | ].
  - simpl. eexists _, _. repeat split.
  - set (seqs := s0 :: s1 :: rest) in *.
    unfold _call_consensus. fold seqs.
    destruct (positional_probs_ok seqs quals Hne) as [pp Hpp].
    change (match seqs with
            | [s] => Ok (_most_likely_sequence (as_int s), [true])
            | _ => ?k end) with k.
    rewrite Hpp. cbn [bind].
    set (probs := map _ (combine seqs quals)).
    assert (Hpl : List.length probs = List.length seqs).
    { unfold probs. rewrite length_map, length_combine. lia. }
    destruct (zmin probs) as [m|e] eqn:Hm.
    2:{ destruct probs; [simpl in Hpl; discriminate | discriminate]. }
    cbn [bind].
    set (assigned := map _ probs).
    assert (Hal : List.length assigned = List.length seqs).
    { unfold assigned. now rewrite length_map. }
    assert (Hex : existsb (fun b => b) assigned = true)
      by (apply best_member_assigned; exact Hm).
    destruct (positional_probs_ok (select assigned seqs) (select assigned quals)) as [pp2 Hpp2].
    { apply select_some; assumption. }
    rewrite Hpp2. cbn [bind]. eexists _, _. repeat split; assumption.
Qed.

Lemma assign_length (label : Z) idxs : forall a,
  List.length (fold_left (fun a i => update i label a) idxs a) = List.length a.
Proof.
  induction idxs as [|i idxs IH]; intros a; simpl; [reflexivity | ].
  now rewrite IH, update_length.
Qed.

Lemma assign_nth (label : Z) idxs : forall a j,
  (j < List.length a)%nat ->
  (In j idxs /\ nth j (fold_left (fun a i => update i label a) idxs a) (-1) = label) \/
  (~ In j idxs /\ nth j (fold_left (fun a i => update i label a) idxs a) (-1) = nth j a (-1)).
Proof.
  induction idxs as [|i idxs IH]; intros a j Hj; simpl.
  - right. split; [tauto | reflexivity].
  - destruct (IH (update i label a) j) as [[Hin E]|[Hnin E]].
    + now rewrite update_length.
    + left. split; [now right | exact E].
    + destruct (Nat.eq_dec i j) as [->|Hne].
      * left. split; [now left | ]. rewrite E. now apply nth_update_eq.
      * right. split; [tauto | ]. rewrite E. now apply nth_update_neq.
Qed.

Lemma index_of_lt consensus consensuses :
  str_in consensus consensuses = true ->
  (index_of consensus consensuses < List.length consensuses)%nat.
Proof.
  unfold str_in. induction consensuses as [|c rest IH]; simpl; [discriminate | ].
  rewrite String.eqb_sym. destruct (String.eqb c consensus); simpl; intros H; [lia | ].
  specialize (IH H). lia.
Qed.

Lemma select_negb_all {A : Type} mask (xs : list A) :
  forallb (fun b => b) mask = true -> select (map negb mask) xs = [].
Proof.
  revert xs. induction mask as [|m mask IH]; intros [|x xs] H; simpl in *; auto.
  destruct m; simpl in *; [auto | discriminate].
Qed.

(** The effect of labelling the assigned members on the invariant "every
    read is labelled with a cluster id or still in the pool". *)
Lemma labelling_step (N label K K2 : nat) (a : list Z) (it : list nat) assigned :
  List.length a = N -> List.length assigned = List.length it ->
  (label < K2)%nat -> (K <= K2)%nat ->
  (forall j, (j < N)%nat -> 0 <= nth j a (-1) < Z.of_nat K \/ In j it) ->
  let a2 := fold_left (fun a i => update i (Z.of_nat label) a) (select assigned it) a in
  List.length a2 = N /\
  forall j, (j < N)%nat ->
            0 <= nth j a2 (-1) < Z.of_nat K2 \/ In j (select (map negb assigned) it).
Proof.
  intros Ha Hal Hlabel HK Hinv a2. split.
  - unfold a2. now rewrite assign_length.
  - intros j Hj. unfold a2.
    destruct (assign_nth (Z.of_nat label) (select assigned it) a j) as [[_ E]|[Hnin E]];
      [lia | left; rewrite E; lia | ].
    rewrite E. destruct (Hinv j Hj) as [Hv|Hin]; [left; lia | ].
    destruct (select_split assigned it j Hal Hin) as [H1|H2]; [contradiction | now right].
Qed.

(** The loop returns within one round per pool member, with every read
    labelled by a cluster id. *)
Lemma consensus_loop_returns (N : nat) thresh : forall fuel cs a it seqs quals,
  (List.length it <= fuel)%nat -> it <> [] ->
  List.length seqs = List.length it -> List.length quals = List.length it ->
  List.length a = N ->
  (forall j, (j < N)%nat -> 0 <= nth j a (-1) < len cs \/ In j it) ->
  exists cs' a' r,
    consensus_loop fuel thresh cs a it seqs quals = Some (Ok (cs', a', r)) /\
    (1 <= r <= List.length it)%nat /\ List.length a' = N /\
    (forall j, (j < N)%nat -> 0 <= nth j a' (-1) < len cs').
Proof.
  induction fuel as [|fuel IH]; intros cs a it seqs quals Hfuel Hne Hs Hq Ha Hinv.
  - destruct it; [congruence | simpl in Hfuel; lia].
  - destruct (call_consensus_assigns seqs quals thresh) as [c [assigned [Hc [Hlen Hex]]]].
    { intros ->. destruct it; [congruence | discriminate]. }
    { congruence. }
    cbn [consensus_loop]. rewrite Hc.
    set (lc := if str_in c cs then (index_of c cs, cs) else (List.length cs, cs ++ [c])).
    assert (Hlc : (fst lc < List.length (snd lc))%nat /\
                  (List.length cs <= List.length (snd lc))%nat).
    { unfold lc. destruct (str_in c cs) eqn:Hin; simpl.
      - split; [now apply index_of_lt | lia].
      - rewrite length_app. simpl. lia. }
    destruct lc as [label cs2]. simpl in Hlc. destruct Hlc as [Hlabel HK].
    destruct (labelling_step N label (List.length cs) (List.length cs2) a it assigned)
      as [Ha2 Hinv2]; try assumption; [congruence | ].
    set (a2 := fold_left _ (select assigned it) a) in *.
    destruct (forallb (fun b => b) assigned) eqn:Hall.
    + exists cs2, a2, 1%nat. split; [reflexivity | ].
      split; [destruct it; [congruence | simpl; lia] | ].
      split; [assumption | ].
      intros j Hj. destruct (Hinv2 j Hj) as [H|H]; [exact H | ].
      rewrite select_negb_all in H by assumption. contradiction.
    + destruct (IH cs2 a2 (select (map negb assigned) it)
                   (select (map negb assigned) seqs) (select (map negb assigned) quals))
        as [cs' [a' [r [Hr [Hrb [Ha' Hv']]]]]].
      * pose proof (select_negb_shorter assigned it ltac:(congruence) Hex). lia.
      * apply select_negb_some; [congruence | assumption].
      * now apply select_length_same.
      * now apply select_length_same.
      * assumption.
      * exact Hinv2.
      * rewrite Hr. exists cs', a', (S r). split; [reflexivity | ].
        pose proof (select_length_le (map negb assigned) it).
        pose proof (select_negb_shorter assigned it ltac:(congruence) Hex).
        split; [lia | ]. split; [assumption | exact Hv'].
Qed.

Lemma consensus_loop_fuel_mono thresh : forall fuel fuel' cs a it seqs quals r,
  (fuel <= fuel')%nat ->
  consensus_loop fuel thresh cs a it seqs quals = Some r ->
  consensus_loop fuel' thresh cs a it seqs quals = Some r.
Proof.
  induction fuel as [|fuel IH]; intros fuel' cs a it seqs quals r Hle H;
    [discriminate | ].
  destruct fuel' as [|fuel']; [lia | ].
  cbn [consensus_loop] in *.
  destruct (_call_consensus seqs quals thresh) as [[c assigned]|e]; [ | exact H].
  destruct (if str_in c cs then _ else _) as [label cs2].
  destruct (forallb _ assigned); [exact H | ].
  destruct (consensus_loop fuel _ _ _ _ _ _) as [r0|] eqn:E; [ | discriminate].
  rewrite (IH fuel' _ _ _ _ _ r0 ltac:(lia) E). exact H.
Qed.

Lemma mapM_exists {A B : Type} (f : A -> result B) xs :
  (forall x, In x xs -> exists y, f x = Ok y) -> exists ys, mapM f xs = Ok ys.
Proof.
  induction xs as [|x xs IH]; intros H; simpl; [eexists; reflexivity | ].
  destruct (H x (or_introl eq_refl)) as [y Hy]. rewrite Hy. cbn [bind].
  destruct IH as [ys Hys]; [intros z Hz; apply H; now right | ].
  rewrite Hys. cbn [bind]. eexists; reflexivity.
Qed.

Lemma max_len_spec sequences :
  sequences <> [] ->
  exists l, max_len sequences = Ok l /\ 0 <= l /\
            forall s, In s sequences -> len (chars s) <= l.
Proof.
  destruct sequences as [|s0 rest]; [congruence | intros _].
  simpl. eexists. split; [reflexivity | ].
  assert (H : forall rest m, m <= fold_left (fun m s' => Z.max m (len (chars s'))) rest m /\
                         forall s, In s rest ->
                           len (chars s) <= fold_left (fun m s' => Z.max m (len (chars s'))) rest m).
  { clear. induction rest as [|s rest IH]; intros m; simpl.
    - split; [lia | tauto].
    - destruct (IH (Z.max m (len (chars s)))) as [H1 H2]. split; [lia | ].
      intros s' [->|Hs']; [lia | auto]. }
  destruct (H rest (len (chars s0))) as [H1 H2]. split.
  - unfold len in *. lia.
  - intros s [->|Hs]; auto.
Qed.

Lemma list_sum_map_add {A : Type} (f g : A -> nat) xs :
  list_sum (map (fun i => f i + g i)%nat xs) = (list_sum (map f xs) + list_sum (map g xs))%nat.
Proof. induction xs as [|x xs IH]; simpl; [reflexivity | rewrite IH; lia]. Qed.

Lemma indicator_sum (x : Z) : forall n s,
  list_sum (map (fun i => if Z.eq_dec x (Z.of_nat i) then 1 else 0)%nat (seq s n)) =
  if (Z.of_nat s <=? x) && (x <? Z.of_nat (s + n)) then 1%nat else 0%nat.
Proof.
  induction n as [|n IH]; intros s; simpl.
  - destruct (Z.leb_spec (Z.of_nat s) x), (Z.ltb_spec x (Z.of_nat (s + 0))); simpl; auto; lia.
  - rewrite IH.
    destruct (Z.eq_dec x (Z.of_nat s));
      destruct (Z.leb_spec (Z.of_nat (S s)) x), (Z.ltb_spec x (Z.of_nat (S s + n))),
               (Z.leb_spec (Z.of_nat s) x), (Z.ltb_spec x (Z.of_nat (s + S n)));
      simpl; auto; lia.
Qed.

Lemma cluster_sizes_sum (K : nat) : forall a,
  (forall x, In x a -> 0 <= x < Z.of_nat K) ->
  list_sum (map (cluster_size a) (seq 0 K)) = List.length a.
Proof.
  induction a as [|x a IH]; intros H.
  - unfold cluster_size. simpl. induction (seq 0 K); simpl; auto.
  - rewrite (map_ext (cluster_size (x :: a))
                     (fun i => (if Z.eq_dec x (Z.of_nat i) then 1 else 0) + cluster_size a i)%nat).
    + rewrite list_sum_map_add, indicator_sum, IH by (intros y Hy; apply H; now right).
      specialize (H x (or_introl eq_refl)).
      destruct (Z.leb_spec (Z.of_nat 0) x), (Z.ltb_spec x (Z.of_nat (0 + K)));
        simpl; auto; lia.
    + intros i. unfold cluster_size. simpl.
      destruct (Z.eq_dec x (Z.of_nat i)); reflexivity.
Qed.

Lemma Forall2_pick_l {A B : Type} (R : A -> B -> Prop) xs ys x :
  Forall2 R xs ys -> In x xs -> exists y, In y ys /\ R x y.
Proof.
  induction 1 as [|a b xs ys Hab _ IH]; intros Hin; [contradiction | ].
  destruct Hin as [->|Hin].
  - exists b. split; [now left | assumption].
  - destruct (IH Hin) as [y [Hy HR]]. exists y. split; [now right | assumption].
Qed.

Lemma Forall2_pick_r {A B : Type} (R : A -> B -> Prop) xs ys y :
  Forall2 R xs ys -> In y ys -> exists x, In x xs /\ R x y.
Proof.
  induction 1 as [|a b xs ys Hab _ IH]; intros Hin; [contradiction | ].
  destruct Hin as [->|Hin].
  - exists a. split; [now left | assumption].
  - destruct (IH Hin) as [x [Hx HR]]. exists x. split; [now right | assumption].
Qed.

Lemma valid_input_lengths sequences qualities :
  Forall2 valid_read sequences qualities ->
  List.length sequences = List.length qualities /\
  existsb (fun '(seq, qual) => negb (len (chars seq) =? qlen qual))
          (combine sequences qualities) = false.
Proof.
  induction 1 as [|s q ss qs [_ [Hl _]] _ [IH1 IH2]]; simpl; [auto | ].
  rewrite Hl, Z.eqb_refl, IH2. simpl. auto.
Qed.

Lemma qualities_to_array_ok q l :
  qlen q <= l -> (exists values, quality_values q = Ok values) ->
  exists arr, _qualities_to_array q (Some l) = Ok arr.
Proof.
  intros Hl [values Hv]. unfold _qualities_to_array.
  replace (l <? qlen q) with false by (symmetry; apply Z.ltb_ge; lia).
  rewrite andb_false_r, Hv. cbn [bind].
  destruct (l =? 0); [eexists; reflexivity | ].
  unfold resize. destruct (l <? 0) eqn:E.
  - apply Z.ltb_lt in E. destruct q; unfold qlen, len in Hl; lia.
  - eexists; reflexivity.
Qed.

(** The run of the consensus caller on a valid input. *)
Lemma call_consensus_rounds_returns sequences qualities q_threshold proportion :
  valid_consensus_input sequences qualities ->
  exists cs a r,
    call_consensus_rounds (List.length sequences) sequences qualities q_threshold proportion
      = Some (Ok (cs, a, r)) /\
    (1 <= r <= List.length sequences)%nat /\
    List.length a = List.length sequences /\
    (forall j, (j < List.length sequences)%nat -> 0 <= nth j a (-1) < len cs).
Proof.
  intros [Hne Hv]. unfold call_consensus_rounds.
  destruct (valid_input_lengths _ _ Hv) as [Hlen Hex].
  replace (len sequences =? len qualities) with true
    by (symmetry; apply Z.eqb_eq; unfold len; now rewrite Hlen).
  cbn [negb]. rewrite Hex.
  destruct (max_len_spec sequences Hne) as [l [Hl [Hl0 Hmax]]]. rewrite Hl.
  destruct (mapM_exists (fun sequence => _sequence_to_array sequence (Some l)) sequences)
    as [sarr Hs].
  { intros s Hs. eexists. apply sequence_to_array_padded.
    - destruct (Forall2_pick_l _ _ _ s Hv Hs) as [q [_ [Hvs _]]]. exact Hvs.
    - specialize (Hmax s Hs). unfold l_or. destruct (l =? 0); lia. }
  rewrite Hs.
  destruct (mapM_exists (fun quals => _qualities_to_array quals (Some l)) qualities)
    as [qarr Hq].
  { intros q Hq. destruct (Forall2_pick_r _ _ _ q Hv Hq) as [s [Hin [_ [Hlq Hdec]]]].
    apply qualities_to_array_ok; [ | exact Hdec].
    rewrite <- Hlq. now apply Hmax. }
  rewrite Hq.
  apply mapM_length in Hs. apply mapM_length in Hq.
  pose proof (consensus_loop_returns (List.length sequences)
                (inject_Z q_threshold * (inject_Z l * proportion))%Q
                (List.length sequences) [] (repeat (-1) (List.length sequences))
                (seq 0 (List.length sequences)) sarr qarr) as H.
  rewrite length_seq, repeat_length in H.
  destruct H as [cs [a [r [Hr [Hrb [Ha Hva]]]]]]; try congruence; try lia.
  - destruct sequences; [congruence | discriminate].
  - intros j Hj. right. apply in_seq. lia.
  - exists cs, a, r. split; [exact Hr | ]. split; [exact Hrb | ].
    split; [exact Ha | exact Hva].
Qed.

Lemma call_consensus_rounds_fuel_mono fuel fuel' sequences qualities q_threshold proportion r :
  (fuel <= fuel')%nat ->
  call_consensus_rounds fuel sequences qualities q_threshold proportion = Some r ->
  call_consensus_rounds fuel' sequences qualities q_threshold proportion = Some r.
Proof.
  intros Hle. unfold call_consensus_rounds.
  destruct (negb _); [auto | ].
  destruct (existsb _ _); [auto | ].
  destruct (max_len sequences) as [l|]; [ | auto].
  destruct (mapM _ sequences); [ | auto].
  destruct (mapM _ qualities); [ | auto].
  now apply consensus_loop_fuel_mono.
Qed.

(** C2. For every valid input of N sequences with matching qualities,
    [call_consensus_with_qualities] returns an assignment vector of length N
    whose entries are all ids of returned clusters (none is left at -1), and
    the sizes of the clusters add up to N. *)
Theorem consensus_assignment_complete sequences qualities q_threshold proportion :
  valid_consensus_input sequences qualities ->
  exists consensuses assignments,
    call_consensus_with_qualities sequences qualities q_threshold proportion
      = Some (Ok (consensuses, assignments)) /\
    List.length assignments = List.length sequences /\
    (forall x, In x assignments -> 0 <= x < len consensuses) /\
    list_sum (map (cluster_size assignments) (seq 0 (List.length consensuses)))
      = List.length sequences.
Proof.
  intros Hv.
  destruct (call_consensus_rounds_returns sequences qualities q_threshold proportion Hv)
    as [cs [a [r [Hr [_ [Ha Hva]]]]]].
  exists cs, a. unfold call_consensus_with_qualities. rewrite Hr.
  assert (Hall : forall x, In x a -> 0 <= x < len cs).
  { intros x Hx. destruct (In_nth a x (-1) Hx) as [j [Hj <-]]. apply Hva. lia. }
  split; [reflexivity | ]. split; [exact Ha | ]. split; [exact Hall | ].
  rewrite <- Ha. apply cluster_sizes_sum. exact Hall.
Qed.

Lemma consensus_assignment_complete_witness :
  exists consensuses assignments,
    call_consensus_with_qualities
      ["AAAA"; "AT"; "CCCC"; "CCCG"; "GG"]%string
      [QualArr [40; 40; 40; 40]; QualStr "II"; QualArr [40; 40; 40; 40];
       QualArr [40; 40; 40; 40]; QualArr [40; 40]] 30 (5 # 100)
      = Some (Ok (consensuses, assignments)) /\
    List.length assignments = 5%nat /\
    (forall x, In x assignments -> 0 <= x < len consensuses) /\
    list_sum (map (cluster_size assignments) (seq 0 (List.length consensuses))) = 5%nat.
Proof.
  apply consensus_assignment_complete.
  split; [discriminate | ].
  repeat constructor; eexists; reflexivity.
Defined.

(** C10. On the empty input the cardinality checks pass and the maximum
    over the empty collection of lengths raises: no empty result is
    returned. *)
Theorem consensus_empty_input_raises q_threshold proportion :
  call_consensus_with_qualities [] [] q_threshold proportion = Some (Err ValueError).
Proof. reflexivity. Qed.

Lemma most_likely_symbol_column c :
  char_in c NUCLEOTIDES = true ->
  nth (argmax (map Z.b2z (symbol_column c))) NUCLEOTIDES_STRICT "A"%char = first_base c.
Proof. revert c. apply nucleotide_cases. repeat constructor. Qed.

Lemma most_likely_encoded cs :
  forallb (fun c => char_in c NUCLEOTIDES) cs = true ->
  _most_likely_sequence (as_int (map symbol_column cs))
  = string_of_list_ascii (map first_base cs).
Proof.
  unfold _most_likely_sequence, argmax0, as_int. intros Hv. f_equal.
  rewrite !map_map. apply map_ext_in. intros c Hc.
  apply most_likely_symbol_column.
  rewrite forallb_forall in Hv. now apply Hv.
Qed.

Lemma consensus_loop_single thresh s0 q0 :
  consensus_loop 1 thresh [] [-1] [0%nat] [s0] [q0]
  = Some (Ok ([_most_likely_sequence (as_int s0)], [0], 1%nat)).
Proof. reflexivity. Qed.

Lemma strict_call_strict s :
  Forall (fun c => In c NUCLEOTIDES_STRICT) (chars s) -> strict_call s = s.
Proof.
  intros H. unfold strict_call, upper, chars in *.
  rewrite map_map.
  rewrite (map_ext_in _ (fun c => c)).
  - rewrite map_id. apply string_of_list_ascii_of_string.
  - intros c Hc. rewrite Forall_forall in H. specialize (H c Hc). simpl in H.
    repeat (destruct H as [H | H]; [subst; reflexivity | ]). contradiction.
Qed.

(** C4 (as amended). For every single-element input (one accepted sequence
    with one matching quality input), [call_consensus_with_qualities] returns
    as the sole consensus the sequence upper-cased with every symbol replaced
    by the first strict base it stands for, so the sequence itself when it
    consists of the upper-case strict bases only, and the assignment vector
    [[0]]. *)
Theorem consensus_single_input s q q_threshold proportion :
  valid_read s q ->
  call_consensus_with_qualities [s] [q] q_threshold proportion
    = Some (Ok ([strict_call s], [0])) /\
  (Forall (fun c => In c NUCLEOTIDES_STRICT) (chars s) -> strict_call s = s).
Proof.
  intros [Hv [Hlen Hdec]]. split; [ | apply strict_call_strict].
  unfold call_consensus_with_qualities, call_consensus_rounds.
  change (len [s] =? len [q]) with true. cbn [negb combine existsb].
  rewrite Hlen, Z.eqb_refl. cbn [negb orb max_len fold_left mapM].
  assert (Hlor : l_or (Some (len (chars s))) (len (chars s)) = len (chars s))
    by (unfold l_or; destruct (_ =? 0); reflexivity).
  rewrite (sequence_to_array_padded s (Some (len (chars s))) Hv) by (rewrite Hlor; lia).
  rewrite Hlor. unfold len at 1. rewrite Nat2Z.id, Nat.sub_diag.
  cbn [repeat bind]. rewrite app_nil_r.
  destruct (qualities_to_array_ok q (len (chars s))) as [qarr Hq]; [lia | exact Hdec | ].
  rewrite Hq. cbn [bind List.length repeat seq].
  rewrite consensus_loop_single, most_likely_encoded by exact Hv.
  reflexivity.
Qed.

Lemma consensus_single_input_witness :
  call_consensus_with_qualities ["acgt"%string] [QualStr "IIII"] 30 (5 # 100)
    = Some (Ok ([strict_call "acgt"], [0])) /\
  (Forall (fun c => In c NUCLEOTIDES_STRICT) (chars "acgt") -> strict_call "acgt" = "acgt"%string).
Proof.
  apply consensus_single_input.
  split; [reflexivity | split; [reflexivity | eexists; reflexivity]].
Defined.

(** C4 as stated fails: the single sequence ["N"] comes back as ["A"]. *)
Lemma consensus_single_input_changed :
  ~ (forall s q q_threshold proportion, valid_read s q ->
       exists assignments,
         call_consensus_with_qualities [s] [q] q_threshold proportion
           = Some (Ok ([s], assignments))).
Proof.
  intros H.
  destruct (H "N"%string (QualArr [40]) 30 (5 # 100)) as [a Ha].
  - split; [reflexivity | split; [reflexivity | eexists; reflexivity]].
  - discriminate Ha.
Qed.

(** ** Whitelist corrector: proofs *)

(** [_mismatch_masks] lists the neighbours in ascending whitelist order, each
    with its own mismatch mask. *)
Lemma mismatch_masks_from_spec sequence d : forall whitelist i,
  let '(indices, masks) := mismatch_masks_from sequence whitelist d i in
  StronglySorted lt indices /\
  Forall (fun j => (i <= j)%nat) indices /\
  combine indices masks =
    map (fun j => (j, _mismatch_mask sequence (nth (j - i) whitelist []))) indices /\
  (forall j, In j indices <->
             (i <= j < i + List.length whitelist)%nat /\
             bool_sum (_mismatch_mask sequence (nth (j - i) whitelist [])) <= d).
Proof.
  induction whitelist as [|bc rest IH]; intros i; simpl.
  - repeat split; try constructor; try tauto. intros [H _]. lia.
  - specialize (IH (S i)).
    destruct (mismatch_masks_from sequence rest d (S i)) as [indices masks].
    destruct IH as [Hs [Hge [Hc Hin]]].
    assert (Hshift : forall j, (S i <= j)%nat ->
              nth (j - i) (bc :: rest) [] = nth (j - S i) rest []).
    { intros j Hj. replace (j - i)%nat with (S (j - S i)) by lia. reflexivity. }
    assert (Hc' : combine indices masks =
                  map (fun j => (j, _mismatch_mask sequence (nth (j - i) (bc :: rest) [])))
                      indices).
    { rewrite Hc. apply map_ext_in. intros j Hj.
      rewrite Forall_forall in Hge. now rewrite Hshift by (apply Hge, Hj). }
    assert (Hin' : forall j, (S i <= j)%nat ->
              (In j indices <->
               (i <= j < i + S (List.length rest))%nat /\
               bool_sum (_mismatch_mask sequence (nth (j - i) (bc :: rest) [])) <= d)).
    { intros j Hj. rewrite Hin, Hshift by assumption. split; intros [H1 H2]; split; auto; lia. }
    assert (Hnot : ~ In i indices).
    { intros Hi. rewrite Forall_forall in Hge. specialize (Hge i Hi). lia. }
    destruct (bool_sum (_mismatch_mask sequence bc) >? d) eqn:Hd.
    + split; [exact Hs | ]. split.
      * eapply Forall_impl; [ | exact Hge]. simpl. intros; lia.
      * split; [exact Hc' | ].
        intros j. destruct (Nat.eq_dec j i) as [->|Hne].
        -- split; [contradiction | ]. rewrite Nat.sub_diag. simpl.
           intros [_ H]. apply Z.gtb_lt in Hd. lia.
        -- destruct (Nat.lt_ge_cases i j) as [Hlt|Hge'].
           ++ apply Hin'. lia.
           ++ split; [ | lia]. intros Hj. rewrite Forall_forall in Hge.
              specialize (Hge j Hj). lia.
    + split.
      * constructor; [exact Hs | ]. eapply Forall_impl; [ | exact Hge]. simpl. intros; lia.
      * split.
        -- constructor; [lia | ]. eapply Forall_impl; [ | exact Hge]. simpl. intros; lia.
        -- split.
           ++ simpl. rewrite Nat.sub_diag. simpl. now rewrite Hc'.
           ++ intros j. simpl. destruct (Nat.eq_dec j i) as [->|Hne].
              ** rewrite Nat.sub_diag. simpl. split; [ | auto].
                 intros _. split; [lia | ].
                 destruct (Z.gtb_spec (bool_sum (_mismatch_mask sequence bc)) d);
                   [discriminate | lia].
              ** destruct (Nat.lt_ge_cases i j) as [Hlt|Hge'].
                 --- rewrite <- Hin' by lia. split; [intros [H|H]; [congruence | auto] | auto].
                 --- split; [ | lia]. intros [H|Hj]; [congruence | ].
                     rewrite Forall_forall in Hge. specialize (Hge j Hj). lia.
Qed.

Section CorrectLoop.

Variable log10_sum_pow10 : list Q -> Q.
Variable unchecked_read : nat -> Z.
Variable qualities : list Z.
Variable log10_proportions : list Q.

Lemma correct_to_whitelist_best indices masks :
  fst (_correct_to_whitelist log10_sum_pow10 unchecked_read qualities indices masks
                             log10_proportions)
  = fst (fst (fold_left (correct_step unchecked_read qualities log10_proportions)
                        (combine indices masks) (-1, None, []))).
Proof.
  unfold _correct_to_whitelist.
  destruct (fold_left _ _ _) as [[best mx] liks]. simpl.
  destruct mx; [destruct (0 <=? best) | ]; reflexivity.
Qed.

(** With all the masks reshaped into one row, as the last loop of
    [correct_sequences_to_whitelist] passes them, the loop sees the first
    neighbour only. *)
Lemma correct_to_whitelist_reshaped indices masks :
  fst (_correct_to_whitelist log10_sum_pow10 unchecked_read qualities indices
                             [List.concat masks] log10_proportions)
  = match indices with
    | [] => -1
    | i :: _ => Z.of_nat i
    end.
Proof.
  rewrite correct_to_whitelist_best. destruct indices as [|i [|i' rest]]; reflexivity.
Qed.

End CorrectLoop.

Lemma assoc_string_cons {V : Type} (k k' : string) (v : V) d :
  assoc String.eqb k ((k', v) :: d) = if String.eqb k k' then Some v else assoc String.eqb k d.
Proof. reflexivity. Qed.

Lemma insert_sorted_In x y xs : In y (insert_sorted x xs) <-> y = x \/ In y xs.
Proof.
  induction xs as [|z xs IH]; simpl.
  - intuition.
  - destruct (String.leb x z); simpl; [intuition | ].
    rewrite IH. intuition.
Qed.

Lemma sorted_keys_In sequences r : In r (sorted_keys sequences) <-> In r sequences.
Proof.
  unfold sorted_keys. rewrite <- (nodup_In string_dec sequences r).
  induction (nodup string_dec sequences) as [|x xs IH]; simpl; [tauto | ].
  rewrite insert_sorted_In, IH. intuition.
Qed.

(** The invariant of the first loop over the distinct reads [seen]: every
    one of them is cached, and [matches] sends exactly those with a single
    exact match to that whitelist entry. *)
Lemma phase1_loop sequences whitelist (f : string -> list nat * list (list bool)) :
  forall items st seen,
    (forall item, In item items -> snd item = f (fst item)) ->
    (forall r, In r seen -> assoc String.eqb r (mismatch_cache st) = Some (f r)) ->
    (forall r, assoc String.eqb r (matches st) =
               if in_dec string_dec r seen
               then match exact_matches (fst (f r)) (snd (f r)) with
                    | [m] => Some (nth m whitelist EmptyString)
                    | _ => None
                    end
               else None) ->
    let st' := fold_left (phase1_step sequences whitelist) items st in
    (forall r, In r (seen ++ map fst items) ->
               assoc String.eqb r (mismatch_cache st') = Some (f r)) /\
    (forall r, assoc String.eqb r (matches st') =
               if in_dec string_dec r (seen ++ map fst items)
               then match exact_matches (fst (f r)) (snd (f r)) with
                    | [m] => Some (nth m whitelist EmptyString)
                    | _ => None
                    end
               else None).
Proof.
  induction items as [|[u [indices masks]] items IH]; intros st seen Hf Hcache Hmatch.
  - simpl. rewrite app_nil_r. auto.
  - cbn [fold_left map fst].
    replace (seen ++ u :: map fst items) with ((seen ++ [u]) ++ map fst items)
      by (rewrite <- app_assoc; reflexivity).
    assert (Hu : f u = (indices, masks))
      by (symmetry; apply (Hf (u, (indices, masks))); now left).
    apply IH.
    + intros item Hi. apply Hf. now right.
    + intros r Hr.
      assert (Hc : mismatch_cache (phase1_step sequences whitelist st (u, (indices, masks)))
                   = (u, (indices, masks)) :: mismatch_cache st)
        by (unfold phase1_step; destruct indices; reflexivity).
      rewrite Hc, assoc_string_cons.
      destruct (String.eqb_spec r u) as [->|Hne]; [now rewrite Hu | ].
      apply Hcache. apply in_app_or in Hr as [Hr|[Hr|[]]]; [assumption | congruence].
    + intros r.
      assert (Hm : assoc String.eqb r
                     (matches (phase1_step sequences whitelist st (u, (indices, masks))))
                   = if String.eqb r u
                     then match exact_matches indices masks with
                          | [m] => Some (nth m whitelist EmptyString)
                          | _ => assoc String.eqb r (matches st)
                          end
                     else assoc String.eqb r (matches st)).
      { unfold phase1_step. destruct indices as [|i0 indices'].
        - simpl. unfold exact_matches. destruct masks; simpl; destruct (String.eqb r u); reflexivity.
        - cbn [matches]. destruct (exact_matches (i0 :: indices') masks) as [|m [|m' ms]];
            try (destruct (String.eqb r u); reflexivity).
          apply assoc_string_cons. }
      rewrite Hm, Hmatch. clear Hm.
      destruct (String.eqb_spec r u) as [E|Hne].
      * subst r. rewrite Hu. cbn [fst snd].
        destruct (in_dec string_dec u (seen ++ [u])) as [_|Hn];
          [ | exfalso; apply Hn, in_or_app; right; now left].
        destruct (exact_matches indices masks) as [|m [|m' ms]];
          destruct (in_dec string_dec u seen); reflexivity.
      * destruct (in_dec string_dec r seen) as [Hin|Hnin];
          destruct (in_dec string_dec r (seen ++ [u])) as [Hin'|Hnin']; try reflexivity.
        -- exfalso. apply Hnin', in_or_app. now left.
        -- exfalso. apply in_app_or in Hin' as [H|[H|[]]]; [contradiction | congruence].
Qed.

Lemma combine_map_graph {A B : Type} (g : A -> B) xs :
  (forall item, In item (combine xs (map g xs)) -> snd item = g (fst item)) /\
  map fst (combine xs (map g xs)) = xs.
Proof.
  induction xs as [|x xs [IH1 IH2]]; simpl; [split; [tauto | reflexivity] | ].
  split.
  - intros item [<-|H]; [reflexivity | now apply IH1].
  - now rewrite IH2.
Qed.

(** The first loop on reads and whitelist entries that the encoder accepts. *)
Lemma phase1_spec sequences whitelist d :
  (forall s, In s sequences -> valid_sequence s = true) ->
  (forall w, In w whitelist -> valid_sequence w = true) ->
  exists st,
    phase1 sequences whitelist d = Ok st /\
    (forall r, In r sequences ->
               assoc String.eqb r (mismatch_cache st) = Some (neighbours whitelist d r)) /\
    (forall r, In r sequences ->
               assoc String.eqb r (matches st) =
               match exact_matches (fst (neighbours whitelist d r))
                                   (snd (neighbours whitelist d r)) with
               | [m] => Some (nth m whitelist EmptyString)
               | _ => None
               end).
Proof.
  intros Hs Hw. unfold phase1.
  rewrite (mapM_ok _ encode) by (intros w Hin; apply sequence_to_array_None, Hw, Hin).
  cbn [bind].
  rewrite (mapM_ok _ (neighbours whitelist d)).
  2:{ intros u Hu. apply (proj1 (sorted_keys_In _ _)) in Hu.
      rewrite (sequence_to_array_None u (Hs u Hu)). reflexivity. }
  cbn [bind]. eexists. split; [reflexivity | ].
  destruct (combine_map_graph (neighbours whitelist d) (sorted_keys sequences)) as [Hg Hk].
  pose proof (phase1_loop sequences whitelist (neighbours whitelist d)
                (combine (sorted_keys sequences)
                         (map (neighbours whitelist d) (sorted_keys sequences)))
                (mk_phase1 [] (repeat 0 (List.length whitelist)) []) [] Hg) as H.
  cbn [app] in H. rewrite Hk in H.
  destruct H as [Hcache Hmatch].
  - intros r [].
  - intros r. reflexivity.
  - split.
    + intros r Hr. apply Hcache, sorted_keys_In, Hr.
    + intros r Hr. rewrite Hmatch.
      destruct (in_dec string_dec r (sorted_keys sequences)) as [_|Hn]; [reflexivity | ].
      exfalso. apply Hn, sorted_keys_In, Hr.
Qed.

Lemma mapM_nth {A B : Type} (f : A -> result B) xs : forall ys i x,
  mapM f xs = Ok ys -> nth_error xs i = Some x ->
  exists y, nth_error ys i = Some y /\ f x = Ok y.
Proof.
  induction xs as [|x0 xs IH]; intros ys i x H Hi.
  - destruct i; discriminate.
  - simpl in H. destruct (f x0) as [y0|] eqn:E0; [ | discriminate]. simpl in H.
    destruct (mapM f xs) as [ys0|] eqn:E; [ | discriminate]. simpl in H.
    inversion H; subst ys. destruct i as [|i]; simpl in *.
    + inversion Hi; subst. exists y0. auto.
    + eapply IH; eauto.
Qed.

Lemma nth_error_combine {A B : Type} (xs : list A) (ys : list B) : forall i x,
  List.length xs = List.length ys -> nth_error xs i = Some x ->
  exists y, nth_error ys i = Some y /\ nth_error (combine xs ys) i = Some (x, y).
Proof.
  revert ys. induction xs as [|x0 xs IH]; intros [|y0 ys] i x Hl Hi;
    simpl in Hl; try discriminate.
  - destruct i; discriminate.
  - destruct i as [|i]; simpl in *.
    + inversion Hi; subst. exists y0. auto.
    + apply IH; [lia | assumption].
Qed.

Lemma validate_lengths sequences qualities whitelist :
  validate sequences qualities whitelist = Ok tt ->
  List.length sequences = List.length qualities.
Proof.
  unfold validate. destruct (len sequences =? len qualities) eqn:E; [ | discriminate].
  intros _. apply Z.eqb_eq in E. unfold len in E. lia.
Qed.

Section Corrector.

Variable log10 : Q -> Q.
Variable log10_sum_pow10 : list Q -> Q.
Variable unchecked_read : nat -> Z.

Lemma phase3_one_returns whitelist st props confidence seq quals correction :
  (exists values, quality_values quals = Ok values) ->
  (exists nb, assoc String.eqb seq (mismatch_cache st) = Some nb) ->
  exists out,
    phase3_one log10_sum_pow10 unchecked_read whitelist st props confidence
               (seq, quals, correction) = Ok out /\
    (forall w, correction = Some w -> out = Some w).
Proof.
  intros [values Hq] [[indices masks] Hc]. unfold phase3_one.
  destruct correction as [c|].
  - eexists. split; [reflexivity | intros w H; exact H].
  - unfold _qualities_to_array. cbn [truthy andb]. rewrite Hq. cbn [bind]. rewrite Hc.
    destruct (_correct_to_whitelist _ _ _ _ _ _) as [best_bc conf].
    destruct (_ && _); eexists; (split; [reflexivity | discriminate]).
Qed.

(** On an input that passes validation and encodes, a read for which the
    first loop finds the single exact match [m] is corrected to whitelist
    entry [m] at every occurrence. *)
Lemma single_exact_match_corrected sequences qualities whitelist d confidence r m :
  validate sequences qualities whitelist = Ok tt ->
  encodable sequences qualities whitelist ->
  exact_matches (fst (neighbours whitelist d r)) (snd (neighbours whitelist d r)) = [m] ->
  exists corrections,
    correct_sequences_to_whitelist log10 log10_sum_pow10 unchecked_read
                                   sequences qualities whitelist d confidence
      = Ok corrections /\
    List.length corrections = List.length sequences /\
    forall i, nth_error sequences i = Some r ->
              nth_error corrections i = Some (Some (nth m whitelist EmptyString)).
Proof.
  intros Hval [Hs [Hw Hq]] Hexact.
  pose proof (validate_lengths _ _ _ Hval) as Hlen.
  unfold correct_sequences_to_whitelist. rewrite Hval. cbn [bind].
  destruct (phase1_spec sequences whitelist d Hs Hw) as [st [Hp1 [Hcache Hmatch]]].
  rewrite Hp1. cbn [bind].
  set (props := log10_proportions_of log10 (whitelist_counts st) (len whitelist)).
  set (items := combine (combine sequences qualities)
                        (exact_corrections sequences (matches st))).
  assert (Hclen : List.length (exact_corrections sequences (matches st))
                  = List.length sequences)
    by (unfold exact_corrections; apply length_map).
  destruct (mapM_exists
              (phase3_one log10_sum_pow10 unchecked_read whitelist st props (log10 confidence))
              items) as [corrections Hcorr].
  { intros [[seq quals] correction] Hin.
    unfold items in Hin. apply in_combine_l in Hin.
    destruct (phase3_one_returns whitelist st props (log10 confidence) seq quals correction)
      as [out [Hout _]].
    - apply Hq. eapply in_combine_r; exact Hin.
    - eexists. apply Hcache. eapply in_combine_l; exact Hin.
    - exists out. exact Hout. }
  exists corrections. split; [exact Hcorr | ]. split.
  - rewrite (mapM_length _ _ _ Hcorr). unfold items.
    rewrite !length_combine, Hclen. lia.
  - intros i Hi.
    destruct (nth_error_combine sequences qualities i r Hlen Hi) as [q [Hqi Hrq]].
    destruct (nth_error_combine (combine sequences qualities)
                (exact_corrections sequences (matches st)) i (r, q)) as [c [Hc Hitem]].
    + rewrite length_combine, Hclen. lia.
    + exact Hrq.
    + fold items in Hitem.
      destruct (mapM_nth _ _ _ _ _ Hcorr Hitem) as [out [Hout Hone]].
      rewrite Hout. f_equal.
      assert (Hcr : c = Some (nth m whitelist EmptyString)).
      { unfold exact_corrections in Hc. rewrite nth_error_map, Hi in Hc.
        simpl in Hc. inversion Hc; subst c.
        rewrite Hmatch by (eapply nth_error_In; exact Hi). now rewrite Hexact. }
      destruct (phase3_one_returns whitelist st props (log10 confidence) r q c)
        as [out' [Hout' Hsame]].
      * apply Hq. eapply nth_error_In; exact Hqi.
      * eexists. apply Hcache. eapply nth_error_In; exact Hi.
      * rewrite Hout' in Hone. inversion Hone; subst out'. now apply Hsame.
Qed.

End Corrector.

(** C1, at a failing input.  The read ["AN"] occurs twice and matches the
    whitelist entries ["AA"] and ["AC"] exactly (distance 0 to both), so each
    should receive half of its count, that is 1; the first loop leaves both
    counts at 0, because it divides the count of the whitelist entry among the
    reads instead of the count of the read.  No correction is recorded for
    the read. *)
Theorem ambiguous_exact_match_counts :
  counts ["AN"; "AN"]%string "AN" = 2 /\
  exact_matches (fst (neighbours ["AA"; "AC"]%string 1 "AN"))
                (snd (neighbours ["AA"; "AC"]%string 1 "AN")) = [0; 1]%nat /\
  exists st, phase1 ["AN"; "AN"]%string ["AA"; "AC"]%string 1 = Ok st /\
             whitelist_counts st = [0; 0] /\ matches st = [].
Proof.
  split; [reflexivity | ]. split; [reflexivity | ].
  eexists. split; [reflexivity | ]. split; reflexivity.
Qed.

(** In the first loop a read with two or more exact matches gets no entry in
    [matches], so no correction is recorded for it there. *)
Lemma ambiguous_exact_match_not_recorded sequences whitelist d r m1 m2 ms :
  (forall s, In s sequences -> valid_sequence s = true) ->
  (forall w, In w whitelist -> valid_sequence w = true) ->
  In r sequences ->
  exact_matches (fst (neighbours whitelist d r)) (snd (neighbours whitelist d r))
    = m1 :: m2 :: ms ->
  exists st, phase1 sequences whitelist d = Ok st /\
             assoc String.eqb r (matches st) = None.
Proof.
  intros Hs Hw Hr Hex.
  destruct (phase1_spec sequences whitelist d Hs Hw) as [st [Hp [_ Hm]]].
  exists st. split; [exact Hp | ]. rewrite (Hm r Hr), Hex. reflexivity.
Qed.

(** ** Encoder: further properties *)

Lemma upper_char_idempotent c : upper_char (upper_char c) = upper_char c.
Proof. destruct c as [[] [] [] [] [] [] [] []]; reflexivity. Qed.

Lemma chars_of_list l : chars (string_of_list_ascii l) = l.
Proof. apply list_ascii_of_string_of_list_ascii. Qed.

Lemma chars_upper_string s : upper (chars (upper_string s)) = upper (chars s).
Proof.
  unfold upper_string. rewrite chars_of_list. unfold upper.
  rewrite map_map. apply map_ext. intros c. apply upper_char_idempotent.
Qed.

(** The encoder is case-insensitive: a sequence and its upper-cased form
    have the same outcome, for every requested width. *)
Theorem sequence_to_array_case_insensitive sequence l :
  _sequence_to_array (upper_string sequence) l = _sequence_to_array sequence l.
Proof.
  unfold _sequence_to_array. now rewrite chars_upper_string.
Qed.

(** The outcome of the encoder in closed form: [SequenceError] for a symbol
    outside the alphabet, whatever the width; otherwise [ValueError] for a
    negative width, [IndexError] for a non-zero width below the length of the
    sequence, and else the columns of the symbols followed by all-false
    columns up to the width (a width of 0 or [None] stands for the length). *)
Theorem sequence_to_array_outcome sequence l :
  _sequence_to_array sequence l =
  if negb (valid_sequence sequence) then Err SequenceError
  else
    let w := l_or l (len (chars sequence)) in
    if w <? 0 then Err ValueError
    else if w <? len (chars sequence) then Err IndexError
    else Ok (encode sequence ++
             repeat (repeat false 4) (Z.to_nat w - List.length (chars sequence))).
Proof.
  destruct (valid_sequence sequence) eqn:Hv; cbn [negb].
  - cbv zeta.
    destruct (l_or l (len (chars sequence)) <? 0) eqn:Hneg.
    + unfold _sequence_to_array. unfold valid_sequence in Hv. rewrite Hv.
      unfold np_zeros.
      replace (len (upper (chars sequence))) with (len (chars sequence))
        by (unfold len, upper; now rewrite length_map).
      now rewrite Hneg.
    + destruct (l_or l (len (chars sequence)) <? len (chars sequence)) eqn:Hlt.
      * unfold _sequence_to_array. unfold valid_sequence in Hv. rewrite Hv.
        unfold np_zeros.
        replace (len (upper (chars sequence))) with (len (chars sequence))
          by (unfold len, upper; now rewrite length_map).
        rewrite Hneg. cbn [bind]. change (List.length NUCLEOTIDES_STRICT) with 4%nat.
        pose proof (fill_masks_closed (upper (chars sequence)) []
                      (Z.to_nat (l_or l (len (chars sequence)))) Hv) as Hc.
        cbn [List.length app] in Hc. rewrite Hc.
        replace (_ <=? _)%nat with false; [reflexivity | ].
        symmetry. apply Nat.leb_gt. apply Z.ltb_lt in Hlt. apply Z.ltb_ge in Hneg.
        unfold upper. rewrite length_map. unfold len in *. lia.
      * apply sequence_to_array_padded; [exact Hv | ]. apply Z.ltb_ge in Hlt. exact Hlt.
  - unfold _sequence_to_array. unfold valid_sequence in Hv. now rewrite Hv.
Qed.

(** ** Most likely sequence: properties *)

Lemma argmax_from_spec : forall xs pre bi b,
  (bi < List.length pre)%nat -> nth bi pre 0 = b ->
  (forall j, (j < List.length pre)%nat -> nth j pre 0 <= b) ->
  (forall j, (j < bi)%nat -> nth j pre 0 < b) ->
  let a := argmax_from xs (List.length pre) bi b in
  (a < List.length (pre ++ xs))%nat /\
  (forall j, (j < List.length (pre ++ xs))%nat -> nth j (pre ++ xs) 0 <= nth a (pre ++ xs) 0) /\
  (forall j, (j < a)%nat -> nth j (pre ++ xs) 0 < nth a (pre ++ xs) 0).
Proof.
  induction xs as [|x xs IH]; intros pre bi b Hbi Hb Hmax Hfirst; cbn [argmax_from].
  - cbv zeta. rewrite app_nil_r. rewrite Hb. auto.
  - assert (Hlen : List.length (pre ++ [x]) = S (List.length pre))
      by (rewrite length_app; simpl; lia).
    assert (Hpre : forall j, (j < List.length pre)%nat -> nth j (pre ++ [x]) 0 = nth j pre 0)
      by (intros j Hj; now apply app_nth1).
    assert (Hx : nth (List.length pre) (pre ++ [x]) 0 = x)
      by (rewrite app_nth2 by lia; now rewrite Nat.sub_diag).
    replace (pre ++ x :: xs) with ((pre ++ [x]) ++ xs) by (rewrite <- app_assoc; reflexivity).
    rewrite <- Hlen.
    destruct (Z.ltb_spec b x) as [Hlt|Hge].
    + apply IH.
      * lia.
      * exact Hx.
      * intros j Hj. rewrite Hlen in Hj.
        destruct (Nat.eq_dec j (List.length pre)) as [->|Hne]; [rewrite Hx; lia | ].
        rewrite Hpre by lia. specialize (Hmax j ltac:(lia)). lia.
      * intros j Hj. rewrite Hpre by lia. specialize (Hmax j Hj). lia.
    + apply IH.
      * lia.
      * rewrite Hpre by lia. exact Hb.
      * intros j Hj. rewrite Hlen in Hj.
        destruct (Nat.eq_dec j (List.length pre)) as [->|Hne]; [rewrite Hx; lia | ].
        rewrite Hpre by lia. apply Hmax. lia.
      * intros j Hj. rewrite Hpre by lia. now apply Hfirst.
Qed.

(** [argmax] returns the first position of the largest entry. *)
Lemma argmax_spec xs :
  xs <> [] ->
  (argmax xs < List.length xs)%nat /\
  (forall j, (j < List.length xs)%nat -> nth j xs 0 <= nth (argmax xs) xs 0) /\
  (forall j, (j < argmax xs)%nat -> nth j xs 0 < nth (argmax xs) xs 0).
Proof.
  destruct xs as [|x xs]; [congruence | intros _].
  apply (argmax_from_spec xs [x] 0%nat x); simpl; try lia; try reflexivity.
  intros [|j] Hj; simpl; lia.
Qed.

(** [_most_likely_sequence] on a score matrix with four rows returns one
    strict base per column: a base whose score is the largest of the column,
    and on a tie the first such base in the order A, C, G, T. *)
Theorem most_likely_sequence_first_maximum positional_probs :
  Forall (fun col => List.length col = 4%nat) positional_probs ->
  let out := chars (_most_likely_sequence positional_probs) in
  List.length out = List.length positional_probs /\
  forall pos col, nth_error positional_probs pos = Some col ->
    exists i, (i < 4)%nat /\
              nth_error out pos = nth_error NUCLEOTIDES_STRICT i /\
              (forall j, (j < 4)%nat -> nth j col 0 <= nth i col 0) /\
              (forall j, (j < i)%nat -> nth j col 0 < nth i col 0).
Proof.
  intros Hshape out. unfold out, _most_likely_sequence, argmax0.
  rewrite chars_of_list, !length_map. split; [reflexivity | ].
  intros pos col Hcol.
  assert (H4 : List.length col = 4%nat).
  { rewrite Forall_forall in Hshape. apply Hshape. eapply nth_error_In; eauto. }
  destruct (argmax_spec col) as [Hlt [Hmax Hfirst]]; [destruct col; discriminate | ].
  rewrite H4 in Hlt, Hmax.
  exists (argmax col). split; [exact Hlt | ]. split; [ | split; assumption].
  rewrite map_map, nth_error_map, Hcol. cbn [option_map].
  symmetry. apply nth_error_nth'. cbn [List.length NUCLEOTIDES_STRICT]. lia.
Qed.

Lemma most_likely_sequence_first_maximum_witness :
  let out := chars (_most_likely_sequence [[3; 7; 7; 0]; [0; 0; 0; 0]]) in
  List.length out = 2%nat /\
  forall pos col, nth_error [[3; 7; 7; 0]; [0; 0; 0; 0]] pos = Some col ->
    exists i, (i < 4)%nat /\
              nth_error out pos = nth_error NUCLEOTIDES_STRICT i /\
              (forall j, (j < 4)%nat -> nth j col 0 <= nth i col 0) /\
              (forall j, (j < i)%nat -> nth j col 0 < nth i col 0).
Proof.
  apply (most_likely_sequence_first_maximum [[3; 7; 7; 0]; [0; 0; 0; 0]]).
  repeat constructor.
Defined.

Lemma first_base_strict c : In c NUCLEOTIDES_STRICT -> first_base c = c.
Proof.
  simpl. intros H.
  repeat (destruct H as [H | H]; [subst; reflexivity | ]). contradiction.
Qed.

Lemma strict_is_valid cs :
  Forall (fun c => In c NUCLEOTIDES_STRICT) cs ->
  forallb (fun c => char_in c NUCLEOTIDES) cs = true.
Proof.
  intros H. apply forallb_forall. intros c Hc.
  rewrite Forall_forall in H. specialize (H c Hc).
  apply char_in_In. unfold NUCLEOTIDES. apply in_or_app. now left.
Qed.

Lemma strict_from_forallb cs :
  forallb (fun c => char_in c NUCLEOTIDES_STRICT) cs = true ->
  Forall (fun c => In c NUCLEOTIDES_STRICT) cs.
Proof.
  intros H. apply Forall_forall. intros c Hc.
  rewrite forallb_forall in H. apply char_in_In. now apply H.
Qed.

(** Round trip: decoding the encoding of a sequence of strict bases, in
    either case, gives the sequence back in upper case. *)
Theorem encode_decode_strict sequence :
  Forall (fun c => In c NUCLEOTIDES_STRICT) (upper (chars sequence)) ->
  exists arr, _sequence_to_array sequence None = Ok arr /\
              _most_likely_sequence (as_int arr) = upper_string sequence.
Proof.
  intros Hs. pose proof (strict_is_valid _ Hs) as Hv.
  exists (encode sequence). split; [now apply sequence_to_array_None | ].
  unfold encode. rewrite most_likely_encoded by exact Hv.
  unfold upper_string. f_equal.
  rewrite <- (map_id (upper (chars sequence))) at 2.
  apply map_ext_in. intros c Hc. apply first_base_strict.
  rewrite Forall_forall in Hs. now apply Hs.
Qed.

Lemma encode_decode_strict_witness :
  exists arr, _sequence_to_array "gaTTaca" None = Ok arr /\
              _most_likely_sequence (as_int arr) = upper_string "gaTTaca".
Proof.
  apply encode_decode_strict. apply strict_from_forallb. reflexivity.
Defined.

(** ** Distance engine: further properties *)

Lemma bool_sum_bounds mask : 0 <= bool_sum mask <= len mask.
Proof.
  unfold len. induction mask as [|b mask IH]; [simpl; lia | ].
  change (bool_sum (b :: mask)) with (Z.b2z b + bool_sum mask).
  cbn [List.length]. destruct b; cbn [Z.b2z]; lia.
Qed.

Lemma symbol_mismatch_compatible c1 c2 :
  char_in c1 NUCLEOTIDES = true -> char_in c2 NUCLEOTIDES = true ->
  mismatch_at (symbol_column c1) (symbol_column c2) = negb (compatible c1 c2).
Proof.
  intros H1. revert c2. revert c1 H1. apply (nucleotide_cases
    (fun c1 => forall c2, char_in c2 NUCLEOTIDES = true ->
                          mismatch_at (symbol_column c1) (symbol_column c2)
                          = negb (compatible c1 c2))).
  repeat constructor; apply nucleotide_cases; repeat constructor.
Qed.

Lemma hamming_distance_encoded cs1 cs2 :
  forallb (fun c => char_in c NUCLEOTIDES) cs1 = true ->
  forallb (fun c => char_in c NUCLEOTIDES) cs2 = true ->
  _hamming_distance (map symbol_column cs1) (map symbol_column cs2)
  = incompatible_positions cs1 cs2.
Proof.
  unfold _hamming_distance, _mismatch_mask.
  revert cs2. induction cs1 as [|c1 cs1 IH]; intros [|c2 cs2] H1 H2; try reflexivity.
  simpl in H1, H2. apply andb_true_iff in H1 as [Hc1 H1]. apply andb_true_iff in H2 as [Hc2 H2].
  cbn [map map2 bool_sum fold_right incompatible_positions].
  rewrite (symbol_mismatch_compatible c1 c2 Hc1 Hc2).
  fold (bool_sum (map2 mismatch_at (map symbol_column cs1) (map symbol_column cs2))).
  rewrite (IH cs2 H1 H2). destruct (compatible c1 c2); reflexivity.
Qed.

Lemma sequence_to_array_unpadded sequence :
  _sequence_to_array sequence None =
  if valid_sequence sequence then Ok (encode sequence) else Err SequenceError.
Proof.
  destruct (valid_sequence sequence) eqn:Hv.
  - now apply sequence_to_array_None.
  - unfold _sequence_to_array. unfold valid_sequence in Hv. now rewrite Hv.
Qed.

Lemma hamming_distance_closed sequence1 sequence2 :
  hamming_distance sequence1 sequence2 =
  if (len (chars sequence1) =? len (chars sequence2))
     && valid_sequence sequence1 && valid_sequence sequence2
  then Ok (incompatible_positions (upper (chars sequence1)) (upper (chars sequence2)))
  else Err SequenceError.
Proof.
  unfold hamming_distance.
  destruct (len (chars sequence1) =? len (chars sequence2)); cbn [negb andb]; [ | reflexivity].
  rewrite !sequence_to_array_unpadded.
  destruct (valid_sequence sequence1) eqn:H1; cbn [negb andb bind]; [ | reflexivity].
  destruct (valid_sequence sequence2) eqn:H2; cbn [negb andb bind]; [ | reflexivity].
  f_equal. now apply hamming_distance_encoded.
Qed.

(** [hamming_distance] on strings of 7-bit characters, in closed form: it
    returns exactly when the two sequences have the same length and both are
    accepted by the encoder, and then the distance is the number of positions
    at which the two symbols (case-insensitively) share no strict base; every
    other such input raises [SequenceError]. *)
Theorem hamming_distance_outcome sequence1 sequence2 :
  ascii_only sequence1 = true -> ascii_only sequence2 = true ->
  hamming_distance sequence1 sequence2 =
  if (len (chars sequence1) =? len (chars sequence2))
     && valid_sequence sequence1 && valid_sequence sequence2
  then Ok (incompatible_positions (upper (chars sequence1)) (upper (chars sequence2)))
  else Err SequenceError.
Proof. intros _ _. apply hamming_distance_closed. Qed.

Lemma hamming_distance_outcome_witness :
  hamming_distance "acgt" "ANTT" = Ok 1 /\
  hamming_distance "ACG" "ANTT" = Err SequenceError /\
  hamming_distance "AXGT" "ANTT" = Err SequenceError.
Proof.
  split; [ | split].
  - exact (hamming_distance_outcome "acgt" "ANTT" eq_refl eq_refl).
  - exact (hamming_distance_outcome "ACG" "ANTT" eq_refl eq_refl).
  - exact (hamming_distance_outcome "AXGT" "ANTT" eq_refl eq_refl).
Defined.

Lemma incompatible_positions_bounds cs1 cs2 :
  0 <= incompatible_positions cs1 cs2 <= len cs1.
Proof.
  unfold len. revert cs2. induction cs1 as [|c1 cs1 IH]; intros [|c2 cs2]; simpl; try lia.
  specialize (IH cs2). destruct (compatible c1 c2); lia.
Qed.

(** On strings of 7-bit characters, a Hamming distance that is returned
    lies between 0 and the common length of the two sequences. *)
Theorem hamming_distance_bounds sequence1 sequence2 d :
  ascii_only sequence1 = true -> ascii_only sequence2 = true ->
  hamming_distance sequence1 sequence2 = Ok d ->
  0 <= d <= len (chars sequence1) /\ len (chars sequence1) = len (chars sequence2).
Proof.
  intros _ _. rewrite hamming_distance_closed.
  destruct (len (chars sequence1) =? len (chars sequence2)) eqn:Hl; [ | discriminate].
  destruct (valid_sequence sequence1 && valid_sequence sequence2) eqn:Hv;
    [ | cbn [andb]; rewrite Hv; discriminate].
  cbn [andb]. rewrite Hv. intros H. inversion H; subst d. split.
  - pose proof (incompatible_positions_bounds (upper (chars sequence1)) (upper (chars sequence2))).
    unfold len, upper in *. rewrite length_map in *. lia.
  - now apply Z.eqb_eq.
Qed.

Lemma hamming_distance_bounds_witness :
  0 <= 1 <= len (chars "ACGT") /\ len (chars "ACGT") = len (chars "ANTT").
Proof. exact (hamming_distance_bounds "ACGT" "ANTT" 1 eq_refl eq_refl eq_refl). Defined.

Lemma compatible_strict c1 c2 :
  In c1 NUCLEOTIDES_STRICT -> In c2 NUCLEOTIDES_STRICT ->
  compatible c1 c2 = Ascii.eqb c1 c2.
Proof.
  simpl. intros H1 H2.
  repeat (destruct H1 as [H1 | H1]; [subst c1 | ]); try contradiction;
    repeat (destruct H2 as [H2 | H2]; [subst c2; reflexivity | ]); contradiction.
Qed.

(** On sequences of strict bases the distance is the classical Hamming
    distance: the number of positions at which the upper-cased characters
    differ. *)
Theorem hamming_distance_strict sequence1 sequence2 :
  Forall (fun c => In c NUCLEOTIDES_STRICT) (upper (chars sequence1)) ->
  Forall (fun c => In c NUCLEOTIDES_STRICT) (upper (chars sequence2)) ->
  len (chars sequence1) = len (chars sequence2) ->
  hamming_distance sequence1 sequence2 =
  Ok (len (filter (fun '(c1, c2) => negb (Ascii.eqb c1 c2))
                  (combine (upper (chars sequence1)) (upper (chars sequence2))))).
Proof.
  intros H1 H2 Hlen. rewrite hamming_distance_closed.
  rewrite Hlen, Z.eqb_refl.
  unfold valid_sequence. rewrite (strict_is_valid _ H1), (strict_is_valid _ H2).
  cbn [andb]. f_equal. clear Hlen.
  revert H2. generalize (upper (chars sequence2)) as cs2.
  induction H1 as [|c1 cs1 Hc1 _ IH]; intros cs2 H2; [reflexivity | ].
  destruct H2 as [|c2 cs2 Hc2 H2]; [reflexivity | ].
  cbn [incompatible_positions combine filter].
  rewrite (compatible_strict c1 c2 Hc1 Hc2), (IH cs2 H2).
  unfold len. destruct (Ascii.eqb c1 c2); cbn [negb List.length]; lia.
Qed.

Lemma hamming_distance_strict_witness :
  hamming_distance "gattaca" "GACTATA" =
  Ok (len (filter (fun '(c1, c2) => negb (Ascii.eqb c1 c2))
                  (combine (upper (chars "gattaca")) (upper (chars "GACTATA"))))).
Proof.
  apply hamming_distance_strict;
    [apply strict_from_forallb; reflexivity | apply strict_from_forallb; reflexivity
    | reflexivity].
Defined.

Lemma mapM_guard {A B : Type} (p : A -> bool) (g : A -> B) (e : exn) (f : A -> result B) xs :
  (forall x, In x xs -> f x = if p x then Ok (g x) else Err e) ->
  mapM f xs = if forallb p xs then Ok (map g xs) else Err e.
Proof.
  induction xs as [|x xs IH]; intros H; [reflexivity | ].
  cbn [mapM forallb map]. rewrite (H x (or_introl eq_refl)).
  destruct (p x); cbn [bind andb]; [ | reflexivity].
  rewrite IH by (intros y Hy; apply H; now right).
  destruct (forallb p xs); reflexivity.
Qed.

(** The loop that fills an array slot by slot leaves the mapped list. *)
Lemma fold_update_enumerate {A B : Type} (f : A -> B) xs : forall pre rest,
  List.length rest = List.length xs ->
  fold_left (fun acc '(i, x) => update i (f x) acc)
            (combine (seq (List.length pre) (List.length xs)) xs) (pre ++ rest)
  = pre ++ map f xs.
Proof.
  induction xs as [|x xs IH]; intros pre rest Hlen.
  - destruct rest; [reflexivity | discriminate].
  - destruct rest as [|r rest]; [discriminate | ].
    cbn [List.length seq combine fold_left map]. rewrite update_app_head.
    specialize (IH (pre ++ [f x]) rest ltac:(simpl in Hlen; lia)).
    rewrite length_app in IH. cbn [List.length] in IH. rewrite Nat.add_1_r in IH.
    rewrite <- !app_assoc in IH. exact IH.
Qed.

Lemma hamming_distances_arrays_map sequence sequences :
  _hamming_distances sequence sequences = map (_hamming_distance sequence) sequences.
Proof.
  unfold _hamming_distances, enumerate.
  apply (fold_update_enumerate (_hamming_distance sequence) sequences []).
  apply repeat_length.
Qed.

Lemma hamming_distance_matrix_arrays_map sequences1 sequences2 :
  _hamming_distance_matrix sequences1 sequences2
  = map (fun seq1 => map (_hamming_distance seq1) sequences2) sequences1.
Proof.
  unfold _hamming_distance_matrix, enumerate.
  pose proof (fold_update_enumerate (fun seq1 => _hamming_distances seq1 sequences2)
                sequences1 []
                (repeat (repeat 0 (List.length sequences2)) (List.length sequences1))
                (repeat_length _ _)) as E.
  cbn [app List.length] in E. rewrite E.
  apply map_ext. intros seq1. apply hamming_distances_arrays_map.
Qed.

Lemma fold_left_seq_invariant {A : Type} (P : nat -> A -> Prop) (f : A -> nat -> A) :
  forall n s acc,
    (forall k acc0, (s <= k < s + n)%nat -> P k acc0 -> P (S k) (f acc0 k)) ->
    P s acc -> P (s + n)%nat (fold_left f (seq s n) acc).
Proof.
  induction n as [|n IH]; intros s acc Hstep H0; cbn [seq fold_left].
  - now rewrite Nat.add_0_r.
  - replace (s + S n)%nat with (S s + n)%nat by lia. apply IH.
    + intros k acc0 Hk. apply Hstep. lia.
    + apply Hstep; [lia | exact H0].
Qed.

(** Every entry of the array that [_pairwise_hamming_distances] fills is
    the distance of the two sequences it is indexed by. *)
Lemma pairwise_arrays_entries sequences :
  let n := List.length sequences in
  square n (_pairwise_hamming_distances sequences) /\
  forall a b, (a < n)%nat -> (b < n)%nat ->
    get2 (_pairwise_hamming_distances sequences) a b
    = _hamming_distance (nth a sequences []) (nth b sequences []).
Proof.
  intros n.
  set (H := fun a b => _hamming_distance (nth a sequences []) (nth b sequences [])).
  assert (Hcomm : forall a b, H a b = H b a)
    by (intros; apply hamming_distance_arrays_comm).
  set (P := fun (k : nat) (m : list (list Z)) =>
              square n m /\
              forall a b, (a < n)%nat -> (b < n)%nat -> (Nat.min a b < k)%nat ->
                          get2 m a b = H a b).
  assert (Hfinal : P (0 + n)%nat (_pairwise_hamming_distances sequences)).
  { unfold _pairwise_hamming_distances. fold n.
    apply (fold_left_seq_invariant P).
    - intros i m Hi [Hsq Hm].
      set (Q := fun (j0 : nat) (m1 : list (list Z)) =>
                  square n m1 /\
                  forall a b, (a < n)%nat -> (b < n)%nat ->
                    ((Nat.min a b < i)%nat \/
                     (Nat.min a b = i /\ Nat.max a b < j0)%nat) ->
                    get2 m1 a b = H a b).
      assert (HQ : Q (i + (n - i))%nat
                     (fold_left (pairwise_inner sequences i) (seq i (n - i)) m)).
      { apply (fold_left_seq_invariant Q).
        - intros j m1 Hj [Hsq1 Hm1]. unfold pairwise_inner. fold (H i j).
          assert (Hsq2 : square n (set2 i j (H i j) m1)) by now apply set2_square.
          split; [now apply set2_square | ].
          intros a b Ha Hb Hab.
          rewrite (get2_set2 n j i) by (assumption || lia).
          rewrite (get2_set2 n i j) by (assumption || lia).
          destruct (Nat.eqb_spec a j) as [Eaj|Naj], (Nat.eqb_spec b i) as [Ebi|Nbi];
            cbn [andb]; try (subst; now rewrite Hcomm);
            destruct (Nat.eqb_spec a i) as [Eai|Nai], (Nat.eqb_spec b j) as [Ebj|Nbj];
            cbn [andb]; try (subst; reflexivity); apply Hm1; try assumption; lia.
        - split; [exact Hsq | ]. intros a b Ha Hb [Hlt|[Heq Hlt]]; [now apply Hm | lia]. }
      destruct HQ as [Hsq1 Hm1]. split; [exact Hsq1 | ].
      intros a b Ha Hb Hab. apply Hm1; try assumption. lia.
    - split.
      + destruct (zeros_symmetric n) as [Hsq _]. exact Hsq.
      + intros a b _ _ Hab. lia. }
  destruct Hfinal as [Hsq Hm]. split; [exact Hsq | ].
  intros a b Ha Hb. apply Hm; try assumption. simpl. lia.
Qed.

Lemma encode_all sequences :
  mapM (fun s => _sequence_to_array s None) sequences =
  if forallb valid_sequence sequences then Ok (map encode sequences) else Err SequenceError.
Proof. apply mapM_guard. intros s _. apply sequence_to_array_unpadded. Qed.

Lemma hamming_distance_row sequence sequences :
  mapM (hamming_distance sequence) sequences =
  if forallb (fun seq => (len (chars sequence) =? len (chars seq))
                         && valid_sequence sequence && valid_sequence seq) sequences
  then Ok (map (fun seq => incompatible_positions (upper (chars sequence)) (upper (chars seq)))
               sequences)
  else Err SequenceError.
Proof. apply mapM_guard. intros s _. apply hamming_distance_closed. Qed.

Lemma encoded_distances sequence sequences :
  valid_sequence sequence = true -> forallb valid_sequence sequences = true ->
  map (_hamming_distance (encode sequence)) (map encode sequences)
  = map (fun seq => incompatible_positions (upper (chars sequence)) (upper (chars seq)))
        sequences.
Proof.
  intros Hv Hvs. rewrite map_map. apply map_ext_in. intros s Hs.
  rewrite forallb_forall in Hvs. apply hamming_distance_encoded; [exact Hv | ].
  apply (Hvs s Hs).
Qed.

(** [hamming_distances] agrees with [hamming_distance] applied to each
    element of a non-empty list: the same distances in the same order, and the
    same [SequenceError] when any length differs or any sequence is not
    accepted. *)
Theorem hamming_distances_elementwise sequence sequences :
  sequences <> [] ->
  hamming_distances sequence sequences = mapM (hamming_distance sequence) sequences.
Proof.
  intros Hne. rewrite hamming_distance_row. unfold hamming_distances.
  rewrite sequence_to_array_unpadded, encode_all.
  destruct (existsb _ sequences) eqn:Hex.
  - replace (forallb _ sequences) with false; [reflexivity | ].
    symmetry. apply not_true_is_false. intros Hall.
    apply existsb_exists in Hex as [s [Hs Hbad]].
    rewrite forallb_forall in Hall. specialize (Hall s Hs).
    destruct (len (chars sequence) =? len (chars s)); discriminate.
  - assert (Hlen : forall s, In s sequences ->
               (len (chars sequence) =? len (chars s)) = true).
    { intros s Hs. destruct (len (chars sequence) =? len (chars s)) eqn:E; [reflexivity | ].
      exfalso. apply not_true_iff_false in Hex. apply Hex.
      apply existsb_exists. exists s. rewrite E. auto. }
    destruct (valid_sequence sequence) eqn:Hv; cbn [bind].
    + destruct (forallb valid_sequence sequences) eqn:Hvs; cbn [bind].
      * replace (forallb _ sequences) with true.
        -- rewrite hamming_distances_arrays_map. f_equal. now apply encoded_distances.
        -- symmetry. apply forallb_forall. intros s Hs.
           rewrite (Hlen s Hs). rewrite forallb_forall in Hvs. now rewrite (Hvs s Hs).
      * replace (forallb _ sequences) with false; [reflexivity | ].
        symmetry. apply not_true_is_false. intros Hall.
        apply not_true_iff_false in Hvs. apply Hvs. apply forallb_forall. intros s Hs.
        rewrite forallb_forall in Hall. specialize (Hall s Hs).
        apply andb_true_iff in Hall as [_ Hall]. exact Hall.
    + destruct sequences as [|s0 rest]; [congruence | ].
      cbn [forallb]. now rewrite andb_false_r.
Qed.

Lemma hamming_distances_elementwise_witness :
  hamming_distances "ACGT" ["ACGT"; "ANTT"; "tttt"]%string
  = mapM (hamming_distance "ACGT") ["ACGT"; "ANTT"; "tttt"]%string.
Proof. apply hamming_distances_elementwise. discriminate. Defined.

Lemma matrix_ext n (m1 m2 : list (list Z)) :
  square n m1 -> square n m2 ->
  (forall a b, (a < n)%nat -> (b < n)%nat -> get2 m1 a b = get2 m2 a b) ->
  m1 = m2.
Proof.
  intros [Hl1 Hr1] [Hl2 Hr2] Hget.
  apply (nth_ext m1 m2 [] []); [congruence | ].
  intros a Ha. rewrite Hl1 in Ha.
  apply (nth_ext _ _ 0 0); [rewrite Hr1, Hr2; auto | ].
  intros b Hb. rewrite Hr1 in Hb by assumption. now apply Hget.
Qed.

(** On every list of arrays the pairwise loop, which computes each
    unordered pair once and mirrors it, fills the same array as the
    all-against-all loop of [_hamming_distance_matrix] on the list and
    itself. *)
Lemma pairwise_arrays_matrix sequences :
  _pairwise_hamming_distances sequences = _hamming_distance_matrix sequences sequences.
Proof.
  destruct (pairwise_arrays_entries sequences) as [Hsq Hent].
  set (n := List.length sequences) in *.
  assert (Hrow : forall a, (a < n)%nat ->
            nth a (_hamming_distance_matrix sequences sequences) []
            = map (_hamming_distance (nth a sequences [])) sequences).
  { intros a Ha. rewrite hamming_distance_matrix_arrays_map.
    rewrite (nth_indep _ [] ((fun seq1 => map (_hamming_distance seq1) sequences) []))
      by (rewrite length_map; exact Ha).
    apply (map_nth (fun seq1 => map (_hamming_distance seq1) sequences)). }
  apply (matrix_ext n); [exact Hsq | | ].
  - split.
    + rewrite hamming_distance_matrix_arrays_map. apply length_map.
    + intros a Ha. rewrite Hrow by assumption. apply length_map.
  - intros a b Ha Hb. rewrite Hent by assumption.
    unfold get2. rewrite Hrow by assumption.
    rewrite (nth_indep _ 0 (_hamming_distance (nth a sequences []) []))
      by (rewrite length_map; exact Hb).
    symmetry. apply (map_nth (_hamming_distance (nth a sequences []))).
Qed.

(** On a non-empty list [pairwise_hamming_distances] has the outcome of
    [hamming_distance_matrix] on the list and itself: the same matrix, or the
    same [SequenceError]. *)
Theorem pairwise_is_matrix_with_itself sequences :
  sequences <> [] ->
  pairwise_hamming_distances sequences = hamming_distance_matrix sequences sequences.
Proof.
  intros Hne. destruct sequences as [|s0 rest]; [congruence | ].
  unfold pairwise_hamming_distances, hamming_distance_matrix.
  rewrite existsb_app, orb_diag.
  destruct (existsb _ (s0 :: rest)); [reflexivity | ].
  destruct (mapM _ (s0 :: rest)) as [arrays|e]; cbn [bind]; [ | reflexivity].
  now rewrite pairwise_arrays_matrix.
Qed.

Lemma pairwise_is_matrix_with_itself_witness :
  pairwise_hamming_distances ["ACGT"; "ANTT"; "tttt"]%string
  = hamming_distance_matrix ["ACGT"; "ANTT"; "tttt"]%string ["ACGT"; "ANTT"; "tttt"]%string.
Proof. apply pairwise_is_matrix_with_itself. discriminate. Defined.

Lemma forallb_false_witness {A : Type} (p : A -> bool) xs :
  forallb p xs = false -> exists x, In x xs /\ p x = false.
Proof.
  induction xs as [|x xs IH]; cbn [forallb]; [discriminate | ].
  destruct (p x) eqn:E; cbn [andb].
  - intros H. destruct (IH H) as [y [Hy Hp]]. exists y. split; [now right | exact Hp].
  - intros _. exists x. split; [now left | exact E].
Qed.

Lemma forallb_false_from {A : Type} (p : A -> bool) xs x :
  In x xs -> p x = false -> forallb p xs = false.
Proof.
  intros Hin Hp. apply not_true_is_false. intros H.
  rewrite forallb_forall in H. rewrite (H x Hin) in Hp. discriminate.
Qed.

(** On two non-empty lists [hamming_distance_matrix] agrees with
    [hamming_distance] applied to every pair, row by row: entry [i, j] is the
    distance of [sequences1[i]] and [sequences2[j]], and a [SequenceError] is
    raised exactly when some pair would raise it. *)
Theorem hamming_distance_matrix_elementwise sequences1 sequences2 :
  sequences1 <> [] -> sequences2 <> [] ->
  hamming_distance_matrix sequences1 sequences2
  = mapM (fun seq1 => mapM (hamming_distance seq1) sequences2) sequences1.
Proof.
  intros Hne1 Hne2.
  destruct sequences1 as [|a0 r1]; [congruence | ].
  destruct sequences2 as [|b0 r2]; [congruence | ].
  set (s1 := a0 :: r1) in *. set (s2 := b0 :: r2) in *.
  set (q := fun a b => (len (chars a) =? len (chars b)) && valid_sequence a && valid_sequence b).
  rewrite (mapM_guard (fun a => forallb (q a) s2)
             (fun a => map (fun b => incompatible_positions (upper (chars a)) (upper (chars b))) s2)
             SequenceError)
    by (intros a _; apply hamming_distance_row).
  unfold hamming_distance_matrix. fold s1 s2.
  change (match s1 with [] => match s2 with [] => ?x | _ :: _ => _ end | _ :: _ => ?y end)
    with y.
  rewrite !encode_all.
  assert (Ha0 : In a0 s1) by now left. assert (Hb0 : In b0 s2) by now left.
  destruct (existsb _ (s1 ++ s2)) eqn:Hex.
  - replace (forallb _ s1) with false; [reflexivity | ].
    symmetry. apply not_true_is_false. intros Hall.
    rewrite forallb_forall in Hall.
    assert (Hq : forall a b, In a s1 -> In b s2 -> len (chars a) = len (chars b)).
    { intros a b Ha Hb. specialize (Hall a Ha). rewrite forallb_forall in Hall.
      specialize (Hall b Hb). unfold q in Hall.
      destruct (len (chars a) =? len (chars b)) eqn:E; [now apply Z.eqb_eq | discriminate]. }
    apply existsb_exists in Hex as [x [Hx Hbad]].
    assert (Hxl : len (chars x) = len (chars a0)).
    { apply in_app_or in Hx as [Hx|Hx].
      - rewrite (Hq x b0 Hx Hb0). symmetry. now apply Hq.
      - symmetry. now apply Hq. }
    change (first_len s1) with (len (chars a0)) in Hbad.
    rewrite Hxl, Z.eqb_refl in Hbad. discriminate.
  - assert (Hlen : forall x, In x (s1 ++ s2) -> len (chars x) = len (chars a0)).
    { intros x Hx. change (first_len s1) with (len (chars a0)) in Hex.
      destruct (len (chars a0) =? len (chars x)) eqn:E; [symmetry; now apply Z.eqb_eq | ].
      exfalso. apply not_true_iff_false in Hex. apply Hex.
      apply existsb_exists. exists x. rewrite E. auto. }
    assert (Hq : forall a b, In a s1 -> In b s2 ->
              q a b = valid_sequence a && valid_sequence b).
    { intros a b Ha Hb. unfold q.
      rewrite (Hlen a), (Hlen b), Z.eqb_refl by (apply in_or_app; auto). reflexivity. }
    destruct (forallb valid_sequence s1) eqn:Hv1; cbn [bind].
    + destruct (forallb valid_sequence s2) eqn:Hv2; cbn [bind].
      * rewrite forallb_forall in Hv1, Hv2.
        replace (forallb _ s1) with true.
        -- f_equal. rewrite hamming_distance_matrix_arrays_map, map_map.
           apply map_ext_in. intros a Ha. apply encoded_distances; [now apply Hv1 | ].
           now apply forallb_forall.
        -- symmetry. apply forallb_forall. intros a Ha. apply forallb_forall. intros b Hb.
           now rewrite Hq, Hv1, Hv2.
      * destruct (forallb_false_witness _ _ Hv2) as [b [Hb Hbv]].
        rewrite (forallb_false_from _ s1 a0 Ha0); [reflexivity | ].
        apply (forallb_false_from _ s2 b Hb). rewrite Hq by assumption.
        now rewrite Hbv, andb_false_r.
    + destruct (forallb_false_witness _ _ Hv1) as [a [Ha Hav]].
      rewrite (forallb_false_from _ s1 a Ha); [reflexivity | ].
      apply (forallb_false_from _ s2 b0 Hb0). rewrite Hq by assumption.
      now rewrite Hav.
Qed.

Lemma hamming_distance_matrix_elementwise_witness :
  hamming_distance_matrix ["ACGT"; "aaaa"]%string ["ACGT"; "ANTT"; "TTTT"]%string
  = mapM (fun seq1 => mapM (hamming_distance seq1) ["ACGT"; "ANTT"; "TTTT"]%string)
         ["ACGT"; "aaaa"]%string.
Proof. apply hamming_distance_matrix_elementwise; discriminate. Defined.

Lemma mismatch_masks_from_lengths sequence d : forall whitelist i,
  List.length (snd (mismatch_masks_from sequence whitelist d i))
  = List.length (fst (mismatch_masks_from sequence whitelist d i)).
Proof.
  induction whitelist as [|bc rest IH]; intros i; [reflexivity | ].
  cbn [mismatch_masks_from]. specialize (IH (S i)).
  destruct (mismatch_masks_from sequence rest d (S i)) as [indices masks].
  destruct (_ >? d); cbn [fst snd List.length] in *; lia.
Qed.

Lemma combine_nth_error {A B : Type} (xs : list A) (ys : list B) : forall k x,
  List.length ys = List.length xs -> nth_error xs k = Some x ->
  exists y, nth_error ys k = Some y /\ nth_error (combine xs ys) k = Some (x, y).
Proof.
  intros k x Hl Hx. apply nth_error_combine; [lia | exact Hx].
Qed.

(** [_mismatch_masks] returns exactly the whitelist positions whose Hamming
    distance to the sequence is at most [d], in strictly ascending order, each
    paired with the mismatch mask of that whitelist entry; a negative [d]
    gives no neighbour at all. *)
Theorem mismatch_masks_neighbours sequence whitelist d :
  let indices := fst (_mismatch_masks sequence whitelist d) in
  let masks := snd (_mismatch_masks sequence whitelist d) in
  StronglySorted lt indices /\
  List.length masks = List.length indices /\
  (forall j, In j indices <->
             (j < List.length whitelist)%nat /\
             _hamming_distance sequence (nth j whitelist []) <= d) /\
  (forall k j, nth_error indices k = Some j ->
               nth_error masks k = Some (_mismatch_mask sequence (nth j whitelist []))) /\
  (d < 0 -> indices = []).
Proof.
  intros indices masks. unfold indices, masks, _mismatch_masks.
  pose proof (mismatch_masks_from_spec sequence d whitelist 0) as Hspec.
  pose proof (mismatch_masks_from_lengths sequence d whitelist 0) as Hlen.
  destruct (mismatch_masks_from sequence whitelist d 0) as [ix ms]. cbn [fst snd] in *.
  destruct Hspec as [Hsorted [_ [Hcomb Hin]]].
  assert (Hin' : forall j, In j ix <->
                   (j < List.length whitelist)%nat /\
                   _hamming_distance sequence (nth j whitelist []) <= d).
  { intros j. rewrite Hin, Nat.sub_0_r. unfold _hamming_distance.
    split; intros [H1 H2]; (split; [lia | exact H2]). }
  split; [exact Hsorted | ]. split; [exact Hlen | ]. split; [exact Hin' | ]. split.
  - intros k j Hk.
    destruct (combine_nth_error ix ms k j Hlen Hk) as [mask [Hm Hc]].
    rewrite Hcomb, nth_error_map, Hk in Hc. cbn [option_map] in Hc.
    rewrite Nat.sub_0_r in Hc. inversion Hc; subst mask. exact Hm.
  - intros Hd. destruct ix as [|j rest]; [reflexivity | exfalso].
    destruct (proj1 (Hin' j) (or_introl eq_refl)) as [_ Hle].
    pose proof (bool_sum_bounds (_mismatch_mask sequence (nth j whitelist []))).
    unfold _hamming_distance in Hle. lia.
Qed.

(** ** Disambiguation: properties *)

Lemma chars_append s1 s2 : chars (s1 ++ s2)%string = chars s1 ++ chars s2.
Proof. induction s1 as [|c s1 IH]; simpl; [reflexivity | now rewrite IH]. Qed.

Lemma chars_injective s t : chars s = chars t -> s = t.
Proof.
  intros H. rewrite <- (string_of_list_ascii_of_string s), <- (string_of_list_ascii_of_string t).
  unfold chars in H. now rewrite H.
Qed.

Lemma fold_left_app_flat_map {A B : Type} (f : A -> list B) xs : forall init,
  fold_left (fun acc x => acc ++ f x) xs init = init ++ flat_map f xs.
Proof.
  induction xs as [|x xs IH]; intros init; simpl; [now rewrite app_nil_r | ].
  now rewrite IH, app_assoc.
Qed.

Lemma disambiguate_step_flat sequences pos :
  disambiguate_step sequences pos
  = flat_map (fun i => map (append_base i) sequences) (nonzero pos).
Proof. unfold disambiguate_step. now rewrite fold_left_app_flat_map. Qed.

Lemma disambiguate_step_In sequences pos t :
  In t (disambiguate_step sequences pos) <->
  exists s0 b, In s0 sequences /\ In b (col_bases pos) /\ chars t = chars s0 ++ [b].
Proof.
  rewrite disambiguate_step_flat, in_flat_map. unfold col_bases. split.
  - intros [i [Hi Ht]]. apply in_map_iff in Ht as [s0 [<- Hs0]].
    exists s0, (nth i NUCLEOTIDES_STRICT "A"%char). split; [exact Hs0 | ]. split.
    + apply in_map_iff. exists i. auto.
    + unfold append_base. now rewrite chars_append.
  - intros [s0 [b [Hs0 [Hb Ht]]]]. apply in_map_iff in Hb as [i [<- Hi]].
    exists i. split; [exact Hi | ]. apply in_map_iff. exists s0. split; [ | exact Hs0].
    apply chars_injective. unfold append_base. now rewrite chars_append, Ht.
Qed.

Lemma disambiguate_from_In : forall arr sequences t,
  In t (fold_left disambiguate_step arr sequences) <->
  exists s0 suffix, In s0 sequences /\ chars t = chars s0 ++ suffix /\
                    Forall2 (fun col b => In b (col_bases col)) arr suffix.
Proof.
  induction arr as [|col arr IH]; intros sequences t; cbn [fold_left].
  - split.
    + intros Ht. exists t, []. rewrite app_nil_r. repeat split; [exact Ht | constructor].
    + intros [s0 [suffix [Hs0 [Ht Hf]]]]. inversion Hf; subst.
      rewrite app_nil_r in Ht. now rewrite (chars_injective _ _ Ht).
  - rewrite IH. split.
    + intros [s1 [suffix [Hs1 [Ht Hf]]]].
      apply disambiguate_step_In in Hs1 as [s0 [b [Hs0 [Hb Hs1]]]].
      exists s0, (b :: suffix). split; [exact Hs0 | ]. split.
      * rewrite Ht, Hs1, <- app_assoc. reflexivity.
      * now constructor.
    + intros [s0 [suffix [Hs0 [Ht Hf]]]]. inversion Hf as [|col' b arr' suffix' Hb Hf']; subst.
      exists (string_of_list_ascii (chars s0 ++ [b])), suffix'. split; [ | split].
      * apply disambiguate_step_In. exists s0, b. rewrite chars_of_list. auto.
      * rewrite chars_of_list, Ht, <- app_assoc. reflexivity.
      * exact Hf'.
Qed.

(** The strings of [_disambiguate_sequence] are exactly those that take, at
    every column, a strict base named by a true cell of the column. *)
Lemma disambiguate_In arr t :
  In t (_disambiguate_sequence arr) <->
  Forall2 (fun col b => In b (col_bases col)) arr (chars t).
Proof.
  unfold _disambiguate_sequence. rewrite disambiguate_from_In. split.
  - intros [s0 [suffix [[<-|[]] [Ht Hf]]]]. simpl in Ht. now rewrite Ht.
  - intros Hf. exists EmptyString, (chars t). split; [now left | ]. split; [reflexivity | exact Hf].
Qed.

Lemma symbol_column_bases c :
  char_in c NUCLEOTIDES = true ->
  forall b, In b (col_bases (symbol_column c)) <-> In b (bases_of c).
Proof.
  revert c.
  apply (nucleotide_cases
           (fun c => forall b, In b (col_bases (symbol_column c)) <-> In b (bases_of c))).
  repeat (apply Forall_cons; [intros b; simpl; tauto | ]). apply Forall_nil.
Qed.

Lemma disambiguate_encoded_In sequence t :
  valid_sequence sequence = true ->
  (In t (_disambiguate_sequence (encode sequence)) <->
   Forall2 (fun c b => In b (bases_of c)) (upper (chars sequence)) (chars t)).
Proof.
  intros Hv. rewrite disambiguate_In. unfold encode, valid_sequence in *.
  revert Hv. generalize (upper (chars sequence)) as cs. generalize (chars t) as bs.
  intros bs cs. revert bs. induction cs as [|c cs IH]; intros bs Hv.
  - split; intros H; inversion H; constructor.
  - simpl in Hv. apply andb_true_iff in Hv as [Hc Hv]. cbn [map]. split.
    + intros H. inversion H as [|col b arr bs' Hb Hf]; subst. constructor.
      * now apply symbol_column_bases.
      * now apply IH.
    + intros H. inversion H as [|c' b cs' bs' Hb Hf]; subst. constructor.
      * now apply symbol_column_bases.
      * now apply IH.
Qed.

(** Disambiguating the encoding of an accepted sequence yields exactly the
    strings of the same length that have, at every position, one of the strict
    bases the symbol there stands for. *)
Theorem disambiguate_encoded_members sequence t :
  valid_sequence sequence = true ->
  (In t (_disambiguate_sequence (encode sequence)) <->
   Forall2 (fun c b => In b (bases_of c)) (upper (chars sequence)) (chars t)).
Proof. apply disambiguate_encoded_In. Qed.

Lemma disambiguate_encoded_members_witness :
  In "ACG"%string (_disambiguate_sequence (encode "anr")) <->
  Forall2 (fun c b => In b (bases_of c)) (upper (chars "anr")) (chars "ACG").
Proof. apply disambiguate_encoded_members. reflexivity. Defined.

Lemma flat_map_length_const {A B : Type} (f : A -> list B) (n : nat) xs :
  (forall x, List.length (f x) = n) ->
  List.length (flat_map f xs) = (List.length xs * n)%nat.
Proof.
  intros Hf. induction xs as [|x xs IH]; simpl; [reflexivity | ].
  rewrite length_app, Hf, IH. lia.
Qed.

Lemma disambiguate_from_length : forall arr sequences,
  List.length (fold_left disambiguate_step arr sequences)
  = (List.length sequences * product (map (fun col => List.length (col_bases col)) arr))%nat.
Proof.
  induction arr as [|col arr IH]; intros sequences; cbn [fold_left map product fold_right].
  - lia.
  - rewrite IH, disambiguate_step_flat.
    rewrite (flat_map_length_const _ (List.length sequences))
      by (intros i; apply length_map).
    unfold col_bases. rewrite length_map. fold (product (map (fun col0 => List.length
      (map (fun i => nth i NUCLEOTIDES_STRICT "A"%char) (nonzero col0))) arr)).
    unfold col_bases, product. lia.
Qed.

Lemma nonzero_from_spec : forall pos i,
  StronglySorted lt (nonzero_from pos i) /\
  Forall (fun j => (i <= j < i + List.length pos)%nat) (nonzero_from pos i) /\
  Z.of_nat (List.length (nonzero_from pos i)) = bool_sum pos.
Proof.
  induction pos as [|b pos IH]; intros i; cbn [nonzero_from].
  - repeat split; constructor.
  - destruct (IH (S i)) as [Hs [Hr Hc]].
    change (bool_sum (b :: pos)) with (Z.b2z b + bool_sum pos).
    assert (Hr' : Forall (fun j => (i <= j < i + List.length (b :: pos))%nat)
                         (nonzero_from pos (S i))).
    { eapply Forall_impl; [ | exact Hr]. cbn [List.length]. intros j Hj. lia. }
    destruct b; cbn [Z.b2z].
    + split; [ | split].
      * constructor; [exact Hs | ]. eapply Forall_impl; [ | exact Hr]. simpl. intros; lia.
      * constructor; [cbn [List.length]; lia | exact Hr'].
      * cbn [List.length]. lia.
    + split; [exact Hs | ]. split; [exact Hr' | lia].
Qed.

Lemma col_bases_length pos : Z.of_nat (List.length (col_bases pos)) = bool_sum pos.
Proof.
  unfold col_bases, nonzero. rewrite length_map.
  now destruct (nonzero_from_spec pos 0) as [_ [_ H]].
Qed.

Lemma strongly_sorted_lt_NoDup xs : StronglySorted lt xs -> NoDup xs.
Proof.
  induction 1 as [|x xs Hs IH Hall]; constructor; [ | exact IH].
  intros Hin. rewrite Forall_forall in Hall. specialize (Hall x Hin). lia.
Qed.

Lemma col_bases_NoDup pos : List.length pos = 4%nat -> NoDup (col_bases pos).
Proof.
  intros H4. unfold col_bases, nonzero.
  destruct (nonzero_from_spec pos 0) as [Hs [Hr _]].
  apply NoDup_map_NoDup_ForallPairs; [ | now apply strongly_sorted_lt_NoDup].
  intros i j Hi Hj. rewrite Forall_forall in Hr.
  specialize (Hr i Hi) as Hi4. specialize (Hr j Hj) as Hj4. rewrite H4 in Hi4, Hj4.
  destruct i as [|[|[|[|i]]]]; try lia; destruct j as [|[|[|[|j]]]]; try lia;
    simpl; intros E; try reflexivity; discriminate E.
Qed.

Lemma snoc_injective (a b : list ascii) x y : a ++ [x] = b ++ [y] -> a = b /\ x = y.
Proof.
  intros H. apply app_inj_tail in H. exact H.
Qed.

Lemma disambiguate_step_NoDup sequences pos :
  List.length pos = 4%nat -> NoDup sequences -> NoDup (disambiguate_step sequences pos).
Proof.
  intros H4 Hnd. rewrite disambiguate_step_flat.
  pose proof (col_bases_NoDup pos H4) as Hb. unfold col_bases in Hb.
  induction (nonzero pos) as [|i ns IH]; cbn [flat_map]; [constructor | ].
  cbn [map] in Hb. apply NoDup_cons_iff in Hb as [Hnotin Hb].
  apply NoDup_app.
  - apply NoDup_map_NoDup_ForallPairs; [ | exact Hnd].
    intros s t _ _ E. unfold append_base in E.
    apply (f_equal chars) in E. rewrite !chars_append in E.
    apply snoc_injective in E as [E _]. now apply chars_injective.
  - now apply IH.
  - intros t Ht Ht'. apply in_map_iff in Ht as [s [<- Hs]].
    apply in_flat_map in Ht' as [j [Hj Ht']]. apply in_map_iff in Ht' as [s' [E Hs']].
    unfold append_base in E. apply (f_equal chars) in E. rewrite !chars_append in E.
    apply snoc_injective in E as [_ E]. apply Hnotin.
    rewrite <- E. apply in_map_iff. exists j. auto.
Qed.

(** For an array with four rows: [_disambiguate_sequence] returns as many
    strings as the product over the columns of the number of true cells (none
    when some column is all false), and returns no string twice. *)
Theorem disambiguate_count_distinct arr :
  Forall (fun col => List.length col = 4%nat) arr ->
  Z.of_nat (List.length (_disambiguate_sequence arr))
    = fold_right Z.mul 1 (map bool_sum arr) /\
  NoDup (_disambiguate_sequence arr).
Proof.
  intros Hshape. unfold _disambiguate_sequence. split.
  - rewrite disambiguate_from_length. cbn [List.length]. rewrite Nat.mul_1_l.
    clear Hshape. induction arr as [|col arr IH]; [reflexivity | ].
    cbn [map product fold_right] in *. rewrite Nat2Z.inj_mul, col_bases_length.
    unfold product in IH. now rewrite IH.
  - assert (H : forall sequences, NoDup sequences ->
                  NoDup (fold_left disambiguate_step arr sequences)).
    { induction Hshape as [|col arr Hcol _ IH]; intros sequences Hnd; cbn [fold_left];
        [exact Hnd | ].
      apply IH. now apply disambiguate_step_NoDup. }
    apply H. repeat constructor. intros [].
Qed.

Lemma disambiguate_count_distinct_witness :
  Z.of_nat (List.length (_disambiguate_sequence (encode "ANR")))
    = fold_right Z.mul 1 (map bool_sum (encode "ANR")) /\
  NoDup (_disambiguate_sequence (encode "ANR")).
Proof. apply disambiguate_count_distinct. repeat constructor. Defined.

Lemma bases_of_valid c :
  char_in c NUCLEOTIDES = true ->
  forall b, In b (bases_of c) ->
            In b NUCLEOTIDES_STRICT /\ compatible c b = true /\ upper_char b = b.
Proof.
  revert c.
  apply (nucleotide_cases
           (fun c => forall b, In b (bases_of c) ->
                               In b NUCLEOTIDES_STRICT /\ compatible c b = true /\
                               upper_char b = b)).
  repeat (apply Forall_cons;
          [intros b H; simpl in H;
           repeat (destruct H as [H | H];
                   [subst b; split; [simpl; tauto | split; reflexivity] | ]);
           contradiction | ]).
  apply Forall_nil.
Qed.

(** Every string that disambiguation returns for an accepted sequence is at
    Hamming distance 0 from that sequence. *)
Theorem disambiguate_distance_zero sequence t :
  valid_sequence sequence = true ->
  In t (_disambiguate_sequence (encode sequence)) ->
  hamming_distance sequence t = Ok 0.
Proof.
  intros Hv Ht. apply (disambiguate_encoded_In sequence t Hv) in Ht.
  rewrite hamming_distance_closed.
  assert (Hlen : len (chars sequence) = len (chars t)).
  { apply Forall2_length in Ht. unfold len, upper in *. rewrite length_map in Ht. lia. }
  rewrite Hlen, Z.eqb_refl, Hv. cbn [andb].
  unfold valid_sequence in *.
  revert Ht Hv. generalize (upper (chars sequence)) as cs. generalize (chars t) as bs.
  intros bs cs Hf Hv.
  assert (H : forallb (fun c => char_in c NUCLEOTIDES) (upper bs) = true /\
              incompatible_positions cs (upper bs) = 0).
  { induction Hf as [|c b cs bs Hb Hf IH]; [split; reflexivity | ].
    simpl in Hv. apply andb_true_iff in Hv as [Hc Hv].
    destruct (IH Hv) as [IH1 IH2].
    destruct (bases_of_valid c Hc b Hb) as [Hs [Hcomp Hup]].
    cbn [upper map forallb incompatible_positions]. rewrite Hup. split.
    - apply andb_true_iff. split; [ | exact IH1].
      apply char_in_In. unfold NUCLEOTIDES. apply in_or_app. now left.
    - rewrite Hcomp. fold (upper bs). rewrite IH2. reflexivity. }
  destruct H as [H1 H2]. now rewrite H1, H2.
Qed.

Lemma disambiguate_distance_zero_witness :
  hamming_distance "anr" "ACG" = Ok 0.
Proof.
  apply disambiguate_distance_zero; [reflexivity | ].
  vm_compute. tauto.
Defined.

Lemma disambiguate_step_strict sequences c :
  In c NUCLEOTIDES_STRICT ->
  disambiguate_step sequences (symbol_column c)
  = map (fun s => (s ++ String c EmptyString)%string) sequences.
Proof.
  simpl. intros H.
  repeat (destruct H as [H | H]; [subst c; reflexivity | ]). contradiction.
Qed.

Lemma append_empty_r s : (s ++ EmptyString)%string = s.
Proof. induction s as [|c s IH]; simpl; [reflexivity | now rewrite IH]. Qed.

Lemma append_cons_assoc s c u :
  ((s ++ String c EmptyString) ++ u)%string = (s ++ String c u)%string.
Proof. induction s as [|c0 s IH]; simpl; [reflexivity | now rewrite IH]. Qed.

(** Round trip: a sequence of strict bases has exactly one disambiguation,
    the sequence itself in upper case. *)
Theorem disambiguate_strict sequence :
  Forall (fun c => In c NUCLEOTIDES_STRICT) (upper (chars sequence)) ->
  _disambiguate_sequence (encode sequence) = [upper_string sequence].
Proof.
  intros Hs. unfold _disambiguate_sequence, encode, upper_string.
  assert (H : forall cs sequences,
            Forall (fun c => In c NUCLEOTIDES_STRICT) cs ->
            fold_left disambiguate_step (map symbol_column cs) sequences
            = map (fun s => (s ++ string_of_list_ascii cs)%string) sequences).
  { induction cs as [|c cs IH]; intros sequences Hcs; cbn [map fold_left string_of_list_ascii].
    - rewrite <- (map_id sequences) at 1. apply map_ext. intros s.
      now rewrite append_empty_r.
    - inversion Hcs as [|c' cs' Hc Hcs']; subst.
      rewrite (disambiguate_step_strict sequences c Hc), (IH _ Hcs'), map_map.
      apply map_ext. intros s. apply append_cons_assoc. }
  rewrite (H _ _ Hs). reflexivity.
Qed.

Lemma disambiguate_strict_witness :
  _disambiguate_sequence (encode "gattaca") = [upper_string "gattaca"].
Proof. apply disambiguate_strict. apply strict_from_forallb. reflexivity. Defined.

(** ** Consensus caller: further properties *)

Lemma mapM_ok_inv {A B : Type} (f : A -> result B) xs ys :
  mapM f xs = Ok ys -> forall x, In x xs -> exists y, f x = Ok y.
Proof.
  revert ys. induction xs as [|x0 xs IH]; intros ys H x Hx; [contradiction | ].
  simpl in H. destruct (f x0) as [y0|] eqn:E0; [ | discriminate]. simpl in H.
  destruct (mapM f xs) as [ys0|] eqn:E; [ | discriminate].
  destruct Hx as [<-|Hx]; [eauto | eapply IH; eauto].
Qed.

Lemma Forall2_from_combine {A B : Type} (R : A -> B -> Prop) xs ys :
  List.length xs = List.length ys ->
  (forall x y, In (x, y) (combine xs ys) -> R x y) -> Forall2 R xs ys.
Proof.
  revert ys. induction xs as [|x xs IH]; intros [|y ys] Hl H; simpl in Hl;
    try discriminate; constructor.
  - apply H. now left.
  - apply IH; [lia | ]. intros a b Hab. apply H. now right.
Qed.

Lemma consensus_valid_unless_error fuel sequences qualities q_threshold proportion :
  (forall e, call_consensus_rounds fuel sequences qualities q_threshold proportion
             <> Some (Err e)) ->
  valid_consensus_input sequences qualities.
Proof.
  unfold call_consensus_rounds. intros Hout.
  destruct (len sequences =? len qualities) eqn:Hlen; cbn [negb] in Hout;
    [ | exfalso; eapply Hout; reflexivity].
  destruct (existsb _ (combine sequences qualities)) eqn:Hex;
    [exfalso; eapply Hout; reflexivity | ].
  destruct (max_len sequences) as [l|] eqn:Hl; [ | exfalso; eapply Hout; reflexivity].
  destruct (mapM _ sequences) as [sarr|] eqn:Hs; [ | exfalso; eapply Hout; reflexivity].
  destruct (mapM _ qualities) as [qarr|] eqn:Hq; [ | exfalso; eapply Hout; reflexivity].
  apply Z.eqb_eq in Hlen. unfold len in Hlen.
  split; [intros ->; discriminate Hl | ].
  apply Forall2_from_combine; [lia | ].
  intros s q Hsq. split; [ | split].
  - destruct (mapM_ok_inv _ _ _ Hs s (in_combine_l _ _ _ _ Hsq)) as [arr Harr].
    now apply sequence_to_array_closed in Harr as [Hv _].
  - destruct (len (chars s) =? qlen q) eqn:E; [now apply Z.eqb_eq | ].
    exfalso. apply not_true_iff_false in Hex. apply Hex.
    apply existsb_exists. exists (s, q). rewrite E. auto.
  - destruct (mapM_ok_inv _ _ _ Hq q (in_combine_r _ _ _ _ Hsq)) as [arr Harr].
    unfold _qualities_to_array in Harr.
    destruct (_ && _); [discriminate | ].
    destruct (quality_values q) as [values|]; [eauto | discriminate].
Qed.

(** [call_consensus_with_qualities] returns a result exactly on the valid
    inputs: at least one sequence, as many quality inputs as sequences, every
    sequence accepted by the encoder and every quality input of the length of
    its sequence and decodable.  On every other input it raises; the loop
    never runs out of rounds. *)
Theorem consensus_returns_iff_valid sequences qualities q_threshold proportion :
  ((exists out, call_consensus_with_qualities sequences qualities q_threshold proportion
                = Some (Ok out)) <->
   valid_consensus_input sequences qualities) /\
  ((exists out, call_consensus_with_qualities sequences qualities q_threshold proportion
                = Some (Ok out)) \/
   (exists e, call_consensus_with_qualities sequences qualities q_threshold proportion
              = Some (Err e))).
Proof.
  assert (Hvalid : valid_consensus_input sequences qualities ->
                   exists out, call_consensus_with_qualities sequences qualities
                                 q_threshold proportion = Some (Ok out)).
  { intros Hv.
    destruct (call_consensus_rounds_returns sequences qualities q_threshold proportion Hv)
      as [cs [a [r [Hr _]]]].
    exists (cs, a). unfold call_consensus_with_qualities. now rewrite Hr. }
  assert (Hconv : (forall e, call_consensus_with_qualities sequences qualities
                               q_threshold proportion <> Some (Err e)) ->
                  valid_consensus_input sequences qualities).
  { intros Hne. apply (consensus_valid_unless_error (List.length sequences) _ _
                         q_threshold proportion).
    intros e He. apply (Hne e). unfold call_consensus_with_qualities. now rewrite He. }
  split; [split | ].
  - intros [out Hout]. apply Hconv. intros e He. rewrite He in Hout. discriminate.
  - exact Hvalid.
  - destruct (call_consensus_with_qualities sequences qualities q_threshold proportion)
      as [[out|e]|] eqn:E.
    + left. eauto.
    + right. eauto.
    + exfalso. destruct Hvalid as [out Hout]; [ | discriminate Hout].
      apply Hconv. intros e He. discriminate He.
Qed.

Lemma consensus_returns_iff_valid_witness :
  (exists out, call_consensus_with_qualities ["AAAA"; "AT"]%string
                 [QualStr "IIII"; QualArr [40; 40]] 30 (5 # 100) = Some (Ok out)) <->
  valid_consensus_input ["AAAA"; "AT"]%string [QualStr "IIII"; QualArr [40; 40]].
Proof. apply consensus_returns_iff_valid. Defined.

Lemma register_distinct consensus consensuses :
  NoDup consensuses ->
  NoDup (snd (if str_in consensus consensuses
              then (index_of consensus consensuses, consensuses)
              else (List.length consensuses, consensuses ++ [consensus]))).
Proof.
  intros Hnd. destruct (str_in consensus consensuses) eqn:E; [exact Hnd | ].
  cbn [snd]. apply NoDup_app; [exact Hnd | repeat constructor; intros [] | ].
  intros c Hc [Ec|[]]. subst c. apply not_true_iff_false in E. apply E.
  unfold str_in. apply existsb_exists. exists consensus.
  split; [exact Hc | apply String.eqb_refl].
Qed.

Lemma consensus_loop_distinct thresh : forall fuel cs a it seqs quals cs' a' r,
  NoDup cs ->
  consensus_loop fuel thresh cs a it seqs quals = Some (Ok (cs', a', r)) ->
  NoDup cs'.
Proof.
  induction fuel as [|fuel IH]; intros cs a it seqs quals cs' a' r Hnd H; [discriminate | ].
  cbn [consensus_loop] in H.
  destruct (_call_consensus seqs quals thresh) as [[c assigned]|e]; [ | discriminate].
  pose proof (register_distinct c cs Hnd) as Hnd2.
  destruct (if str_in c cs then _ else _) as [label cs2]. cbn [snd] in Hnd2.
  destruct (forallb _ assigned).
  - inversion H; subst. exact Hnd2.
  - destruct (consensus_loop fuel _ _ _ _ _ _) as [[[[cs3 a3] r3]|e]|] eqn:E; try discriminate.
    inversion H; subst. eapply IH; eauto.
Qed.

(** The consensus strings of a result are pairwise distinct. *)
Theorem consensuses_distinct sequences qualities q_threshold proportion consensuses assignments :
  call_consensus_with_qualities sequences qualities q_threshold proportion
    = Some (Ok (consensuses, assignments)) ->
  NoDup consensuses.
Proof.
  unfold call_consensus_with_qualities, call_consensus_rounds.
  destruct (negb _); [discriminate | ].
  destruct (existsb _ _); [discriminate | ].
  destruct (max_len sequences) as [l|]; [ | discriminate].
  destruct (mapM _ sequences) as [sarr|]; [ | discriminate].
  destruct (mapM _ qualities) as [qarr|]; [ | discriminate].
  destruct (consensus_loop _ _ _ _ _ _ _) as [[[[cs a] r]|e]|] eqn:E; try discriminate.
  intros H. inversion H; subst.
  eapply consensus_loop_distinct; [ | exact E]. constructor.
Qed.

Lemma consensuses_distinct_witness :
  NoDup ["ATAA"; "CCCC"; "AAAA"; "GGAA"]%string.
Proof.
  apply (consensuses_distinct
           ["AAAA"; "AT"; "CCCC"; "CCCG"; "GG"]%string
           [QualArr [40; 40; 40; 40]; QualArr [40; 40]; QualArr [40; 40; 40; 40];
            QualArr [40; 40; 40; 40]; QualArr [40; 40]] 30 (5 # 100)
           ["ATAA"; "CCCC"; "AAAA"; "GGAA"]%string [2; 0; 1; 1; 3]).
  vm_compute. reflexivity.
Defined.

Lemma select_NoDup {A : Type} mask (xs : list A) : NoDup xs -> NoDup (select mask xs).
Proof.
  revert xs. induction mask as [|m mask IH]; intros [|x xs] H; simpl; try constructor.
  apply NoDup_cons_iff in H as [Hx H]. destruct m; [ | now apply IH].
  constructor; [ | now apply IH]. intros Hin. apply Hx. eapply select_In; eauto.
Qed.

Lemma select_disjoint {A : Type} mask (xs : list A) x :
  NoDup xs -> In x (select mask xs) -> ~ In x (select (map negb mask) xs).
Proof.
  revert xs. induction mask as [|m mask IH]; intros [|y xs] Hnd Hin; simpl in *;
    try contradiction.
  apply NoDup_cons_iff in Hnd as [Hy Hnd]. destruct m; simpl in *.
  - destruct Hin as [->|Hin].
    + intros H. apply Hy. eapply select_In; eauto.
    + now apply IH.
  - intros [->|H].
    + apply Hy. eapply select_In; eauto.
    + revert H. now apply IH.
Qed.

Lemma call_consensus_empty quals thresh : exists e, _call_consensus [] quals thresh = Err e.
Proof. eexists. reflexivity. Qed.

(** The loop leaves no cluster without a read: every registered id labels
    a read that has left the pool. *)
Lemma consensus_loop_clusters_used (N : nat) thresh :
  forall fuel cs a it seqs quals cs' a' r,
    List.length seqs = List.length it -> List.length quals = List.length it ->
    List.length a = N -> NoDup it -> Forall (fun j => (j < N)%nat) it ->
    (forall id, (id < List.length cs)%nat ->
                exists j, (j < N)%nat /\ nth j a (-1) = Z.of_nat id /\ ~ In j it) ->
    consensus_loop fuel thresh cs a it seqs quals = Some (Ok (cs', a', r)) ->
    forall id, (id < List.length cs')%nat ->
               exists j, (j < N)%nat /\ nth j a' (-1) = Z.of_nat id.
Proof.
  induction fuel as [|fuel IH];
    intros cs a it seqs quals cs' a' r Hs Hq Ha Hnd Hlt Hinv H; [discriminate | ].
  destruct (call_consensus_assigns seqs quals thresh) as [c [assigned [Hc [Hlen Hex]]]].
  { intros E. cbn [consensus_loop] in H. rewrite E in H.
    destruct (call_consensus_empty quals thresh) as [e He]. rewrite He in H. discriminate. }
  { congruence. }
  cbn [consensus_loop] in H. rewrite Hc in H.
  set (lc := if str_in c cs then (index_of c cs, cs) else (List.length cs, cs ++ [c])) in *.
  assert (Hlc : (fst lc < List.length (snd lc))%nat /\
                forall id, (id < List.length (snd lc))%nat ->
                           id = fst lc \/ (id < List.length cs)%nat).
  { unfold lc. destruct (str_in c cs) eqn:Hin; cbn [fst snd].
    - split; [now apply index_of_lt | auto].
    - rewrite length_app. cbn [List.length]. split; [lia | intros id Hid; lia]. }
  destruct lc as [label cs2]. cbn [fst snd] in Hlc. destruct Hlc as [Hlabel Hids].
  set (a2 := fold_left (fun a0 i => update i (Z.of_nat label) a0) (select assigned it) a) in *.
  assert (Ha2 : List.length a2 = N) by (unfold a2; now rewrite assign_length).
  assert (Hal : List.length assigned = List.length it) by congruence.
  assert (Hinv2 : forall id, (id < List.length cs2)%nat ->
            exists j, (j < N)%nat /\ nth j a2 (-1) = Z.of_nat id /\
                      ~ In j (select (map negb assigned) it)).
  { intros id Hid. destruct (Nat.eq_dec id label) as [->|Hne].
    - assert (Hsome : exists j0, In j0 (select assigned it)).
      { pose proof (select_some assigned it Hal Hex) as Hsel.
        destruct (select assigned it) as [|j0 sel]; [congruence | ].
        exists j0. now left. }
      destruct Hsome as [j0 Hj0].
      assert (Hj0N : (j0 < N)%nat).
      { rewrite Forall_forall in Hlt. apply Hlt. eapply select_In; eauto. }
      exists j0. split; [exact Hj0N | ]. split.
      + destruct (assign_nth (Z.of_nat label) (select assigned it) a j0) as [[_ E]|[Hn _]];
          [lia | | contradiction].
        unfold a2. exact E.
      + now apply select_disjoint.
    - destruct (Hids id Hid) as [->|Hold]; [congruence | ].
      destruct (Hinv id Hold) as [j [HjN [Hj Hnin]]].
      exists j. split; [exact HjN | ]. split.
      + destruct (assign_nth (Z.of_nat label) (select assigned it) a j) as [[Hin _]|[_ E]];
          [lia | | ].
        * exfalso. apply Hnin. eapply select_In; eauto.
        * unfold a2. now rewrite E.
      + intros Hin. apply Hnin. eapply select_In; eauto. }
  destruct (forallb (fun b => b) assigned).
  - inversion H; subst. intros id Hid.
    destruct (Hinv2 id Hid) as [j [HjN [Hj _]]]. eauto.
  - destruct (consensus_loop fuel _ _ _ _ _ _) as [[[[cs3 a3] r3]|e]|] eqn:E; try discriminate.
    inversion H; subst.
    eapply (IH cs2 a2 _ _ _ cs' a' r3); try exact E; try exact Hinv2; try exact Ha2.
    + now apply select_length_same.
    + now apply select_length_same.
    + now apply select_NoDup.
    + apply Forall_forall. intros j Hj. rewrite Forall_forall in Hlt.
      apply Hlt. eapply select_In; eauto.
Qed.

Lemma consensus_loop_length thresh : forall fuel cs a it seqs quals cs' a' r,
  consensus_loop fuel thresh cs a it seqs quals = Some (Ok (cs', a', r)) ->
  List.length a' = List.length a.
Proof.
  induction fuel as [|fuel IH]; intros cs a it seqs quals cs' a' r H; [discriminate | ].
  cbn [consensus_loop] in H.
  destruct (_call_consensus seqs quals thresh) as [[c assigned]|e]; [ | discriminate].
  destruct (if str_in c cs then _ else _) as [label cs2].
  destruct (forallb _ assigned).
  - inversion H; subst. apply assign_length.
  - destruct (consensus_loop fuel _ _ _ _ _ _) as [[[[cs3 a3] r3]|e]|] eqn:E; try discriminate.
    inversion H; subst. rewrite (IH _ _ _ _ _ _ _ _ E). apply assign_length.
Qed.

Lemma count_occ_positive (a : list Z) (x : Z) j :
  (j < List.length a)%nat -> nth j a (-1) = x -> (1 <= count_occ Z.eq_dec a x)%nat.
Proof.
  intros Hj Hx. apply count_occ_In. rewrite <- Hx. now apply nth_In.
Qed.

(** No cluster of a result is empty: every cluster id is assigned to at
    least one read. *)
Theorem consensus_clusters_nonempty sequences qualities q_threshold proportion
        consensuses assignments :
  call_consensus_with_qualities sequences qualities q_threshold proportion
    = Some (Ok (consensuses, assignments)) ->
  forall i, (i < List.length consensuses)%nat -> (1 <= cluster_size assignments i)%nat.
Proof.
  unfold call_consensus_with_qualities, call_consensus_rounds.
  destruct (len sequences =? len qualities) eqn:Hlen; cbn [negb]; [ | discriminate].
  destruct (existsb _ _); [discriminate | ].
  destruct (max_len sequences) as [l|]; [ | discriminate].
  destruct (mapM _ sequences) as [sarr|] eqn:Hs; [ | discriminate].
  destruct (mapM _ qualities) as [qarr|] eqn:Hq; [ | discriminate].
  destruct (consensus_loop _ _ _ _ _ _ _) as [[[[cs a] r]|e]|] eqn:E; try discriminate.
  intros H i Hi. inversion H; subst. clear H.
  apply mapM_length in Hs. apply mapM_length in Hq.
  apply Z.eqb_eq in Hlen. unfold len in Hlen.
  assert (Ha : List.length assignments = List.length sequences).
  { rewrite (consensus_loop_length _ _ _ _ _ _ _ _ _ _ E). apply repeat_length. }
  destruct (consensus_loop_clusters_used (List.length sequences)
              (inject_Z q_threshold * (inject_Z l * proportion))%Q
              (List.length sequences) [] (repeat (-1) (List.length sequences))
              (seq 0 (List.length sequences)) sarr qarr consensuses assignments r)
    with (id := i) as [j [Hj Hnth]]; try assumption.
  - rewrite length_seq. exact Hs.
  - rewrite length_seq. lia.
  - apply repeat_length.
  - apply seq_NoDup.
  - apply Forall_forall. intros j Hj. apply in_seq in Hj. lia.
  - cbn [List.length]. intros id Hid. lia.
  - unfold cluster_size. apply (count_occ_positive assignments _ j); [lia | exact Hnth].
Qed.

Lemma consensus_clusters_nonempty_witness :
  call_consensus_with_qualities
    ["AAAA"; "AT"; "CCCC"; "CCCG"; "GG"]%string
    [QualArr [40; 40; 40; 40]; QualArr [40; 40]; QualArr [40; 40; 40; 40];
     QualArr [40; 40; 40; 40]; QualArr [40; 40]] 30 (5 # 100)
  = Some (Ok (["ATAA"; "CCCC"; "AAAA"; "GGAA"]%string, [2; 0; 1; 1; 3])) /\
  (forall i, (i < List.length ["ATAA"; "CCCC"; "AAAA"; "GGAA"]%string)%nat ->
             (1 <= cluster_size [2; 0; 1; 1; 3]%Z i)%nat).
Proof.
  split; [vm_compute; reflexivity | ].
  apply (consensus_clusters_nonempty
           ["AAAA"; "AT"; "CCCC"; "CCCG"; "GG"]%string
           [QualArr [40; 40; 40; 40]; QualArr [40; 40]; QualArr [40; 40; 40; 40];
            QualArr [40; 40; 40; 40]; QualArr [40; 40]] 30 (5 # 100)).
  vm_compute. reflexivity.
Defined.

Lemma add_where_length : forall pp qual seq,
  List.length (add_where pp qual seq) = List.length pp.
Proof.
  induction pp as [|pcol pp IH]; intros [|q qual] [|scol seq]; simpl; auto.
Qed.

Lemma positional_probs_length sequences qualities pp :
  _calculate_positional_probs sequences qualities = Ok pp ->
  exists s0, In s0 sequences /\ List.length pp = List.length s0.
Proof.
  destruct sequences as [|s0 rest]; [discriminate | ].
  unfold _calculate_positional_probs. intros H. inversion H; subst; clear H.
  exists s0. split; [now left | ].
  assert (Hfold : forall items pp0,
            List.length (fold_left (fun pp1 '(seq, qual) => add_where pp1 qual seq) items pp0)
            = List.length pp0).
  { induction items as [|[seq qual] items IH]; intros pp0; simpl; [reflexivity | ].
    now rewrite IH, add_where_length. }
  rewrite Hfold. apply length_map.
Qed.

Lemma most_likely_shape pp :
  List.length (chars (_most_likely_sequence pp)) = List.length pp /\
  Forall (fun c => In c NUCLEOTIDES_STRICT) (chars (_most_likely_sequence pp)).
Proof.
  unfold _most_likely_sequence, argmax0. rewrite chars_of_list. split.
  - now rewrite !length_map.
  - apply Forall_forall. intros c Hc. apply in_map_iff in Hc as [i [<- _]].
    destruct i as [|[|[|[|[|i]]]]]; simpl; auto 10.
Qed.

Lemma call_consensus_shape (L : nat) seqs quals thresh consensus assigned :
  Forall (fun s => List.length s = L) seqs ->
  _call_consensus seqs quals thresh = Ok (consensus, assigned) ->
  List.length (chars consensus) = L /\
  Forall (fun c => In c NUCLEOTIDES_STRICT) (chars consensus).
Proof.
  intros Hshape H. rewrite Forall_forall in Hshape.
  destruct seqs as [|s0 [|s1 rest]].
  - discriminate.
  - cbn in H. inversion H; subst.
    destruct (most_likely_shape (as_int s0)) as [Hl Hs]. split; [ | exact Hs].
    rewrite Hl. unfold as_int. rewrite length_map. apply Hshape. now left.
  - set (seqs := s0 :: s1 :: rest) in *. unfold _call_consensus in H. fold seqs in H.
    change (match seqs with
            | [s] => Ok (_most_likely_sequence (as_int s), [true])
            | _ => ?k end) with k in H.
    destruct (_calculate_positional_probs seqs quals) as [pp|]; [ | discriminate].
    cbn [bind] in H. destruct (zmin _) as [m|]; [ | discriminate]. cbn [bind] in H.
    match type of H with
    | context [_calculate_positional_probs ?x ?y] =>
        destruct (_calculate_positional_probs x y) as [pp2|] eqn:Hpp2; [ | discriminate]
    end.
    cbn [bind] in H. inversion H; subst.
    destruct (most_likely_shape pp2) as [Hl Hs]. split; [ | exact Hs].
    destruct (positional_probs_length _ _ _ Hpp2) as [s [Hin Hlen]].
    rewrite Hl, Hlen. apply Hshape. eapply select_In; eauto.
Qed.

Lemma select_Forall {A : Type} (P : A -> Prop) mask xs :
  Forall P xs -> Forall P (select mask xs).
Proof.
  intros H. apply Forall_forall. intros x Hx. rewrite Forall_forall in H.
  apply H. eapply select_In; eauto.
Qed.

Lemma consensus_loop_shape (L : nat) thresh (P : string -> Prop) :
  (forall seqs quals c assigned,
      Forall (fun s => List.length s = L) seqs ->
      _call_consensus seqs quals thresh = Ok (c, assigned) -> P c) ->
  forall fuel cs a it seqs quals cs' a' r,
    Forall (fun s => List.length s = L) seqs -> Forall P cs ->
    consensus_loop fuel thresh cs a it seqs quals = Some (Ok (cs', a', r)) ->
    Forall P cs'.
Proof.
  intros HP. induction fuel as [|fuel IH];
    intros cs a it seqs quals cs' a' r Hshape Hcs H; [discriminate | ].
  cbn [consensus_loop] in H.
  destruct (_call_consensus seqs quals thresh) as [[c assigned]|e] eqn:Hc; [ | discriminate].
  assert (Hcs2 : Forall P (snd (if str_in c cs then (index_of c cs, cs)
                                else (List.length cs, cs ++ [c])))).
  { destruct (str_in c cs); cbn [snd]; [exact Hcs | ].
    apply Forall_app. split; [exact Hcs | ]. constructor; [ | constructor].
    eapply HP; eauto. }
  destruct (if str_in c cs then _ else _) as [label cs2]. cbn [snd] in Hcs2.
  destruct (forallb _ assigned).
  - inversion H; subst. exact Hcs2.
  - destruct (consensus_loop fuel _ _ _ _ _ _) as [[[[cs3 a3] r3]|e]|] eqn:E; try discriminate.
    inversion H; subst. eapply IH; [ | exact Hcs2 | exact E].
    now apply select_Forall.
Qed.

(** Every consensus string of a result has the length of the longest input
    sequence and consists of the strict bases A, C, G, T only. *)
Theorem consensus_strings_shape sequences qualities q_threshold proportion
        consensuses assignments :
  call_consensus_with_qualities sequences qualities q_threshold proportion
    = Some (Ok (consensuses, assignments)) ->
  exists l, max_len sequences = Ok l /\
            forall c, In c consensuses ->
                      len (chars c) = l /\ Forall (fun x => In x NUCLEOTIDES_STRICT) (chars c).
Proof.
  unfold call_consensus_with_qualities, call_consensus_rounds.
  destruct (negb _); [discriminate | ].
  destruct (existsb _ _); [discriminate | ].
  destruct (max_len sequences) as [l|] eqn:Hl; [ | discriminate].
  destruct (mapM _ sequences) as [sarr|] eqn:Hs; [ | discriminate].
  destruct (mapM _ qualities) as [qarr|]; [ | discriminate].
  destruct (consensus_loop _ _ _ _ _ _ _) as [[[[cs a] r]|e]|] eqn:E; try discriminate.
  intros H. inversion H; subst. clear H. exists l. split; [reflexivity | ].
  assert (Hne : sequences <> []) by (intros ->; discriminate Hl).
  destruct (max_len_spec sequences Hne) as [l' [Hl' [Hl0 Hmax]]].
  rewrite Hl in Hl'. inversion Hl'; subst l'.
  assert (Hshape : Forall (fun s => List.length s = Z.to_nat l) sarr).
  { apply Forall_forall. intros arr Harr.
    assert (Hex : exists s, In s sequences /\ _sequence_to_array s (Some l) = Ok arr).
    { clear - Hs Harr. revert sarr Hs Harr.
      induction sequences as [|s0 rest IH]; intros sarr Hs Harr; simpl in Hs.
      - inversion Hs; subst. contradiction.
      - destruct (_sequence_to_array s0 (Some l)) as [a0|] eqn:E0; [ | discriminate].
        simpl in Hs. destruct (mapM _ rest) as [arrs|] eqn:E1; [ | discriminate].
        simpl in Hs. inversion Hs; subst. destruct Harr as [<-|Harr].
        + exists s0. split; [now left | exact E0].
        + destruct (IH arrs eq_refl Harr) as [s [Hin Hs']]. exists s. split; [now right | exact Hs']. }
    destruct Hex as [s [Hin Harr']].
    apply sequence_to_array_closed in Harr' as [_ [pad [_ Hw]]].
    specialize (Hmax s Hin). unfold l_or in Hw.
    assert (Hul : len (upper (chars s)) = len (chars s))
      by (unfold len, upper; now rewrite length_map).
    destruct (Z.eqb_spec l 0); unfold len in *; lia. }
  pose proof (consensus_loop_shape (Z.to_nat l) _
                (fun c => len (chars c) = l /\ Forall (fun x => In x NUCLEOTIDES_STRICT) (chars c))
                ltac:(intros seqs quals c assigned Hsh Hc;
                      destruct (call_consensus_shape _ _ _ _ _ _ Hsh Hc) as [H1 H2];
                      split; [unfold len; lia | exact H2])
                _ _ _ _ _ _ _ _ _ Hshape (Forall_nil _) E) as Hall.
  rewrite Forall_forall in Hall. exact Hall.
Qed.

Lemma consensus_strings_shape_witness :
  exists l, max_len ["AAAA"; "AT"; "CCCC"; "CCCG"; "GG"]%string = Ok l /\
            forall c, In c ["ATAA"; "CCCC"; "AAAA"; "GGAA"]%string ->
                      len (chars c) = l /\ Forall (fun x => In x NUCLEOTIDES_STRICT) (chars c).
Proof.
  apply (consensus_strings_shape
           ["AAAA"; "AT"; "CCCC"; "CCCG"; "GG"]%string
           [QualArr [40; 40; 40; 40]; QualArr [40; 40]; QualArr [40; 40; 40; 40];
            QualArr [40; 40; 40; 40]; QualArr [40; 40]] 30 (5 # 100)
           ["ATAA"; "CCCC"; "AAAA"; "GGAA"]%string [2; 0; 1; 1; 3]).
  vm_compute. reflexivity.
Defined.

Lemma argmax_from_monotone (f : Z -> Z) :
  (forall x y, (f x <? f y) = (x <? y)) ->
  forall xs i bi b, argmax_from (map f xs) i bi (f b) = argmax_from xs i bi b.
Proof.
  intros Hf. induction xs as [|x xs IH]; intros i bi b; cbn [map argmax_from]; [reflexivity | ].
  rewrite Hf. destruct (b <? x); apply IH.
Qed.

Lemma argmax_scaled (total : Z) (col : list bool) :
  0 < total ->
  argmax (map (fun s : bool => if s then total else 0) col) = argmax (map Z.b2z col).
Proof.
  intros Hpos.
  assert (Hf : forall x y : bool,
            ((if x then total else 0) <? (if y then total else 0))
            = (Z.b2z x <? Z.b2z y)).
  { intros [] []; cbn [Z.b2z]; apply eq_true_iff_eq; rewrite !Z.ltb_lt; lia. }
  assert (H : forall xs (s : bool) (i bi : nat),
            argmax_from (map (fun s0 : bool => if s0 then total else 0) xs) i bi
                        (if s then total else 0)
            = argmax_from (map Z.b2z xs) i bi (Z.b2z s)).
  { induction xs as [|x xs IH]; intros s i bi; cbn [map argmax_from]; [reflexivity | ].
    rewrite Hf. destruct (Z.b2z s <? Z.b2z x); apply IH. }
  destruct col as [|s col]; [reflexivity | ]. cbn [map argmax]. apply H.
Qed.

Lemma zsum_select_zero (flags : list bool) (q : list Z) :
  (forall pos, nth pos flags false = true -> nth pos q 0 = 0) ->
  zsum (select flags q) = 0.
Proof.
  revert q. induction flags as [|f flags IH]; intros [|v q] H; try reflexivity.
  cbn [select]. assert (Hrest : zsum (select flags q) = 0).
  { apply IH. intros pos Hp. apply (H (S pos)). exact Hp. }
  destruct f; [ | exact Hrest].
  cbn [zsum fold_right]. fold (zsum (select flags q)).
  rewrite Hrest. specialize (H 0%nat eq_refl). simpl in H. lia.
Qed.

(** With scores that dominate the read's own qualities, a read pays nothing
    against the provisional consensus of its own score matrix. *)
Lemma mismatch_cost_own_scores : forall seq totals q,
  Forall2 (fun total v => 0 <= v <= total) totals q ->
  mismatch_cost (argmax0 (scores totals seq)) seq q = 0.
Proof.
  intros seq totals q Hdom. unfold mismatch_cost. apply zsum_select_zero.
  revert seq. induction Hdom as [|total v totals q Hv Hdom IH]; intros seq pos Hflag.
  - destruct pos; reflexivity.
  - destruct seq as [|col seq]; [destruct pos; discriminate Hflag | ].
    destruct pos as [|pos].
    + cbn in Hflag. cbn [nth].
      destruct (Z.eq_dec total 0) as [E|E]; [lia | ].
      rewrite argmax_scaled in Hflag by lia.
      rewrite Nat.eqb_refl in Hflag. discriminate.
    + cbn [nth]. apply (IH seq pos). exact Hflag.
Qed.

Lemma Forall2_le_trans a b c :
  Forall2 Z.le a b -> Forall2 Z.le b c -> Forall2 Z.le a c.
Proof.
  intros Hab. revert c. induction Hab as [|x y a b Hxy _ IH]; intros c Hbc;
    inversion Hbc; subst; constructor; [lia | auto].
Qed.

Lemma add_dominates : forall acc q,
  List.length q = List.length acc -> Forall (fun v => 0 <= v) acc -> Forall (fun v => 0 <= v) q ->
  Forall2 Z.le acc (map2 Z.add acc q) /\ Forall2 Z.le q (map2 Z.add acc q) /\
  Forall (fun v => 0 <= v) (map2 Z.add acc q) /\
  List.length (map2 Z.add acc q) = List.length acc.
Proof.
  induction acc as [|x acc IH]; intros [|v q] Hl Ha Hq; simpl in Hl; try discriminate.
  - repeat split; constructor.
  - inversion Ha; subst. inversion Hq; subst.
    destruct (IH q ltac:(lia) ltac:(assumption) ltac:(assumption)) as [D1 [D2 [D3 D4]]].
    cbn [map2 List.length]. repeat split; try constructor; try assumption; lia.
Qed.

Lemma totals_dominate (L : nat) : forall quals acc,
  List.length acc = L -> Forall (fun v => 0 <= v) acc ->
  Forall (fun q => List.length q = L /\ Forall (fun v => 0 <= v) q) quals ->
  let totals := fold_left (map2 Z.add) quals acc in
  Forall2 Z.le acc totals /\ (forall q, In q quals -> Forall2 Z.le q totals).
Proof.
  induction quals as [|q0 quals IH]; intros acc Hl Ha Hq; cbn [fold_left].
  - split; [ | intros q []]. clear. induction acc; constructor; [lia | assumption].
  - inversion Hq as [|q0' quals' [Hq0l Hq0] Hrest]; subst.
    destruct (add_dominates acc q0 ltac:(lia) Ha Hq0) as [H1 [H2 [H3 H4]]].
    destruct (IH (map2 Z.add acc q0) ltac:(lia) H3 Hrest) as [IH1 IH2].
    split; [eapply Forall2_le_trans; eauto | ].
    intros q [<-|Hin]; [eapply Forall2_le_trans; eauto | now apply IH2].
Qed.

Lemma scores_zero (seq : matrix bool) :
  map (map (fun _ => 0)) seq = scores (repeat 0 (List.length seq)) seq.
Proof.
  unfold scores. induction seq as [|col seq IH]; [reflexivity | ].
  cbn [map List.length repeat map2]. rewrite IH. f_equal.
  apply map_ext. intros []; reflexivity.
Qed.

Lemma add_where_scores : forall seq totals q,
  List.length totals = List.length seq -> List.length q = List.length seq ->
  add_where (scores totals seq) q seq = scores (map2 Z.add totals q) seq.
Proof.
  unfold scores. induction seq as [|col seq IH]; intros [|t totals] [|v q] Ht Hq;
    simpl in Ht, Hq; try discriminate; [reflexivity | ].
  cbn [map2 add_where]. rewrite IH by lia. f_equal.
  clear. induction col as [|s col IHc]; [reflexivity | ].
  cbn [map map2]. rewrite IHc. destruct s; reflexivity.
Qed.

Lemma map2_add_length : forall (a b : list Z),
  List.length b = List.length a -> List.length (map2 Z.add a b) = List.length a.
Proof.
  induction a as [|x a IH]; intros [|y b] H; simpl in *; try discriminate; auto.
Qed.

Lemma positional_probs_fold_identical (seq : matrix bool) : forall quals totals,
  List.length totals = List.length seq ->
  Forall (fun q => List.length q = List.length seq) quals ->
  fold_left (fun pp '(s, qual) => add_where pp qual s)
            (combine (repeat seq (List.length quals)) quals) (scores totals seq)
  = scores (fold_left (map2 Z.add) quals totals) seq.
Proof.
  induction quals as [|q quals IH]; intros totals Ht Hq; [reflexivity | ].
  inversion Hq; subst. cbn [List.length repeat combine fold_left].
  rewrite add_where_scores by lia. apply IH; [ | assumption].
  rewrite map2_add_length; lia.
Qed.

Lemma positional_probs_identical (seq : matrix bool) quals :
  quals <> [] ->
  Forall (fun q => List.length q = List.length seq) quals ->
  _calculate_positional_probs (repeat seq (List.length quals)) quals
  = Ok (scores (fold_left (map2 Z.add) quals (repeat 0 (List.length seq))) seq).
Proof.
  intros Hne Hq. destruct quals as [|q0 quals]; [congruence | ].
  unfold _calculate_positional_probs. cbn [List.length repeat].
  rewrite scores_zero.
  change (seq :: repeat seq (List.length quals))
    with (repeat seq (List.length (q0 :: quals))).
  rewrite positional_probs_fold_identical; [reflexivity | apply repeat_length | exact Hq].
Qed.

Lemma select_all_true {A : Type} (xs : list A) :
  select (repeat true (List.length xs)) xs = xs.
Proof. induction xs as [|x xs IH]; simpl; [reflexivity | now rewrite IH]. Qed.

Lemma select_all_true_len {A : Type} (xs : list A) n :
  List.length xs = n -> select (repeat true n) xs = xs.
Proof. intros <-. apply select_all_true. Qed.

Lemma fold_min_zero n : fold_left Z.min (repeat 0 n) 0 = 0.
Proof. induction n as [|n IH]; simpl; [reflexivity | exact IH]. Qed.

Lemma dominated_between totals q :
  Forall (fun v => 0 <= v) q -> Forall2 Z.le q totals ->
  Forall2 (fun total v => 0 <= v <= total) totals q.
Proof.
  intros Hq Hle. induction Hle as [|v t q totals Hvt _ IH]; [constructor | ].
  inversion Hq; subst. constructor; [lia | auto].
Qed.

Lemma costs_all_zero (ci : list nat) (seq : matrix bool) : forall qs,
  (forall q, In q qs -> mismatch_cost ci seq q = 0) ->
  map (fun '(s, qual) => mismatch_cost ci s qual) (combine (repeat seq (List.length qs)) qs)
  = repeat 0 (List.length qs).
Proof.
  induction qs as [|q qs IH]; intros Hdom; [reflexivity | ].
  cbn [List.length repeat combine map]. rewrite (Hdom q (or_introl eq_refl)).
  f_equal. apply IH. intros q' Hq'. apply Hdom. now right.
Qed.

(** One round on a pool of identical reads assigns every member. *)
Lemma call_consensus_identical (seq : matrix bool) quals thresh :
  quals <> [] ->
  Forall (fun q => List.length q = List.length seq /\ Forall (fun v => 0 <= v) q) quals ->
  exists consensus,
    _call_consensus (repeat seq (List.length quals)) quals thresh
    = Ok (consensus, repeat true (List.length quals)).
Proof.
  intros Hne Hq.
  assert (Hlen : Forall (fun q => List.length q = List.length seq) quals)
    by (eapply Forall_impl; [ | exact Hq]; intros q [H _]; exact H).
  destruct quals as [|q0 [|q1 quals]]; [congruence | eexists; reflexivity | ].
  set (qs := q0 :: q1 :: quals) in *.
  set (n := List.length qs).
  assert (Hn : repeat seq n = seq :: seq :: repeat seq (List.length quals)) by reflexivity.
  unfold _call_consensus. rewrite Hn.
  change (match seq :: seq :: repeat seq (List.length quals) with
          | [s] => Ok (_most_likely_sequence (as_int s), [true])
          | _ => ?k end) with k.
  rewrite <- Hn. unfold n. rewrite (positional_probs_identical seq qs Hne Hlen).
  cbn [bind].
  set (totals := fold_left (map2 Z.add) qs (repeat 0 (List.length seq))).
  assert (Hdom : forall q, In q qs -> mismatch_cost (argmax0 (scores totals seq)) seq q = 0).
  { intros q Hin. apply mismatch_cost_own_scores.
    destruct (totals_dominate (List.length seq) qs (repeat 0 (List.length seq))) as [_ Hd].
    - apply repeat_length.
    - apply Forall_forall. intros v Hv. apply repeat_spec in Hv. lia.
    - exact Hq.
    - rewrite Forall_forall in Hq. apply dominated_between; [apply (Hq q Hin) | now apply Hd]. }
  assert (Hprobs : map (fun '(s, qual) => mismatch_cost (argmax0 (scores totals seq)) s qual)
                       (combine (repeat seq (List.length qs)) qs)
                   = repeat 0 (List.length qs)).
  { apply costs_all_zero. exact Hdom. }
  rewrite Hprobs.
  assert (Hmin : zmin (repeat 0 (List.length qs)) = Ok 0).
  { unfold qs. cbn [List.length].
    change (repeat 0 (S (S (List.length quals))))
      with (0 :: repeat 0 (S (List.length quals))).
    unfold zmin. f_equal. apply fold_min_zero. }
  rewrite Hmin. cbn [bind].
  assert (Hassigned : map (fun p => Qle_bool (inject_Z p) (py_max thresh 0))
                          (repeat 0 (List.length qs))
                      = repeat true (List.length qs)).
  { rewrite map_repeat. f_equal. apply Qle_bool_iff, py_max_ge. }
  rewrite Hassigned.
  rewrite (select_all_true_len (repeat seq (List.length qs))) by apply repeat_length.
  rewrite select_all_true.
  rewrite (positional_probs_identical seq qs Hne Hlen). cbn [bind].
  eexists. reflexivity.
Qed.

Lemma assign_all (v d : Z) n :
  fold_left (fun a i => update i v a) (seq 0 n) (repeat d n) = repeat v n.
Proof.
  apply (nth_ext _ _ (-1) (-1)).
  - now rewrite assign_length, !repeat_length.
  - intros j Hj. rewrite assign_length, repeat_length in Hj.
    rewrite nth_repeat_lt by exact Hj.
    destruct (assign_nth v (seq 0 n) (repeat d n) j) as [[_ E]|[Hn _]].
    + now rewrite repeat_length.
    + exact E.
    + exfalso. apply Hn. apply in_seq. lia.
Qed.

Lemma forallb_repeat_true n : forallb (fun b : bool => b) (repeat true n) = true.
Proof. induction n; simpl; auto. Qed.

Lemma max_len_repeat s n : max_len (repeat s (S n)) = Ok (len (chars s)).
Proof.
  cbn [repeat max_len]. f_equal.
  induction n as [|n IH]; cbn [repeat fold_left]; [reflexivity | ].
  now rewrite Z.max_id.
Qed.

Lemma quality_values_nonneg q values :
  quality_values q = Ok values -> Forall (fun v => 0 <= v) values.
Proof.
  assert (H : forall a, Forall (fun v => 0 <= v) (map uint8 a)).
  { intros a. apply Forall_forall. intros v Hv. apply in_map_iff in Hv as [x [<- _]].
    unfold uint8. apply Z.mod_pos_bound. lia. }
  destruct q as [s|a]; simpl.
  - destruct (qualitystring_to_array s) as [a|]; [ | discriminate].
    simpl. intros E. inversion E; subst. apply H.
  - intros E. inversion E; subst. apply H.
Qed.

Lemma qualities_to_array_exact q :
  (exists values, quality_values q = Ok values) ->
  exists arr, _qualities_to_array q (Some (qlen q)) = Ok arr /\
              len arr = qlen q /\ Forall (fun v => 0 <= v) arr.
Proof.
  intros [values Hv]. pose proof (quality_values_length _ _ Hv) as Hl.
  pose proof (quality_values_nonneg _ _ Hv) as Hn.
  exists values. split; [ | split; assumption].
  unfold _qualities_to_array. rewrite Z.ltb_irrefl, andb_false_r, Hv. cbn [bind].
  destruct (qlen q =? 0); [reflexivity | ].
  rewrite resize_pad by lia. unfold len in Hl.
  replace (Z.to_nat (qlen q) - List.length values)%nat with 0%nat by lia.
  cbn [repeat]. now rewrite app_nil_r.
Qed.

Lemma identical_qualities_arrays s qualities :
  Forall (valid_read s) qualities ->
  exists qarr,
    mapM (fun quals => _qualities_to_array quals (Some (len (chars s)))) qualities = Ok qarr /\
    List.length qarr = List.length qualities /\
    Forall (fun q => List.length q = List.length (encode s) /\ Forall (fun v => 0 <= v) q) qarr.
Proof.
  induction 1 as [|q qualities [Hv [Hl Hdec]] _ [qarr [Hq [Hlen Hall]]]].
  - exists []. repeat split. constructor.
  - destruct (qualities_to_array_exact q Hdec) as [arr [Harr [Hal Hnn]]].
    exists (arr :: qarr). cbn [mapM]. rewrite Hl, Harr. cbn [bind].
    rewrite <- Hl, Hq. cbn [bind]. split; [reflexivity | ]. split; [simpl; lia | ].
    constructor; [ | exact Hall]. split; [ | exact Hnn].
    unfold encode, upper, len in *. rewrite !length_map. lia.
Qed.

Lemma identical_lengths_checked s qualities :
  Forall (valid_read s) qualities ->
  existsb (fun '(seq, qual) => negb (len (chars seq) =? qlen qual))
          (combine (repeat s (List.length qualities)) qualities) = false.
Proof.
  induction 1 as [|q qualities [_ [Hl _]] _ IH]; [reflexivity | ].
  cbn [List.length repeat combine existsb]. now rewrite Hl, Z.eqb_refl, IH.
Qed.

(** Identical reads are never split: a non-empty input whose sequences are
    all the same accepted sequence yields one cluster, to which every read is
    assigned, whatever the qualities and the threshold. *)
Theorem identical_reads_one_cluster s qualities q_threshold proportion :
  qualities <> [] -> Forall (valid_read s) qualities ->
  exists consensus,
    call_consensus_with_qualities (repeat s (List.length qualities)) qualities
                                  q_threshold proportion
    = Some (Ok ([consensus], repeat 0 (List.length qualities))).
Proof.
  intros Hne Hall.
  assert (Hv : valid_sequence s = true).
  { destruct qualities as [|q qs]; [congruence | ]. inversion Hall as [|? ? [H _]]; exact H. }
  destruct (identical_qualities_arrays s qualities Hall) as [qarr [Hq [Hqlen Hqall]]].
  unfold call_consensus_with_qualities, call_consensus_rounds.
  rewrite repeat_length.
  replace (len (repeat s (List.length qualities)) =? len qualities) with true
    by (symmetry; apply Z.eqb_eq; unfold len; now rewrite repeat_length).
  cbn [negb]. rewrite (identical_lengths_checked s qualities Hall).
  destruct (List.length qualities) as [|n] eqn:En;
    [destruct qualities; [congruence | discriminate] | ].
  rewrite max_len_repeat.
  assert (Hlor : l_or (Some (len (chars s))) (len (chars s)) = len (chars s))
    by (unfold l_or; destruct (_ =? 0); reflexivity).
  rewrite (mapM_ok _ (fun _ => encode s)).
  2:{ intros x Hx. apply repeat_spec in Hx. subst x.
      rewrite (sequence_to_array_padded s (Some (len (chars s))) Hv) by (rewrite Hlor; lia).
      rewrite Hlor. unfold len. rewrite Nat2Z.id, Nat.sub_diag. cbn [repeat].
      unfold encode. now rewrite app_nil_r. }
  rewrite map_repeat, Hq.
  assert (Hqne : qarr <> []) by (intros ->; discriminate Hqlen).
  destruct (call_consensus_identical (encode s) qarr
              (inject_Z q_threshold * (inject_Z (len (chars s)) * proportion))%Q Hqne Hqall)
    as [c Hc].
  rewrite Hqlen in Hc. exists c.
  cbn [consensus_loop]. rewrite Hc.
  cbn [str_in existsb List.length app].
  rewrite forallb_repeat_true.
  rewrite (select_all_true_len (seq 0 (S n))) by apply length_seq.
  change (Z.of_nat 0) with 0. now rewrite assign_all.
Qed.

Lemma identical_reads_one_cluster_witness :
  exists consensus,
    call_consensus_with_qualities (repeat "ACNT"%string 3)
      [QualStr "IIII"; QualArr [0; 0; 0; 0]; QualArr [2; 40; 0; 7]] 30 (5 # 100)
    = Some (Ok ([consensus], repeat 0 3)).
Proof.
  apply (identical_reads_one_cluster "ACNT"
           [QualStr "IIII"; QualArr [0; 0; 0; 0]; QualArr [2; 40; 0; 7]]).
  - discriminate.
  - repeat constructor; eexists; reflexivity.
Defined.

(** ** Whitelist corrector: further properties *)

Lemma nodup_length_le (l : list string) :
  (List.length (nodup string_dec l) <= List.length l)%nat.
Proof.
  induction l as [|x l IH]; simpl; [lia | ].
  destruct (in_dec string_dec x l); simpl; lia.
Qed.

Lemma nodup_length_iff (l : list string) :
  List.length (nodup string_dec l) = List.length l <-> NoDup l.
Proof.
  split.
  - induction l as [|x l IH]; intros H; [constructor | ].
    simpl in H. pose proof (nodup_length_le l).
    destruct (in_dec string_dec x l) as [Hin|Hnin]; simpl in H; [lia | ].
    constructor; [exact Hnin | apply IH; lia].
  - intros H. now rewrite nodup_fixed_point.
Qed.

Lemma existsb_false_forall {A : Type} (p : A -> bool) xs :
  existsb p xs = false <-> forall x, In x xs -> p x = false.
Proof.
  split.
  - intros H x Hx. destruct (p x) eqn:E; [ | reflexivity].
    exfalso. apply not_true_iff_false in H. apply H, existsb_exists. eauto.
  - intros H. apply not_true_is_false. intros Hex.
    apply existsb_exists in Hex as [x [Hx Hp]]. rewrite (H x Hx) in Hp. discriminate.
Qed.

Ltac settle_outcome :=
  repeat split; intros; try discriminate; try reflexivity; try tauto; try solve [auto 6].

(** The outcome of the validation of [correct_sequences_to_whitelist].
    The reads and qualities are paired when there are as many quality inputs
    as reads and each has the length of its read; the input is uniform when
    the whitelist has no duplicates, all reads have one length and all
    whitelist entries have one length.  The validation passes exactly when
    the input is paired and uniform, neither list is empty and reads and
    whitelist entries have the same length.  It raises a plain [Exception]
    exactly when the input is not paired; [SequenceError] exactly when it is
    paired and either not uniform or, with both lists non-empty, reads and
    whitelist entries differ in length; [IndexError] exactly when it is
    paired and uniform and one of the lists is empty.  Nothing else
    happens. *)
Theorem validate_outcome sequences qualities whitelist :
  let paired :=
    List.length sequences = List.length qualities /\
    (forall seq qual, In (seq, qual) (combine sequences qualities) ->
                      len (chars seq) = qlen qual) in
  let uniform :=
    NoDup whitelist /\
    (forall seq, In seq sequences -> len (chars seq) = first_len sequences) /\
    (forall bc, In bc whitelist -> len (chars bc) = first_len whitelist) in
  (validate sequences qualities whitelist = Ok tt <->
   paired /\ uniform /\ sequences <> [] /\ whitelist <> [] /\
   first_len sequences = first_len whitelist) /\
  (validate sequences qualities whitelist = Err PlainException <-> ~ paired) /\
  (validate sequences qualities whitelist = Err SequenceError <->
   paired /\ (~ uniform \/
              (sequences <> [] /\ whitelist <> [] /\
               first_len sequences <> first_len whitelist))) /\
  (validate sequences qualities whitelist = Err IndexError <->
   paired /\ uniform /\ (sequences = [] \/ whitelist = [])) /\
  (validate sequences qualities whitelist = Ok tt \/
   validate sequences qualities whitelist = Err PlainException \/
   validate sequences qualities whitelist = Err SequenceError \/
   validate sequences qualities whitelist = Err IndexError).
Proof.
  intros paired uniform.
  assert (H1 : (len sequences =? len qualities) = true <->
               List.length sequences = List.length qualities).
  { rewrite Z.eqb_eq. unfold len. lia. }
  assert (H2 : existsb (fun '(seq, qual) => negb (len (chars seq) =? qlen qual))
                       (combine sequences qualities) = false <->
               forall seq qual, In (seq, qual) (combine sequences qualities) ->
                                len (chars seq) = qlen qual).
  { rewrite existsb_false_forall. split.
    - intros H seq qual Hin. specialize (H (seq, qual) Hin). cbv beta iota in H.
      now apply negb_false_iff, Z.eqb_eq in H.
    - intros H [seq qual] Hin. apply negb_false_iff, Z.eqb_eq. now apply H. }
  assert (H3 : (len (nodup string_dec whitelist) =? len whitelist) = true <->
               NoDup whitelist).
  { rewrite Z.eqb_eq, <- nodup_length_iff. unfold len. lia. }
  assert (H4 : existsb (fun seq => negb (len (chars seq) =? first_len sequences)) sequences
               = false <->
               forall seq, In seq sequences -> len (chars seq) = first_len sequences).
  { rewrite existsb_false_forall. split; intros H seq Hin; specialize (H seq Hin).
    - now apply negb_false_iff, Z.eqb_eq in H.
    - now apply negb_false_iff, Z.eqb_eq. }
  assert (H5 : existsb (fun bc => negb (len (chars bc) =? first_len whitelist)) whitelist
               = false <->
               forall bc, In bc whitelist -> len (chars bc) = first_len whitelist).
  { rewrite existsb_false_forall. split; intros H bc Hin; specialize (H bc Hin).
    - now apply negb_false_iff, Z.eqb_eq in H.
    - now apply negb_false_iff, Z.eqb_eq. }
  assert (H6 : match sequences, whitelist with
               | s0 :: _, w0 :: _ =>
                   if negb (len (chars s0) =? len (chars w0))
                   then sequences <> [] /\ whitelist <> [] /\
                        first_len sequences <> first_len whitelist
                   else sequences <> [] /\ whitelist <> [] /\
                        first_len sequences = first_len whitelist
               | _, _ => sequences = [] \/ whitelist = []
               end).
  { destruct sequences as [|s0 srest]; [now left | ].
    destruct whitelist as [|w0 wrest]; [now right | ].
    cbn [first_len].
    destruct (Z.eqb_spec (len (chars s0)) (len (chars w0))); cbn [negb];
      (split; [discriminate | split; [discriminate | assumption]]). }
  unfold validate.
  destruct (len sequences =? len qualities); cbn [negb].
  2:{ assert (Hn : ~ paired) by (unfold paired; intros [E _]; apply H1 in E; discriminate).
      clearbody paired uniform. settle_outcome. }
  destruct (existsb _ (combine sequences qualities)).
  { assert (Hn : ~ paired) by (unfold paired; intros [_ E]; apply H2 in E; discriminate).
    clearbody paired uniform. settle_outcome. }
  assert (Hp : paired) by (unfold paired; split; [now apply H1 | now apply H2]).
  clear H1 H2.
  destruct (len (nodup string_dec whitelist) =? len whitelist); cbn [negb].
  2:{ assert (Hn : ~ uniform) by (unfold uniform; intros [E _]; apply H3 in E; discriminate).
      clearbody paired uniform. settle_outcome. }
  destruct (existsb _ sequences).
  { assert (Hn : ~ uniform)
      by (unfold uniform; intros [_ [E _]]; apply H4 in E; discriminate).
    clearbody paired uniform. settle_outcome. }
  destruct (existsb _ whitelist).
  { assert (Hn : ~ uniform)
      by (unfold uniform; intros [_ [_ E]]; apply H5 in E; discriminate).
    clearbody paired uniform. settle_outcome. }
  assert (Hu : uniform)
    by (unfold uniform; split; [now apply H3 | split; [now apply H4 | now apply H5]]).
  clear H3 H4 H5. clearbody paired uniform.
  destruct sequences as [|s0 srest].
  { settle_outcome. }
  destruct whitelist as [|w0 wrest].
  { settle_outcome. }
  destruct (negb (len (chars s0) =? len (chars w0)));
    settle_outcome.
Qed.

Lemma validate_outcome_witness :
  validate ["ACTG"; "ACTT"]%string [QualStr "IIII"; QualArr [1; 2; 3; 4]]
           ["ACTG"; "TTTN"]%string = Ok tt /\
  validate ["ACTG"]%string [QualStr "III"] ["ACTG"]%string = Err PlainException /\
  validate ["ACTG"]%string [QualStr "IIII"] ["ACT"]%string = Err SequenceError /\
  validate [] [] ["ACTG"]%string = Err IndexError.
Proof.
  split; [ | split; [ | split]].
  - apply (proj1 (validate_outcome _ _ _)). split; [split | split; [split; [ | split] | ]].
    + reflexivity.
    + intros seq qual H. simpl in H. destruct H as [H|[H|[]]]; inversion H; reflexivity.
    + repeat constructor; simpl; intuition discriminate.
    + intros seq H. simpl in H. destruct H as [<-|[<-|[]]]; reflexivity.
    + intros bc H. simpl in H. destruct H as [<-|[<-|[]]]; reflexivity.
    + split; [discriminate | ]. split; [discriminate | reflexivity].
  - apply (proj1 (proj2 (validate_outcome _ _ _))). intros [_ H].
    specialize (H "ACTG"%string (QualStr "III") (or_introl eq_refl)). discriminate H.
  - apply (proj1 (proj2 (proj2 (validate_outcome _ _ _)))). split.
    + split; [reflexivity | ].
      intros seq qual H. simpl in H. destruct H as [H|[]]; inversion H; reflexivity.
    + right. split; [discriminate | ]. split; [discriminate | discriminate].
  - apply (proj1 (proj2 (proj2 (proj2 (validate_outcome _ _ _))))). split.
    + split; [reflexivity | intros seq qual []].
    + split; [ | now left]. split; [repeat constructor; simpl; tauto | ].
      split; [intros seq [] | ].
      intros bc H. simpl in H. destruct H as [<-|[]]; reflexivity.
Defined.

Lemma validate_common_length sequences qualities whitelist :
  validate sequences qualities whitelist = Ok tt ->
  List.length sequences = List.length qualities /\
  forall r w, In r sequences -> In w whitelist -> len (chars r) = len (chars w).
Proof.
  intros H. split; [now apply validate_lengths in H | ].
  unfold validate in H.
  destruct (negb (len sequences =? len qualities)); [discriminate | ].
  destruct (existsb _ (combine sequences qualities)); [discriminate | ].
  destruct (negb _); [discriminate | ].
  destruct (existsb _ sequences) eqn:Hs; [discriminate | ].
  destruct (existsb _ whitelist) eqn:Hw; [discriminate | ].
  rewrite existsb_false_forall in Hs, Hw.
  destruct sequences as [|s0 srest]; [discriminate | ].
  destruct whitelist as [|w0 wrest]; [discriminate | ].
  destruct (len (chars s0) =? len (chars w0)) eqn:E0; [ | discriminate].
  apply Z.eqb_eq in E0. intros r w Hr Hw'.
  specialize (Hs r Hr). specialize (Hw w Hw').
  apply negb_false_iff, Z.eqb_eq in Hs. apply negb_false_iff, Z.eqb_eq in Hw.
  cbn [first_len] in *. lia.
Qed.

Lemma phase1_ok_valid sequences whitelist d st :
  phase1 sequences whitelist d = Ok st ->
  (forall s, In s sequences -> valid_sequence s = true) /\
  (forall w, In w whitelist -> valid_sequence w = true).
Proof.
  unfold phase1. intros H.
  destruct (mapM _ whitelist) as [warr|] eqn:Hw; [ | discriminate]. cbn [bind] in H.
  destruct (mapM _ (sorted_keys sequences)) as [results|] eqn:Hr; [ | discriminate].
  split.
  - intros s Hs. apply sorted_keys_In in Hs.
    destruct (mapM_ok_inv _ _ _ Hr s Hs) as [y Hy].
    destruct (_sequence_to_array s None) as [arr|] eqn:E; [ | discriminate].
    now apply sequence_to_array_closed in E as [Hv _].
  - intros w Hin. destruct (mapM_ok_inv _ _ _ Hw w Hin) as [arr E].
    now apply sequence_to_array_closed in E as [Hv _].
Qed.

Lemma hamming_distance_of_encodings r w :
  valid_sequence r = true -> valid_sequence w = true ->
  len (chars r) = len (chars w) ->
  hamming_distance r w = Ok (_hamming_distance (encode r) (encode w)).
Proof.
  intros Hr Hw Hl. unfold hamming_distance.
  rewrite Hl, Z.eqb_refl. cbn [negb].
  now rewrite (sequence_to_array_None r Hr), (sequence_to_array_None w Hw).
Qed.

(** A position among the neighbours of a read names a whitelist entry
    within distance [d] of the read. *)
Lemma neighbour_within_distance whitelist d r j :
  valid_sequence r = true ->
  (forall w, In w whitelist -> valid_sequence w = true) ->
  (forall w, In w whitelist -> len (chars r) = len (chars w)) ->
  In j (fst (neighbours whitelist d r)) ->
  exists dist, nth_error whitelist j = Some (nth j whitelist EmptyString) /\
               hamming_distance r (nth j whitelist EmptyString) = Ok dist /\ dist <= d.
Proof.
  intros Hr Hw Hl Hj. unfold neighbours, _mismatch_masks in Hj.
  pose proof (mismatch_masks_from_spec (encode r) d (map encode whitelist) 0) as Hspec.
  destruct (mismatch_masks_from (encode r) (map encode whitelist) d 0) as [ix ms].
  cbn [fst] in Hj. destruct Hspec as [_ [_ [_ Hin]]].
  apply Hin in Hj as [Hrange Hd]. rewrite length_map in Hrange. rewrite Nat.sub_0_r in Hd.
  assert (Hjn : (j < List.length whitelist)%nat) by lia.
  assert (Hnth : In (nth j whitelist EmptyString) whitelist) by now apply nth_In.
  change [] with (encode EmptyString) in Hd. rewrite map_nth in Hd.
  exists (_hamming_distance (encode r) (encode (nth j whitelist EmptyString))).
  split; [now apply nth_error_nth' | ]. split.
  - apply hamming_distance_of_encodings; auto.
  - exact Hd.
Qed.

Section CorrectorOutput.

Variable log10 : Q -> Q.
Variable log10_sum_pow10 : list Q -> Q.
Variable unchecked_read : nat -> Z.

(** What the last loop can put at the place of one read: the correction
    already recorded, or the first neighbour, or nothing. *)
Lemma phase3_one_outcome whitelist st props confidence seq quals correction out :
  phase3_one log10_sum_pow10 unchecked_read whitelist st props confidence
             (seq, quals, correction) = Ok out ->
  (correction <> None /\ out = correction) \/
  (correction = None /\ out = None) \/
  (correction = None /\
   exists indices masks i rest,
     assoc String.eqb seq (mismatch_cache st) = Some (indices, masks) /\
     indices = i :: rest /\ out = Some (nth i whitelist EmptyString)).
Proof.
  unfold phase3_one. destruct correction as [c|].
  - intros H. inversion H; subst. left. split; [discriminate | reflexivity].
  - destruct (_qualities_to_array quals None) as [q|]; [ | discriminate]. cbn [bind].
    destruct (assoc String.eqb seq (mismatch_cache st)) as [[indices masks]|];
      [ | discriminate].
    pose proof (correct_to_whitelist_reshaped log10_sum_pow10 unchecked_read q props
                  indices masks) as Hbest.
    destruct (_correct_to_whitelist _ _ _ _ _ _) as [best_bc conf]. cbn [fst] in Hbest.
    destruct ((0 <=? best_bc) && Qle_bool confidence conf) eqn:Hcond.
    + intros H. inversion H; subst out. right. right. split; [reflexivity | ].
      apply andb_true_iff in Hcond as [Hpos _]. apply Z.leb_le in Hpos.
      destruct indices as [|i rest]; [lia | ].
      exists (i :: rest), masks, i, rest. subst best_bc. rewrite Nat2Z.id. auto.
    + intros H. inversion H; subst. right. left. auto.
Qed.

(** On every input for which the corrector returns, the result has one
    entry per read, and every correction is a whitelist entry within Hamming
    distance [d] of the read it corrects. *)
Theorem corrections_within_distance sequences qualities whitelist d confidence corrections :
  correct_sequences_to_whitelist log10 log10_sum_pow10 unchecked_read
                                 sequences qualities whitelist d confidence
    = Ok corrections ->
  List.length corrections = List.length sequences /\
  forall i r w, nth_error sequences i = Some r ->
                nth_error corrections i = Some (Some w) ->
                exists j dist, nth_error whitelist j = Some w /\
                               hamming_distance r w = Ok dist /\ dist <= d.
Proof.
  unfold correct_sequences_to_whitelist. intros H.
  destruct (validate sequences qualities whitelist) as [[]|] eqn:Hval; [ | discriminate].
  cbn [bind] in H.
  destruct (phase1 sequences whitelist d) as [st|] eqn:Hp1; [ | discriminate].
  cbn [bind] in H.
  destruct (validate_common_length _ _ _ Hval) as [Hlen Hcommon].
  destruct (phase1_ok_valid _ _ _ _ Hp1) as [Hs Hw].
  destruct (phase1_spec sequences whitelist d Hs Hw) as [st' [Hp1' [Hcache Hmatch]]].
  rewrite Hp1 in Hp1'. inversion Hp1'; subst st'. clear Hp1'.
  assert (Hclen : List.length (exact_corrections sequences (matches st))
                  = List.length sequences)
    by (unfold exact_corrections; apply length_map).
  split.
  - rewrite (mapM_length _ _ _ H), !length_combine, Hclen. lia.
  - intros i r w Hi Hcorr.
    assert (Hr : In r sequences) by (eapply nth_error_In; eauto).
    destruct (nth_error_combine sequences qualities i r Hlen Hi) as [q [Hqi Hrq]].
    destruct (nth_error_combine (combine sequences qualities)
                (exact_corrections sequences (matches st)) i (r, q)) as [c [Hc Hitem]];
      [rewrite length_combine, Hclen; lia | exact Hrq | ].
    destruct (mapM_nth _ _ _ _ _ H Hitem) as [out [Hout Hone]].
    rewrite Hout in Hcorr. inversion Hcorr; subst out. clear Hcorr.
    assert (Hcr : c = assoc String.eqb r (matches st)).
    { unfold exact_corrections in Hc. rewrite nth_error_map, Hi in Hc.
      simpl in Hc. now inversion Hc. }
    assert (Hnb : exists j, In j (fst (neighbours whitelist d r)) /\
                            w = nth j whitelist EmptyString).
    { apply phase3_one_outcome in Hone
        as [[Hsome Hw']|[[_ Hnone]|[_ [indices [masks [j [rest [Hca [Hix Hw']]]]]]]]].
      - rewrite Hcr, (Hmatch r Hr) in Hw'.
        destruct (exact_matches _ _) as [|m [|m' ms]] eqn:Hex; try discriminate.
        inversion Hw'; subst w. exists m. split; [ | reflexivity].
        unfold exact_matches in Hex. eapply select_In. rewrite Hex. now left.
      - discriminate.
      - rewrite (Hcache r Hr) in Hca. inversion Hca as [Hnbr].
        inversion Hw'; subst w. exists j. split; [ | reflexivity].
        rewrite Hnbr. cbn [fst]. rewrite Hix. now left. }
    destruct Hnb as [j [Hj ->]].
    destruct (neighbour_within_distance whitelist d r j (Hs r Hr) Hw
                (fun w0 Hw0 => Hcommon r w0 Hr Hw0) Hj) as [dist [Hnth [Hd Hle]]].
    exists j, dist. auto.
Qed.

(** A read without any whitelist neighbour within [d] is left uncorrected
    at every occurrence. *)
Theorem no_neighbour_unresolved sequences qualities whitelist d confidence corrections r :
  correct_sequences_to_whitelist log10 log10_sum_pow10 unchecked_read
                                 sequences qualities whitelist d confidence
    = Ok corrections ->
  fst (neighbours whitelist d r) = [] ->
  forall i, nth_error sequences i = Some r -> nth_error corrections i = Some None.
Proof.
  unfold correct_sequences_to_whitelist. intros H Hnone i Hi.
  destruct (validate sequences qualities whitelist) as [[]|] eqn:Hval; [ | discriminate].
  cbn [bind] in H.
  destruct (phase1 sequences whitelist d) as [st|] eqn:Hp1; [ | discriminate].
  cbn [bind] in H.
  destruct (validate_common_length _ _ _ Hval) as [Hlen _].
  destruct (phase1_ok_valid _ _ _ _ Hp1) as [Hs Hw].
  destruct (phase1_spec sequences whitelist d Hs Hw) as [st' [Hp1' [Hcache Hmatch]]].
  rewrite Hp1 in Hp1'. inversion Hp1'; subst st'. clear Hp1'.
  assert (Hclen : List.length (exact_corrections sequences (matches st))
                  = List.length sequences)
    by (unfold exact_corrections; apply length_map).
  assert (Hr : In r sequences) by (eapply nth_error_In; eauto).
  destruct (nth_error_combine sequences qualities i r Hlen Hi) as [q [Hqi Hrq]].
  destruct (nth_error_combine (combine sequences qualities)
              (exact_corrections sequences (matches st)) i (r, q)) as [c [Hc Hitem]];
    [rewrite length_combine, Hclen; lia | exact Hrq | ].
  destruct (mapM_nth _ _ _ _ _ H Hitem) as [out [Hout Hone]].
  rewrite Hout. f_equal.
  assert (Hcr : c = None).
  { unfold exact_corrections in Hc. rewrite nth_error_map, Hi in Hc.
    simpl in Hc. inversion Hc as [Hc']. rewrite (Hmatch r Hr), Hnone.
    unfold exact_matches. destruct (map _ _); reflexivity. }
  subst c.
  apply phase3_one_outcome in Hone
    as [[Hsome _]|[[_ Hout']|[_ [indices [masks [j [rest [Hca [Hix _]]]]]]]]].
  - congruence.
  - exact Hout'.
  - rewrite (Hcache r Hr) in Hca. inversion Hca as [Hnb].
    rewrite Hnb in Hnone. cbn [fst] in Hnone. congruence.
Qed.

End CorrectorOutput.

Lemma corrections_within_distance_witness :
  List.length [Some "ACTG"%string; None; None; Some "TTTN"%string] = 4%nat /\
  forall i r w,
    nth_error ["ACTG"; "ACTT"; "AGCC"; "TTTT"]%string i = Some r ->
    nth_error [Some "ACTG"%string; None; None; Some "TTTN"%string] i = Some (Some w) ->
    exists j dist, nth_error ["ACTG"; "TTTN"]%string j = Some w /\
                   hamming_distance r w = Ok dist /\ dist <= 1.
Proof.
  apply (corrections_within_distance (fun _ => 0%Q) (fun _ => 0%Q) (fun _ => 0)
           ["ACTG"; "ACTT"; "AGCC"; "TTTT"]%string
           [QualStr "IIII"; QualStr "IIII"; QualStr "IIII"; QualStr "IIII"]
           ["ACTG"; "TTTN"]%string 1 (9 # 10)).
  vm_compute. reflexivity.
Defined.

Lemma no_neighbour_unresolved_witness :
  fst (neighbours ["ACTG"; "TTTN"]%string 1 "AGCC") = [] /\
  nth_error ["ACTG"; "ACTT"; "AGCC"; "TTTT"]%string 2 = Some "AGCC"%string /\
  nth_error [Some "ACTG"%string; None; None; Some "TTTN"%string] 2 = Some None.
Proof.
  split; [vm_compute; reflexivity | ]. split; [reflexivity | ].
  apply (no_neighbour_unresolved (fun _ => 0%Q) (fun _ => 0%Q) (fun _ => 0)
           ["ACTG"; "ACTT"; "AGCC"; "TTTT"]%string
           [QualStr "IIII"; QualStr "IIII"; QualStr "IIII"; QualStr "IIII"]
           ["ACTG"; "TTTN"]%string 1 (9 # 10) _ "AGCC"%string).
  - vm_compute. reflexivity.
  - vm_compute. reflexivity.
  - reflexivity.
Defined.


(** ** Alphabet tables: properties *)

(** [NUCLEOTIDE_COMPLEMENT] is defined on every symbol of the alphabet and
    is an involution.  For every symbol other than S and W it agrees with the
    ambiguity table: the strict bases of the complement are the complements of
    the strict bases.  S and W are exchanged by the table, although the
    complements of the bases of S (G, C) are again the bases of S and not those
    of W (A, T). *)
Theorem complement_table_consistent :
  Forall (fun c =>
            exists c', lookup c NUCLEOTIDE_COMPLEMENT = Some c' /\
                       In c' NUCLEOTIDES /\
                       lookup c' NUCLEOTIDE_COMPLEMENT = Some c /\
                       (c <> "S"%char -> c <> "W"%char ->
                        forall b, In b (bases_of c') <->
                                  exists b0, In b0 (bases_of c) /\
                                             lookup b0 NUCLEOTIDE_COMPLEMENT = Some b))
         NUCLEOTIDES /\
  lookup "S"%char NUCLEOTIDE_COMPLEMENT = Some "W"%char /\
  (forall b0, In b0 (bases_of "S") ->
              exists b, lookup b0 NUCLEOTIDE_COMPLEMENT = Some b /\
                        In b (bases_of "S") /\ ~ In b (bases_of "W")).
Proof.
  split; [ | split; [reflexivity | ]].
  - repeat (apply Forall_cons;
      [eexists; split; [reflexivity | ]; split; [apply char_in_In; reflexivity | ];
       split; [reflexivity | ];
       intros HS HW;
       first [ congruence | intros b; split;
       [ intros H; simpl in H;
         repeat (destruct H as [H | H];
                 [subst b;
                  first [ exists "A"%char; split; [apply char_in_In; reflexivity | reflexivity]
                        | exists "C"%char; split; [apply char_in_In; reflexivity | reflexivity]
                        | exists "G"%char; split; [apply char_in_In; reflexivity | reflexivity]
                        | exists "T"%char; split; [apply char_in_In; reflexivity | reflexivity] ] | ]);
         contradiction
       | intros [b0 [H E]]; simpl in H;
         repeat (destruct H as [H | H];
                 [subst b0; cbv in E; inversion E; subst b; apply char_in_In; reflexivity | ]);
         contradiction ] ] | ]).
    apply Forall_nil.
  - intros b0 H. simpl in H.
    repeat (destruct H as [H | H];
            [subst b0; eexists; split; [reflexivity | ];
             split; [apply char_in_In; reflexivity | simpl; intuition discriminate] | ]).
    contradiction.
Qed.

(** ** Consensus caller: number of clusters *)

Lemma consensus_loop_cluster_count thresh : forall fuel cs a it seqs quals cs' a' r,
  consensus_loop fuel thresh cs a it seqs quals = Some (Ok (cs', a', r)) ->
  (1 <= List.length cs' /\ List.length cs <= List.length cs' <= List.length cs + r)%nat.
Proof.
  induction fuel as [|fuel IH]; intros cs a it seqs quals cs' a' r H; [discriminate | ].
  cbn [consensus_loop] in H.
  destruct (_call_consensus seqs quals thresh) as [[c assigned]|e]; [ | discriminate].
  assert (Hreg : (1 <= List.length (snd (if str_in c cs then (index_of c cs, cs)
                                          else (List.length cs, cs ++ [c]))) /\
                  List.length cs <= List.length (snd (if str_in c cs then (index_of c cs, cs)
                                          else (List.length cs, cs ++ [c])))
                  <= List.length cs + 1)%nat).
  { destruct (str_in c cs) eqn:E; cbn [snd].
    - pose proof (index_of_lt c cs E). lia.
    - rewrite length_app. cbn [List.length]. lia. }
  destruct (if str_in c cs then _ else _) as [label cs2]. cbn [snd] in Hreg.
  destruct (forallb _ assigned).
  - inversion H; subst. lia.
  - destruct (consensus_loop fuel _ _ _ _ _ _) as [[[[cs3 a3] r3]|e]|] eqn:E; try discriminate.
    inversion H; subst. specialize (IH _ _ _ _ _ _ _ _ E). lia.
Qed.

(** On a valid input of N sequences there is at least one cluster, and no
    more clusters than rounds of the loop, so at most N. *)
Theorem consensus_cluster_count sequences qualities q_threshold proportion :
  valid_consensus_input sequences qualities ->
  exists consensuses assignments rounds,
    call_consensus_rounds (List.length sequences) sequences qualities q_threshold proportion
      = Some (Ok (consensuses, assignments, rounds)) /\
    (1 <= List.length consensuses <= rounds)%nat /\ (rounds <= List.length sequences)%nat.
Proof.
  intros Hv.
  destruct (call_consensus_rounds_returns sequences qualities q_threshold proportion Hv)
    as [cs [a [r [Hr [Hrb _]]]]].
  exists cs, a, r. split; [exact Hr | ].
  unfold call_consensus_rounds in Hr.
  destruct (negb _); [discriminate | ].
  destruct (existsb _ _); [discriminate | ].
  destruct (max_len sequences) as [l|]; [ | discriminate].
  destruct (mapM _ sequences) as [sarr|]; [ | discriminate].
  destruct (mapM _ qualities) as [qarr|]; [ | discriminate].
  pose proof (consensus_loop_cluster_count _ _ _ _ _ _ _ _ _ _ Hr) as Hc.
  cbn [List.length] in Hc. lia.
Qed.

Lemma consensus_cluster_count_witness :
  exists consensuses assignments rounds,
    call_consensus_rounds 3 ["AAAA"; "AAAT"; "CCCC"]%string
      [QualArr [40; 40; 40; 40]; QualArr [40; 40; 40; 40]; QualArr [40; 40; 40; 40]]
      30 (5 # 100) = Some (Ok (consensuses, assignments, rounds)) /\
    (1 <= List.length consensuses <= rounds)%nat /\ (rounds <= 3)%nat.
Proof.
  apply (consensus_cluster_count ["AAAA"; "AAAT"; "CCCC"]%string
           [QualArr [40; 40; 40; 40]; QualArr [40; 40; 40; 40]; QualArr [40; 40; 40; 40]]).
  split; [discriminate | ].
  repeat constructor; eexists; reflexivity.
Defined.

(** ** Positional voting *)

Lemma map2_vote_nth (q : Z) : forall (pcol : list Z) (scol : list bool) b,
  List.length scol = List.length pcol -> (b < List.length pcol)%nat ->
  nth b (map2 (fun p (s : bool) => if s then p + q else p) pcol scol) 0
  = nth b pcol 0 + (if nth b scol false then q else 0).
Proof.
  induction pcol as [|p pcol IH]; intros [|s scol] b Hl Hb; simpl in Hl, Hb; try lia.
  destruct b as [|b]; cbn [map2 nth].
  - destruct s; lia.
  - apply IH; lia.
Qed.

Lemma map2_vote_length (q : Z) : forall (pcol : list Z) (scol : list bool),
  List.length scol = List.length pcol ->
  List.length (map2 (fun p (s : bool) => if s then p + q else p) pcol scol)
  = List.length pcol.
Proof.
  induction pcol as [|p pcol IH]; intros [|s scol] Hl; simpl in *; try lia.
  rewrite IH; lia.
Qed.

Lemma add_where_vote : forall pp (L : nat) qual seq,
  shaped L pp -> shaped L seq -> List.length qual = L ->
  shaped L (add_where pp qual seq) /\
  forall pos b, (pos < L)%nat -> (b < 4)%nat ->
    nth b (nth pos (add_where pp qual seq) []) 0
    = nth b (nth pos pp []) 0 + (if nth b (nth pos seq []) false then nth pos qual 0 else 0).
Proof.
  induction pp as [|pcol pp IH]; intros L [|q qual] [|scol seq] [Hpl Hpc] [Hsl Hsc] Hq;
    simpl in Hpl, Hsl, Hq; try lia.
  - split; [split; [exact Hpl | constructor] | intros pos b Hpos; lia].
  - inversion Hpc; subst. inversion Hsc; subst.
    destruct (IH (List.length pp) qual seq) as [[Hl Hc] Hnth];
      [split; auto | split; [lia | auto] | lia | ].
    cbn [add_where]. split.
    + split; [simpl; lia | ]. constructor; [ | exact Hc].
      rewrite map2_vote_length; lia.
    + intros pos b Hpos Hb. destruct pos as [|pos]; cbn [nth].
      * apply map2_vote_nth; lia.
      * apply Hnth; [simpl in Hpos; lia | exact Hb].
Qed.

Lemma positional_fold_votes (L : nat) : forall items pp,
  shaped L pp ->
  Forall (fun '(seq, qual) => shaped L seq /\ List.length qual = L) items ->
  forall pos b, (pos < L)%nat -> (b < 4)%nat ->
    nth b (nth pos (fold_left (fun pp0 '(seq, qual) => add_where pp0 qual seq) items pp) []) 0
    = nth b (nth pos pp []) 0
      + zsum (map (fun '(seq, qual) =>
                     if nth b (nth pos seq []) false then nth pos qual 0 else 0) items).
Proof.
  induction items as [|[seq qual] items IH]; intros pp Hpp Hitems pos b Hpos Hb.
  - simpl. lia.
  - inversion Hitems as [|x xs Hhead Hrest]; subst.
    cbv beta iota in Hhead. destruct Hhead as [Hs Hq].
    destruct (add_where_vote pp L qual seq Hpp Hs Hq) as [Hshape Hnth].
    cbn [fold_left map zsum fold_right].
    rewrite (IH _ Hshape Hrest pos b Hpos Hb), (Hnth pos b Hpos Hb).
    unfold zsum. lia.
Qed.

Lemma zero_matrix_nth (m : matrix bool) pos b :
  nth b (nth pos (map (map (fun _ : bool => 0)) m) []) 0 = 0.
Proof.
  destruct (nth_in_or_default pos (map (map (fun _ : bool => 0)) m) []) as [Hin|Hd].
  - apply in_map_iff in Hin as [col [Hcol _]]. rewrite <- Hcol.
    destruct (nth_in_or_default b (map (fun _ : bool => 0) col) 0) as [Hin|Hd]; [ | exact Hd].
    apply in_map_iff in Hin as [x [Hx _]]. now rewrite <- Hx.
  - rewrite Hd. destruct b; reflexivity.
Qed.

(** Positional voting: for reads encoded to a common width with qualities
    of that width, the score of strict base [b] at position [pos] is the sum of
    the qualities at [pos] of the reads whose symbol there is consistent with
    [b]. *)
Theorem positional_probs_votes (L : nat) sequences qualities :
  sequences <> [] ->
  Forall (shaped L) sequences ->
  Forall (fun q => List.length q = L) qualities ->
  List.length qualities = List.length sequences ->
  exists pp,
    _calculate_positional_probs sequences qualities = Ok pp /\
    forall pos b, (pos < L)%nat -> (b < 4)%nat ->
      nth b (nth pos pp []) 0
      = zsum (map (fun '(seq, qual) =>
                     if nth b (nth pos seq []) false then nth pos qual 0 else 0)
                  (combine sequences qualities)).
Proof.
  intros Hne Hs Hq Hlen. destruct sequences as [|s0 rest]; [congruence | ].
  unfold _calculate_positional_probs.
  eexists. split; [reflexivity | ].
  intros pos b Hpos Hb.
  assert (Hs0 : shaped L s0).
  { rewrite Forall_forall in Hs. apply Hs. now left. }
  assert (Hzero : shaped L (map (map (fun _ : bool => 0)) s0)).
  { destruct Hs0 as [Hl Hc]. split; [now rewrite length_map | ].
    apply Forall_forall. intros col Hcol. apply in_map_iff in Hcol as [c [<- Hin]].
    rewrite length_map. rewrite Forall_forall in Hc. now apply Hc. }
  rewrite (positional_fold_votes L _ _ Hzero); try assumption.
  - rewrite zero_matrix_nth. lia.
  - apply Forall_forall. intros [seq qual] Hin. split.
    + rewrite Forall_forall in Hs. apply Hs. eapply in_combine_l; eauto.
    + rewrite Forall_forall in Hq. apply Hq. eapply in_combine_r; eauto.
Qed.

Lemma positional_probs_votes_witness :
  exists pp,
    _calculate_positional_probs [encode "AC"; encode "NC"; encode "GT"] [[10; 20]; [3; 4]; [5; 6]]
      = Ok pp /\
    forall pos b, (pos < 2)%nat -> (b < 4)%nat ->
      nth b (nth pos pp []) 0
      = zsum (map (fun '(seq, qual) =>
                     if nth b (nth pos seq []) false then nth pos qual 0 else 0)
                  (combine [encode "AC"; encode "NC"; encode "GT"] [[10; 20]; [3; 4]; [5; 6]])).
Proof.
  apply (positional_probs_votes 2 [encode "AC"; encode "NC"; encode "GT"]
           [[10; 20]; [3; 4]; [5; 6]]).
  - discriminate.
  - repeat constructor.
  - repeat constructor.
  - reflexivity.
Defined.

(** ** Whitelist corrector: reads that are whitelist entries *)

Lemma select_map_filter {A : Type} (f : A -> bool) xs :
  select (map f xs) xs = filter f xs.
Proof.
  induction xs as [|x xs IH]; [reflexivity | ].
  cbn [map select filter]. rewrite IH. reflexivity.
Qed.

Lemma combine_map_snd {A B : Type} (g : A -> B) : forall (xs : list A) (ys : list B),
  List.length ys = List.length xs ->
  combine xs ys = map (fun x => (x, g x)) xs -> ys = map g xs.
Proof.
  induction xs as [|x xs IH]; intros [|y ys] Hl H; simpl in Hl; try discriminate;
    [reflexivity | ].
  cbn [combine map] in *. inversion H. f_equal. apply IH; [lia | assumption].
Qed.

Lemma mismatch_masks_from_filter sequence d : forall whitelist i,
  fst (mismatch_masks_from sequence whitelist d i)
  = filter (fun j => bool_sum (_mismatch_mask sequence (nth (j - i) whitelist [])) <=? d)
           (seq i (List.length whitelist)).
Proof.
  induction whitelist as [|bc rest IH]; intros i; [reflexivity | ].
  cbn [mismatch_masks_from List.length seq filter]. specialize (IH (S i)).
  destruct (mismatch_masks_from sequence rest d (S i)) as [indices masks].
  cbn [fst] in IH.
  assert (Hext : filter (fun j => bool_sum (_mismatch_mask sequence (nth (j - i) (bc :: rest) [])) <=? d)
                        (seq (S i) (List.length rest))
                 = indices).
  { rewrite IH. apply filter_ext_in. intros j Hj. apply in_seq in Hj.
    replace (j - i)%nat with (S (j - S i)) by lia. reflexivity. }
  rewrite Hext, Nat.sub_diag. change (nth 0 (bc :: rest) []) with bc.
  destruct (Z.gtb_spec (bool_sum (_mismatch_mask sequence bc)) d) as [Hgt|Hle].
  - replace (bool_sum (_mismatch_mask sequence bc) <=? d) with false
      by (symmetry; apply Z.leb_gt; lia). reflexivity.
  - replace (bool_sum (_mismatch_mask sequence bc) <=? d) with true
      by (symmetry; apply Z.leb_le; lia). reflexivity.
Qed.

Lemma filter_filter_and {A : Type} (f g : A -> bool) xs :
  filter f (filter g xs) = filter (fun x => f x && g x) xs.
Proof.
  induction xs as [|x xs IH]; [reflexivity | ].
  cbn [filter]. destruct (g x); cbn [filter]; rewrite IH;
    [destruct (f x); reflexivity | now rewrite andb_false_r].
Qed.

(** The exact matches of a read are the whitelist positions at distance 0,
    in ascending order, provided [d] is not negative. *)
Lemma exact_matches_filter whitelist d r :
  0 <= d ->
  exact_matches (fst (neighbours whitelist d r)) (snd (neighbours whitelist d r))
  = filter (fun j => _hamming_distance (encode r) (encode (nth j whitelist EmptyString)) =? 0)
           (seq 0 (List.length whitelist)).
Proof.
  intros Hd. unfold neighbours, _mismatch_masks.
  pose proof (mismatch_masks_from_spec (encode r) d (map encode whitelist) 0) as Hspec.
  pose proof (mismatch_masks_from_lengths (encode r) d (map encode whitelist) 0) as Hlen.
  pose proof (mismatch_masks_from_filter (encode r) d (map encode whitelist) 0) as Hfil.
  destruct (mismatch_masks_from (encode r) (map encode whitelist) d 0) as [ix ms].
  cbn [fst snd] in *. destruct Hspec as [_ [_ [Hcomb _]]].
  rewrite (combine_map_snd _ ix ms Hlen Hcomb).
  unfold exact_matches. rewrite map_map, select_map_filter, Hfil, length_map.
  rewrite filter_filter_and. apply filter_ext_in. intros j Hj. apply in_seq in Hj.
  rewrite Nat.sub_0_r. change [] with (encode EmptyString). rewrite map_nth.
  unfold _hamming_distance.
  destruct (Z.eqb_spec (bool_sum (_mismatch_mask (encode r) (encode (nth j whitelist EmptyString)))) 0)
    as [E|E]; cbn [andb]; [ | reflexivity].
  apply Z.leb_le. lia.
Qed.

Lemma filter_eqb_seq m n :
  (m < n)%nat -> filter (Nat.eqb m) (seq 0 n) = [m].
Proof.
  intros Hm. replace n with (m + S (n - S m))%nat by lia.
  rewrite seq_app, filter_app. cbn [seq filter Nat.add].
  rewrite Nat.eqb_refl.
  assert (H1 : filter (Nat.eqb m) (seq 0 m) = []).
  { assert (H : forall k s, (s + k <= m)%nat -> filter (Nat.eqb m) (seq s k) = []).
    { induction k as [|k IH]; intros s Hs; [reflexivity | ].
      cbn [seq filter]. replace (m =? s)%nat with false by (symmetry; apply Nat.eqb_neq; lia).
      apply IH. lia. }
    apply H. lia. }
  assert (H2 : forall s k, (m < s)%nat -> filter (Nat.eqb m) (seq s k) = []).
  { intros s k. revert s. induction k as [|k IH]; intros s Hs; [reflexivity | ].
    cbn [seq filter]. replace (m =? s)%nat with false by (symmetry; apply Nat.eqb_neq; lia).
    apply IH. lia. }
  rewrite H1, H2 by lia. reflexivity.
Qed.

Lemma strict_upper_id cs :
  Forall (fun c => In c NUCLEOTIDES_STRICT) cs -> upper cs = cs.
Proof.
  intros H. unfold upper. rewrite <- (map_id cs) at 2. apply map_ext_in.
  intros c Hc. rewrite Forall_forall in H. specialize (H c Hc). simpl in H.
  repeat (destruct H as [H | H]; [subst c; reflexivity | ]). contradiction.
Qed.

Lemma incompatible_zero_strict : forall cs1 cs2,
  Forall (fun c => In c NUCLEOTIDES_STRICT) cs1 ->
  Forall (fun c => In c NUCLEOTIDES_STRICT) cs2 ->
  List.length cs1 = List.length cs2 ->
  (incompatible_positions cs1 cs2 = 0 <-> cs1 = cs2).
Proof.
  induction cs1 as [|c1 cs1 IH]; intros [|c2 cs2] H1 H2 Hl; simpl in Hl; try discriminate.
  - split; reflexivity.
  - inversion H1; subst. inversion H2; subst.
    cbn [incompatible_positions]. rewrite compatible_strict by assumption.
    pose proof (incompatible_positions_bounds cs1 cs2) as Hb.
    specialize (IH cs2 ltac:(assumption) ltac:(assumption) ltac:(lia)).
    destruct (Ascii.eqb_spec c1 c2) as [->|Hne].
    + split; [intros E; f_equal; apply IH; lia | intros E; inversion E; subst; apply proj2 in IH;
              rewrite (IH eq_refl); reflexivity].
    + split; [lia | intros E; inversion E; congruence].
Qed.

Lemma validate_nodup sequences qualities whitelist :
  validate sequences qualities whitelist = Ok tt -> NoDup whitelist.
Proof.
  unfold validate.
  destruct (negb (len sequences =? len qualities)); [discriminate | ].
  destruct (existsb _ (combine sequences qualities)); [discriminate | ].
  destruct (len (nodup string_dec whitelist) =? len whitelist) eqn:E; [ | discriminate].
  intros _. apply Z.eqb_eq in E. apply nodup_length_iff. unfold len in E. lia.
Qed.

Lemma whitelist_entry_exact_match whitelist d m :
  0 <= d -> NoDup whitelist ->
  (forall w, In w whitelist -> Forall (fun c => In c NUCLEOTIDES_STRICT) (chars w)) ->
  (forall w w', In w whitelist -> In w' whitelist -> len (chars w) = len (chars w')) ->
  (m < List.length whitelist)%nat ->
  exact_matches (fst (neighbours whitelist d (nth m whitelist EmptyString)))
                (snd (neighbours whitelist d (nth m whitelist EmptyString))) = [m].
Proof.
  intros Hd Hnd Hstrict Hlen Hm. rewrite exact_matches_filter by exact Hd.
  rewrite <- (filter_eqb_seq m (List.length whitelist) Hm).
  apply filter_ext_in. intros j Hj. apply in_seq in Hj.
  set (r := nth m whitelist EmptyString). set (w := nth j whitelist EmptyString).
  assert (Hr : In r whitelist) by (apply nth_In; lia).
  assert (Hw : In w whitelist) by (apply nth_In; lia).
  pose proof (Hstrict r Hr) as Hsr. pose proof (Hstrict w Hw) as Hsw.
  unfold encode. rewrite (strict_upper_id _ Hsr), (strict_upper_id _ Hsw).
  rewrite hamming_distance_encoded by (now apply strict_is_valid).
  assert (Hll : List.length (chars r) = List.length (chars w)).
  { specialize (Hlen r w Hr Hw). unfold len in Hlen. lia. }
  pose proof (incompatible_zero_strict _ _ Hsr Hsw Hll) as Hiff.
  destruct (Nat.eqb_spec m j) as [->|Hne].
  - apply Z.eqb_eq, Hiff. reflexivity.
  - apply Z.eqb_neq. intros E. apply Hiff in E. apply chars_injective in E.
    apply Hne. apply (proj1 (NoDup_nth whitelist EmptyString) Hnd); [lia | lia | exact E].
Qed.

Section WhitelistedReads.

Variable log10 : Q -> Q.
Variable log10_sum_pow10 : list Q -> Q.
Variable unchecked_read : nat -> Z.

(** With a whitelist of upper-case strict-base strings and a non-negative
    [d], every read that is itself a whitelist entry is returned as its own
    correction, whatever its qualities. *)
Theorem whitelisted_reads_kept sequences qualities whitelist d confidence corrections :
  correct_sequences_to_whitelist log10 log10_sum_pow10 unchecked_read
                                 sequences qualities whitelist d confidence
    = Ok corrections ->
  0 <= d ->
  (forall w, In w whitelist -> Forall (fun c => In c NUCLEOTIDES_STRICT) (chars w)) ->
  forall i r, nth_error sequences i = Some r -> In r whitelist ->
              nth_error corrections i = Some (Some r).
Proof.
  unfold correct_sequences_to_whitelist. intros H Hd Hstrict i r Hi Hrw.
  destruct (validate sequences qualities whitelist) as [[]|] eqn:Hval; [ | discriminate].
  cbn [bind] in H.
  destruct (phase1 sequences whitelist d) as [st|] eqn:Hp1; [ | discriminate].
  cbn [bind] in H.
  destruct (validate_common_length _ _ _ Hval) as [Hlen Hcommon].
  pose proof (validate_nodup _ _ _ Hval) as Hnd.
  destruct (phase1_ok_valid _ _ _ _ Hp1) as [Hs Hw].
  destruct (phase1_spec sequences whitelist d Hs Hw) as [st' [Hp1' [Hcache Hmatch]]].
  rewrite Hp1 in Hp1'. inversion Hp1'; subst st'. clear Hp1'.
  assert (Hclen : List.length (exact_corrections sequences (matches st))
                  = List.length sequences)
    by (unfold exact_corrections; apply length_map).
  assert (Hr : In r sequences) by (eapply nth_error_In; eauto).
  destruct (In_nth whitelist r EmptyString Hrw) as [m [Hm Hmr]].
  assert (Hexact : exact_matches (fst (neighbours whitelist d r))
                                 (snd (neighbours whitelist d r)) = [m]).
  { rewrite <- Hmr. apply whitelist_entry_exact_match; try assumption.
    intros w w' Hin Hin'. rewrite <- (Hcommon r w Hr Hin). now apply Hcommon. }
  destruct (nth_error_combine sequences qualities i r Hlen Hi) as [q [Hqi Hrq]].
  destruct (nth_error_combine (combine sequences qualities)
              (exact_corrections sequences (matches st)) i (r, q)) as [c [Hc Hitem]];
    [rewrite length_combine, Hclen; lia | exact Hrq | ].
  destruct (mapM_nth _ _ _ _ _ H Hitem) as [out [Hout Hone]].
  rewrite Hout. f_equal.
  assert (Hcr : c = Some r).
  { unfold exact_corrections in Hc. rewrite nth_error_map, Hi in Hc.
    simpl in Hc. inversion Hc as [Hc']. rewrite (Hmatch r Hr), Hexact. now rewrite Hmr. }
  subst c.
  apply phase3_one_outcome in Hone as [[_ Hsame]|[[Hnone _]|[Hnone _]]];
    [exact Hsame | discriminate | discriminate].
Qed.

End WhitelistedReads.

Lemma whitelisted_reads_kept_witness :
  nth_error ["ACTG"; "ACTT"; "TTTA"; "ACTG"]%string 3 = Some "ACTG"%string /\
  In "ACTG"%string ["ACTG"; "TTTA"]%string /\
  nth_error [Some "ACTG"%string; None; Some "TTTA"%string; Some "ACTG"%string] 3
  = Some (Some "ACTG"%string).
Proof.
  split; [reflexivity | ]. split; [left; reflexivity | ].
  apply (whitelisted_reads_kept (fun _ => 0%Q) (fun _ => 0%Q) (fun _ => 0)
           ["ACTG"; "ACTT"; "TTTA"; "ACTG"]%string
           [QualStr "IIII"; QualStr "IIII"; QualStr "IIII"; QualStr "!!!!"]
           ["ACTG"; "TTTA"]%string 1 (9 # 10)).
  - vm_compute. reflexivity.
  - lia.
  - intros w H. simpl in H.
    repeat (destruct H as [H | H]; [subst w; apply strict_from_forallb; reflexivity | ]).
    contradiction.
  - reflexivity.
  - left; reflexivity.
Defined.

(** ** Consensus caller: the effective threshold of one round *)

Lemma mismatch_cost_positions : forall L consensus_indices read qual,
  List.length consensus_indices = L -> List.length read = L -> List.length qual = L ->
  mismatch_cost consensus_indices read qual = read_cost L consensus_indices read qual.
Proof.
  induction L as [|L IH]; intros [|c ci] [|col read] [|q qual] H1 H2 H3;
    simpl in H1, H2, H3; try discriminate; [reflexivity | ].
  specialize (IH ci read qual ltac:(lia) ltac:(lia) ltac:(lia)).
  assert (Hshift : map (position_cost (c :: ci) (col :: read) (q :: qual)) (seq 1 L)
                   = map (position_cost ci read qual) (seq 0 L)).
  { rewrite <- seq_shift, map_map. apply map_ext. intros pos. reflexivity. }
  unfold read_cost. cbn [seq map]. rewrite Hshift.
  change (zsum (position_cost (c :: ci) (col :: read) (q :: qual) 0
                :: map (position_cost ci read qual) (seq 0 L)))
    with (position_cost (c :: ci) (col :: read) (q :: qual) 0
          + read_cost L ci read qual).
  rewrite <- IH. unfold mismatch_cost, argmax0, as_int, position_cost.
  cbn [map map2 select nth].
  destruct (Nat.eqb c (argmax (map Z.b2z col))); cbn [negb]; reflexivity.
Qed.

Lemma nth_map_combine {A B C : Type} (f : A -> B -> C) da db dc : forall xs ys k,
  List.length ys = List.length xs -> (k < List.length xs)%nat ->
  nth k (map (fun '(x, y) => f x y) (combine xs ys)) dc = f (nth k xs da) (nth k ys db).
Proof.
  induction xs as [|x xs IH]; intros [|y ys] k Hl Hk; simpl in Hl, Hk; try lia.
  destruct k as [|k]; [reflexivity | ]. cbn [combine map nth]. apply IH; lia.
Qed.

Lemma py_max_Qmax thresh m : (py_max thresh m == Qmax thresh (inject_Z m))%Q.
Proof.
  unfold py_max. destruct (Qlt_le_dec thresh (inject_Z m)) as [H|H].
  - destruct (Q.max_spec thresh (inject_Z m)) as [[_ E]|[Hle E]]; rewrite E;
      [reflexivity | lra].
  - destruct (Q.max_spec thresh (inject_Z m)) as [[Hlt E]|[_ E]]; rewrite E;
      [lra | reflexivity].
Qed.

(** One round on a pool of at least two reads: a read is assigned exactly
    when its mismatch cost is at most the larger of the threshold and the
    least cost in the pool. *)
Lemma call_consensus_round L seqs quals thresh :
  (2 <= List.length seqs)%nat -> List.length quals = List.length seqs ->
  Forall (fun read => List.length read = L) seqs ->
  Forall (fun qual => List.length qual = L) quals ->
  exists pp consensus assigned best,
    _calculate_positional_probs seqs quals = Ok pp /\
    _call_consensus seqs quals thresh = Ok (consensus, assigned) /\
    List.length assigned = List.length seqs /\
    (best < List.length seqs)%nat /\
    (forall k, (k < List.length seqs)%nat ->
               read_cost L (argmax0 pp) (nth best seqs []) (nth best quals [])
               <= read_cost L (argmax0 pp) (nth k seqs []) (nth k quals [])) /\
    (forall k, (k < List.length seqs)%nat ->
       (nth k assigned false = true <->
        (inject_Z (read_cost L (argmax0 pp) (nth k seqs []) (nth k quals []))
         <= Qmax thresh (inject_Z (read_cost L (argmax0 pp) (nth best seqs [])
                                             (nth best quals []))))%Q)).
Proof.
  intros H2 Hlen Hs Hq.
  destruct seqs as [|s0 [|s1 rest]]; [simpl in H2; lia | simpl in H2; lia | ].
  set (seqs := s0 :: s1 :: rest) in *.
  assert (Hne : seqs <> []) by discriminate.
  destruct (positional_probs_ok seqs quals Hne) as [pp Hpp].
  set (ci := argmax0 pp).
  pose (probs := map (fun '(seq, qual) => mismatch_cost ci seq qual) (combine seqs quals)).
  assert (Hcall : _call_consensus seqs quals thresh =
            do m <- zmin probs;
            do pp2 <- _calculate_positional_probs
                        (select (map (fun p => Qle_bool (inject_Z p) (py_max thresh m)) probs)
                                seqs)
                        (select (map (fun p => Qle_bool (inject_Z p) (py_max thresh m)) probs)
                                quals);
            Ok (_most_likely_sequence pp2,
                map (fun p => Qle_bool (inject_Z p) (py_max thresh m)) probs)).
  { unfold _call_consensus. fold seqs.
    change (match seqs with
            | [s] => Ok (_most_likely_sequence (as_int s), [true])
            | _ => ?k end) with k.
    rewrite Hpp. reflexivity. }
  rewrite Hcall. clear Hcall.
  assert (Hci : List.length ci = L).
  { unfold ci, argmax0. rewrite length_map.
    destruct (positional_probs_length _ _ _ Hpp) as [r [Hr ->]].
    rewrite Forall_forall in Hs. now apply Hs. }
  assert (Hcost : forall k, (k < List.length seqs)%nat ->
            nth k probs 0 = read_cost L ci (nth k seqs []) (nth k quals [])).
  { intros k Hk. unfold probs.
    rewrite (nth_map_combine (fun seq qual => mismatch_cost ci seq qual) [] [] 0)
      by assumption.
    apply mismatch_cost_positions; [exact Hci | | ].
    - rewrite Forall_forall in Hs. apply Hs, nth_In. exact Hk.
    - rewrite Forall_forall in Hq. apply Hq, nth_In. lia. }
  assert (Hpl : List.length probs = List.length seqs).
  { unfold probs. rewrite length_map, length_combine. lia. }
  destruct (zmin probs) as [m|e] eqn:Hm.
  2:{ destruct probs; [simpl in Hpl; discriminate | discriminate]. }
  cbn [bind].
  set (assigned := map _ probs).
  assert (Hal : List.length assigned = List.length seqs).
  { unfold assigned. now rewrite length_map. }
  assert (Hex : existsb (fun b => b) assigned = true)
    by (apply best_member_assigned; exact Hm).
  destruct (positional_probs_ok (select assigned seqs) (select assigned quals)) as [pp2 Hpp2].
  { apply select_some; assumption. }
  rewrite Hpp2. cbn [bind].
  apply zmin_spec in Hm as [Hin Hmin].
  destruct (In_nth probs m 0 Hin) as [best [Hb Hbm]].
  rewrite Hpl in Hb.
  assert (Has : forall k, (k < List.length seqs)%nat ->
            (nth k assigned false = true <->
             (inject_Z (nth k probs 0%Z) <= Qmax thresh (inject_Z m))%Q)).
  { intros k Hk. unfold assigned.
    rewrite (nth_indep _ false (Qle_bool (inject_Z 0) (py_max thresh m)))
      by (rewrite length_map; lia).
    rewrite (map_nth (fun p => Qle_bool (inject_Z p) (py_max thresh m))).
    rewrite Qle_bool_iff, py_max_Qmax. reflexivity. }
  exists pp, (_most_likely_sequence pp2), assigned, best.
  split; [exact Hpp | ]. split; [reflexivity | ]. split; [exact Hal | ].
  split; [exact Hb | ]. split.
  - intros k Hk. rewrite <- !Hcost by assumption. rewrite Hbm.
    apply Hmin, nth_In. lia.
  - intros k Hk. rewrite <- !Hcost by assumption. rewrite Hbm. now apply Has.
Qed.

(** C3. On every valid input of N sequences the loop of
    [call_consensus_with_qualities] finishes after at least 1 and at most N
    rounds (with the same result for every larger bound on the rounds).  In
    every round on a non-empty pool the member of least mismatch cost is
    assigned and the pool of the next round is strictly smaller: with two or
    more members, a member is assigned exactly when its cost is at most
    [max(thresh, least cost in the pool)]; a pool of one member assigns it. *)
Theorem consensus_terminates sequences qualities q_threshold proportion :
  valid_consensus_input sequences qualities ->
  (exists consensuses assignments rounds,
      (1 <= rounds <= List.length sequences)%nat /\
      forall fuel, (List.length sequences <= fuel)%nat ->
        call_consensus_rounds fuel sequences qualities q_threshold proportion
          = Some (Ok (consensuses, assignments, rounds))) /\
  (forall L seqs quals thresh,
      seqs <> [] -> List.length quals = List.length seqs ->
      Forall (fun read => List.length read = L) seqs ->
      Forall (fun qual => List.length qual = L) quals ->
      exists consensus assigned pp best,
        _call_consensus seqs quals thresh = Ok (consensus, assigned) /\
        List.length assigned = List.length seqs /\
        (List.length (select (map negb assigned) seqs) < List.length seqs)%nat /\
        _calculate_positional_probs seqs quals = Ok pp /\
        (best < List.length seqs)%nat /\
        nth best assigned false = true /\
        (forall k, (k < List.length seqs)%nat ->
                   read_cost L (argmax0 pp) (nth best seqs []) (nth best quals [])
                   <= read_cost L (argmax0 pp) (nth k seqs []) (nth k quals [])) /\
        ((2 <= List.length seqs)%nat ->
         forall k, (k < List.length seqs)%nat ->
           (nth k assigned false = true <->
            (inject_Z (read_cost L (argmax0 pp) (nth k seqs []) (nth k quals []))
             <= Qmax thresh (inject_Z (read_cost L (argmax0 pp) (nth best seqs [])
                                                 (nth best quals []))))%Q))).
Proof.
  intros Hv. split.
  - destruct (call_consensus_rounds_returns sequences qualities q_threshold proportion Hv)
      as [cs [a [r [Hr [Hrb _]]]]].
    exists cs, a, r. split; [exact Hrb | ].
    intros fuel Hfuel. eapply call_consensus_rounds_fuel_mono; eassumption.
  - intros L seqs quals thresh Hne Hlen Hs Hq.
    destruct (call_consensus_assigns seqs quals thresh Hne Hlen)
      as [c [assigned [Hc [Hal Hex]]]].
    pose proof (select_negb_shorter assigned seqs Hal Hex) as Hshrink.
    destruct seqs as [|s0 [|s1 rest]]; [congruence | | ].
    + simpl in Hc. inversion Hc; subst c assigned. clear Hc.
      exists (_most_likely_sequence (as_int s0)), [true].
      destruct (positional_probs_ok [s0] quals Hne) as [pp Hpp].
      exists pp, 0%nat. split; [reflexivity | ]. split; [reflexivity | ].
      split; [exact Hshrink | ]. split; [exact Hpp | ]. split; [simpl; lia | ].
      split; [reflexivity | ]. split.
      * intros k Hk. simpl in Hk. replace k with 0%nat by lia. lia.
      * simpl. lia.
    + destruct (call_consensus_round L (s0 :: s1 :: rest) quals thresh)
        as [pp [c' [assigned' [best [Hpp [Hc' [Hal' [Hb [Hmin Hiff]]]]]]]]];
        [simpl; lia | exact Hlen | exact Hs | exact Hq | ].
      rewrite Hc in Hc'. inversion Hc'; subst c' assigned'. clear Hc'.
      exists c, assigned, pp, best.
      split; [exact Hc | ]. split; [exact Hal | ]. split; [exact Hshrink | ].
      split; [exact Hpp | ]. split; [exact Hb | ]. split.
      * apply Hiff; [exact Hb | ]. apply Q.le_max_r.
      * split; [exact Hmin | ]. intros _. exact Hiff.
Qed.

Lemma consensus_terminates_witness :
  exists consensuses assignments rounds,
    (1 <= rounds <= 3)%nat /\
    forall fuel, (3 <= fuel)%nat ->
      call_consensus_rounds fuel ["AAAA"; "AAAT"; "CCCC"]%string
        [QualArr [40; 40; 40; 40]; QualArr [40; 40; 40; 40]; QualArr [40; 40; 40; 40]]
        30 (5 # 100) = Some (Ok (consensuses, assignments, rounds)).
Proof.
  apply (consensus_terminates ["AAAA"; "AAAT"; "CCCC"]%string
           [QualArr [40; 40; 40; 40]; QualArr [40; 40; 40; 40]; QualArr [40; 40; 40; 40]]).
  split; [discriminate | ].
  repeat constructor; eexists; reflexivity.
Defined.

(** ** Whitelist corrector: reads with a single exact match *)

Lemma validate_nonempty sequences qualities whitelist :
  validate sequences qualities whitelist = Ok tt -> sequences <> [] /\ whitelist <> [].
Proof.
  unfold validate.
  destruct (negb (len sequences =? len qualities)); [discriminate | ].
  destruct (existsb _ (combine sequences qualities)); [discriminate | ].
  destruct (negb _); [discriminate | ].
  destruct (existsb _ sequences); [discriminate | ].
  destruct (existsb _ whitelist); [discriminate | ].
  destruct sequences as [|s0 srest]; [discriminate | ].
  destruct whitelist as [|w0 wrest]; [discriminate | ].
  intros _. split; discriminate.
Qed.

Lemma hamming_distance_ok_inv r w dist :
  hamming_distance r w = Ok dist ->
  len (chars r) = len (chars w) /\ valid_sequence r = true /\ valid_sequence w = true.
Proof.
  rewrite hamming_distance_closed.
  destruct (len (chars r) =? len (chars w)) eqn:El; [ | discriminate].
  destruct (valid_sequence r); [ | discriminate].
  destruct (valid_sequence w); [ | discriminate].
  intros _. apply Z.eqb_eq in El. auto.
Qed.

(** The exact matches that the first loop computes for a read are [[m]]
    when entry [m] is the only whitelist entry at Hamming distance 0. *)
Lemma unique_distance_zero_exact_match whitelist d r m :
  0 <= d -> NoDup whitelist ->
  (forall w, In w whitelist -> valid_sequence w = true) ->
  (forall w w', In w whitelist -> In w' whitelist -> len (chars w) = len (chars w')) ->
  (m < List.length whitelist)%nat ->
  hamming_distance r (nth m whitelist EmptyString) = Ok 0 ->
  (forall w', In w' whitelist -> hamming_distance r w' = Ok 0 ->
              w' = nth m whitelist EmptyString) ->
  exact_matches (fst (neighbours whitelist d r)) (snd (neighbours whitelist d r)) = [m].
Proof.
  intros Hd Hnd Hw Hlen Hm Hzero Huniq. rewrite exact_matches_filter by exact Hd.
  rewrite <- (filter_eqb_seq m (List.length whitelist) Hm).
  apply filter_ext_in. intros j Hj. apply in_seq in Hj.
  destruct (hamming_distance_ok_inv _ _ _ Hzero) as [Hl [Hr _]].
  assert (Hwm : In (nth m whitelist EmptyString) whitelist) by (apply nth_In; lia).
  assert (Hwj : In (nth j whitelist EmptyString) whitelist) by (apply nth_In; lia).
  assert (Hdist : hamming_distance r (nth j whitelist EmptyString)
                  = Ok (_hamming_distance (encode r) (encode (nth j whitelist EmptyString)))).
  { apply hamming_distance_of_encodings; [exact Hr | now apply Hw | ].
    rewrite Hl. now apply Hlen. }
  destruct (Nat.eqb_spec m j) as [->|Hne].
  - apply Z.eqb_eq. rewrite Hzero in Hdist. now inversion Hdist.
  - apply Z.eqb_neq. intros E. rewrite E in Hdist.
    apply Hne. apply (proj1 (NoDup_nth whitelist EmptyString) Hnd); [lia | lia | ].
    symmetry. now apply Huniq.
Qed.

Section ExactMatch.

Variable log10 : Q -> Q.
Variable log10_sum_pow10 : list Q -> Q.
Variable unchecked_read : nat -> Z.

(** C5. On an input that passes validation and encodes, with [d] not
    negative: when exactly one whitelist entry [w] is at Hamming distance 0
    from the read [r], the corrector returns, and every occurrence of [r] is
    corrected to [w], whatever the qualities, the confidence and the float
    arithmetic are. *)
Theorem exact_match_corrected sequences qualities whitelist d confidence r w :
  validate sequences qualities whitelist = Ok tt ->
  encodable sequences qualities whitelist ->
  0 <= d ->
  In w whitelist ->
  hamming_distance r w = Ok 0 ->
  (forall w', In w' whitelist -> hamming_distance r w' = Ok 0 -> w' = w) ->
  exists corrections,
    correct_sequences_to_whitelist log10 log10_sum_pow10 unchecked_read
                                   sequences qualities whitelist d confidence
      = Ok corrections /\
    List.length corrections = List.length sequences /\
    forall i, nth_error sequences i = Some r ->
              nth_error corrections i = Some (Some w).
Proof.
  intros Hval Henc Hd Hw Hzero Huniq.
  destruct (In_nth whitelist w EmptyString Hw) as [m [Hm Hmw]].
  destruct (validate_common_length _ _ _ Hval) as [_ Hcommon].
  destruct (validate_nonempty _ _ _ Hval) as [Hsne _].
  destruct sequences as [|s0 srest]; [congruence | ].
  rewrite <- Hmw.
  apply (single_exact_match_corrected log10 log10_sum_pow10 unchecked_read);
    [exact Hval | exact Henc | ].
  apply unique_distance_zero_exact_match.
  - exact Hd.
  - eapply validate_nodup; exact Hval.
  - apply Henc.
  - intros w1 w2 H1 H2.
    rewrite <- (Hcommon s0 w1 (or_introl eq_refl) H1).
    apply Hcommon; [now left | exact H2].
  - exact Hm.
  - now rewrite Hmw.
  - rewrite Hmw. exact Huniq.
Qed.

End ExactMatch.

Lemma exact_match_corrected_witness :
  exists corrections,
    correct_sequences_to_whitelist (fun _ => 0%Q) (fun _ => 0%Q) (fun _ => 0)
      ["ACTG"; "ACTT"; "AGCC"; "TTTT"; "ACTG"]%string
      [QualStr "IIII"; QualStr "IIII"; QualStr "IIII"; QualStr "IIII"; QualStr "!!!!"]
      ["ACTG"; "TTTN"]%string 1 (9 # 10)
      = Ok corrections /\
    List.length corrections = 5%nat /\
    forall i, nth_error ["ACTG"; "ACTT"; "AGCC"; "TTTT"; "ACTG"]%string i = Some "ACTG"%string ->
              nth_error corrections i = Some (Some "ACTG"%string).
Proof.
  apply (exact_match_corrected (fun _ => 0%Q) (fun _ => 0%Q) (fun _ => 0)
           ["ACTG"; "ACTT"; "AGCC"; "TTTT"; "ACTG"]%string
           [QualStr "IIII"; QualStr "IIII"; QualStr "IIII"; QualStr "IIII"; QualStr "!!!!"]
           ["ACTG"; "TTTN"]%string 1 (9 # 10) "ACTG"%string "ACTG"%string).
  - reflexivity.
  - split; [ | split].
    + intros s H. simpl in H.
      repeat (destruct H as [H | H]; [subst; reflexivity | ]). contradiction.
    + intros w H. simpl in H.
      repeat (destruct H as [H | H]; [subst; reflexivity | ]). contradiction.
    + intros q H. simpl in H.
      repeat (destruct H as [H | H]; [subst; eexists; reflexivity | ]). contradiction.
  - lia.
  - left. reflexivity.
  - reflexivity.
  - intros w' H Hz. simpl in H.
    destruct H as [H | [H | H]]; [now subst | subst w'; vm_compute in Hz; discriminate Hz
                                 | contradiction].
Defined.

(** ** Whitelist corrector: the choice among several neighbours *)

Section FirstNeighbour.

Variable log10 : Q -> Q.
Variable log10_sum_pow10 : list Q -> Q.
Variable unchecked_read : nat -> Z.

(** C9, at a failing input.  The read ["AC"] with qualities 40 and 10 has
    the three neighbours ["TC"], ["AA"] and ["AG"] within distance 1, all with
    the same prior.  Their log10 likelihoods are the prior minus 4, minus 1 and
    minus 1: the largest value is reached by ["AA"] and ["AG"], and the
    smaller whitelist index among them is that of ["AA"].  The last loop hands
    [_correct_to_whitelist] all the masks as one row, so its loop sees the
    first neighbour only: the read is corrected to ["TC"] whenever the
    confidence test passes, and left alone otherwise; ["AA"] is never
    returned. *)
Theorem phase3_first_neighbour_chosen confidence :
  let whitelist := ["TC"; "AA"; "AG"]%string in
  let prior := log10 (1 # 3) in
  let likelihood j :=
    log10_likelihood unchecked_read [40; 10] [prior; prior; prior] j
                     (nth j (snd (neighbours whitelist 1 "AC")) []) in
  fst (neighbours whitelist 1 "AC") = [0; 1; 2]%nat /\
  (exists st, phase1 ["AC"]%string whitelist 1 = Ok st /\
              matches st = [] /\
              log10_proportions_of log10 (whitelist_counts st) (len whitelist)
              = [prior; prior; prior]) /\
  ((likelihood 0%nat == prior - 4)%Q /\
   (likelihood 1%nat == prior - 1)%Q /\
   (likelihood 2%nat == prior - 1)%Q) /\
  exists c,
    correct_sequences_to_whitelist log10 log10_sum_pow10 unchecked_read
      ["AC"]%string [QualArr [40; 10]] whitelist 1 confidence = Ok [c] /\
    (c = Some "TC"%string \/ c = None) /\
    ((forall ll, (log10 confidence <= ll - log10_sum_pow10 [ll])%Q) ->
     c = Some "TC"%string).
Proof.
  intros whitelist prior likelihood.
  split; [reflexivity | ]. split.
  { eexists. split; [vm_compute; reflexivity | ]. split; reflexivity. }
  split.
  { unfold likelihood, log10_likelihood.
    change (snd (neighbours whitelist 1 "AC"))
      with [[true; false]; [false; true]; [false; true]].
    cbn [nth masked_sum nth_error].
    change (inject_Z (40 + (0 + 0))) with (40 # 1).
    change (inject_Z (0 + (10 + 0))) with (10 # 1).
    clearbody prior. repeat split; first [lra | field]. }
  unfold correct_sequences_to_whitelist.
  change (validate ["AC"]%string [QualArr [40; 10]] whitelist) with (Ok tt).
  cbn [bind].
  assert (Hp : phase1 ["AC"]%string whitelist 1 =
    Ok (mk_phase1 [("AC"%string, ([0; 1; 2]%nat, [[true; false]; [false; true]; [false; true]]))]
                  [0; 0; 0] [])) by (vm_compute; reflexivity).
  rewrite Hp. cbn [bind matches whitelist_counts].
  unfold exact_corrections. cbn [map assoc combine mapM].
  unfold phase3_one. cbn [_qualities_to_array truthy andb quality_values bind map].
  change (assoc String.eqb "AC"%string (mismatch_cache _))
    with (Some ([0; 1; 2]%nat, [[true; false]; [false; true]; [false; true]])).
  cbv beta iota.
  set (props := log10_proportions_of log10 [0; 0; 0] (len whitelist)).
  set (ll := log10_likelihood unchecked_read [uint8 40; uint8 10] props 0
                              (List.concat [[true; false]; [false; true]; [false; true]])).
  change (_correct_to_whitelist log10_sum_pow10 unchecked_read [uint8 40; uint8 10]
            [0; 1; 2]%nat [List.concat [[true; false]; [false; true]; [false; true]]] props)
    with (0, (ll - log10_sum_pow10 [ll])%Q).
  cbv beta iota. cbn [Z.leb Z.compare andb Z.to_nat nth].
  destruct (Qle_bool (log10 confidence) (ll - log10_sum_pow10 [ll])) eqn:E.
  - eexists. split; [reflexivity | ]. split; [now left | reflexivity].
  - eexists. split; [reflexivity | ]. split; [now right | ].
    intros H. specialize (H ll). apply Qle_bool_iff in H. congruence.
Qed.

End FirstNeighbour.
